(** * Verification of [scripts/reset_test_project.py]

    The script drives the git command-line tool as a child process in order
    to force a working copy back to a clean checkout of its trunk branch.
    This development embeds the script in Rocq and proves the sequencing,
    fallback and failure-classification properties of its specification.

    The embedding is shallow.  Python strings are [string] (a character is a
    code point below 256), Python integers are [Z], [None]-or-text is
    [option string].  Everything outside the script (the child processes, the
    file-system predicates of [os.path] and the command-line parser of
    [argparse]) is a parameter of the model; the
    script's own effects (the commands it issues, the lines it prints, early
    [return], [sys.exit] and exceptions) are threaded through a small monad. *)

From Stdlib Require Import String Ascii List ZArith Bool Lia DecimalString Sorted.
Import ListNotations.
Local Open Scope string_scope.
Local Open Scope Z_scope.

(** ** Python string operations used by the script *)

Module PyStr.

(** [str.isspace] on one character (code points below 256). *)
Definition is_space (c : ascii) : bool :=
  let n := nat_of_ascii c in
  ((9 <=? n) && (n <=? 13) || (28 <=? n) && (n <=? 32)
   || (n =? 133) || (n =? 160))%nat.

(** Line boundaries recognised by [str.splitlines]. *)
Definition is_linebreak (c : ascii) : bool :=
  let n := nat_of_ascii c in
  ((10 <=? n) && (n <=? 13) || (28 <=? n) && (n <=? 30) || (n =? 133))%nat.

Definition is_cr (c : ascii) : bool := (nat_of_ascii c =? 13)%nat.
Definition is_lf (c : ascii) : bool := (nat_of_ascii c =? 10)%nat.

Fixpoint lstrip (s : string) : string :=
  match s with
  | EmptyString => EmptyString
  | String c s' => if is_space c then lstrip s' else s
  end.

Fixpoint rstrip (s : string) : string :=
  match s with
  | EmptyString => EmptyString
  | String c s' =>
      match rstrip s' with
      | EmptyString => if is_space c then EmptyString else String c EmptyString
      | r => String c r
      end
  end.

(** [s.strip()] *)
Definition strip (s : string) : string := rstrip (lstrip s).

(** [s.splitlines()]: [after_cr] remembers that the previous character was
    a carriage return, so that a following line feed belongs to the same
    boundary; [cur] is the line being collected. *)
Fixpoint splitlines_from (after_cr : bool) (cur : string) (s : string)
  : list string :=
  match s with
  | EmptyString => match cur with EmptyString => [] | _ => [cur] end
  | String c s' =>
      if after_cr && is_lf c then splitlines_from false cur s'
      else if is_linebreak c then cur :: splitlines_from (is_cr c) "" s'
      else splitlines_from false (cur ++ String c "") s'
  end.

Definition splitlines (s : string) : list string := splitlines_from false "" s.

(** [sub in s] *)
Fixpoint contains (sub s : string) : bool :=
  match s with
  | EmptyString => prefix sub s
  | String _ s' => prefix sub s || contains sub s'
  end.

(** [s.replace(old, new)] for a non-empty [old]: [skip] counts the
    characters of a match that are still to be dropped. *)
Fixpoint replace_from (old new : string) (skip : nat) (s : string) : string :=
  match s with
  | EmptyString => EmptyString
  | String c s' =>
      match skip with
      | S k => replace_from old new k s'
      | O => if prefix old s
             then new ++ replace_from old new (Nat.pred (String.length old)) s'
             else String c (replace_from old new O s')
      end
  end.

(** With an empty [old], Python inserts [new] around every character. *)
Fixpoint intersperse (new s : string) : string :=
  match s with
  | EmptyString => new
  | String c s' => new ++ String c (intersperse new s')
  end.

Definition replace (old new s : string) : string :=
  match old with
  | EmptyString => intersperse new s
  | _ => replace_from old new O s
  end.

(** [sep.join(parts)] *)
Definition join (sep : string) (parts : list string) : string :=
  String.concat sep parts.

(** [str(n)] for an integer. *)
Definition of_int (n : Z) : string := NilZero.string_of_int (Z.to_int n).

(** Truth value of a string: only the empty string is false. *)
Definition truthy (s : string) : bool :=
  match s with EmptyString => false | _ => true end.

End PyStr.

(** Truth value of [None]-or-text, as tested by [if x:] and [if not x:]. *)
Definition truthy (x : option string) : bool :=
  match x with None => false | Some s => PyStr.truthy s end.

(** [x != s] where [x] is [None] or text and [s] is text. *)
Definition differs (x : option string) (s : string) : bool :=
  match x with None => true | Some t => negb (String.eqb t s) end.

(** ** Child processes, exceptions and the observable world *)

(** What [subprocess.run(..., capture_output=True, text=True)] can do on its
    own: hand back a completed process, or fail to start one. *)
Inductive ProcResult : Type :=
| Completed (returncode : Z) (stdout stderr : string)
| NotFound                       (* FileNotFoundError *)
| Broken (msg : string).         (* any other exception, [msg] is its text *)

Inductive Exception : Type :=
| CalledProcessError (returncode : Z) (stdout stderr : string)
| FileNotFoundError
| IndexError
| OtherError (msg : string).

Inductive Stream : Type := Stdout | Stderr.

(** What [parser.parse_args()] can do with the words of the command line.
    The parser of the script has one optional positional argument,
    [repo_path], and the help flag that [argparse] adds by itself.  It hands
    back the positional argument if one was given, or it ends the process
    itself: after a usage error (an option it does not know, a second
    positional argument) it writes [message] to the error stream and exits
    with status 2; on the help flag it writes [text] to standard output and
    exits with status 0. *)
Inductive Parse : Type :=
| Parsed (repo_path : option string)
| UsageError (message : string)
| HelpShown (text : string).

(** One child process that was started (or attempted). *)
Record Invocation : Type := Invoke {
  inv_argv : list string;
  inv_cwd : string;
  inv_result : ProcResult
}.

Definition GIT_EXECUTABLE : string := "C:\Program Files\Git\cmd\git.exe".

(** The git operations the script relies on, read off an argument vector. *)
Inductive Kind : Type :=
| ShowRef | StashPush | StashDrop | Checkout | ShowCurrent | Fetch
| HardReset | Clean | ListBranches | ForceDelete | SafeDelete | Unknown.

Definition kind_of (argv : list string) : Kind :=
  match argv with
  | _ :: verb :: rest =>
      if String.eqb verb "show-ref" then ShowRef
      else if String.eqb verb "stash" then
        match rest with
        | sub :: _ => if String.eqb sub "push" then StashPush
                      else if String.eqb sub "drop" then StashDrop else Unknown
        | [] => Unknown
        end
      else if String.eqb verb "checkout" then Checkout
      else if String.eqb verb "fetch" then Fetch
      else if String.eqb verb "reset" then HardReset
      else if String.eqb verb "clean" then Clean
      else if String.eqb verb "branch" then
        match rest with
        | [] => ListBranches
        | flag :: _ => if String.eqb flag "--show-current" then ShowCurrent
                       else if String.eqb flag "-D" then ForceDelete
                       else if String.eqb flag "-d" then SafeDelete else Unknown
        end
      else Unknown
  | _ => Unknown
  end.

Definition kind (i : Invocation) : Kind := kind_of (inv_argv i).

(** Operations that only read the repository. *)
Definition read_only (k : Kind) : bool :=
  match k with ShowRef | ShowCurrent | ListBranches => true | _ => false end.

Definition state_changing (i : Invocation) : bool := negb (read_only (kind i)).

(** ** A small model of git

    A repository is its local branches, the branch that is checked out,
    whether the working tree has changes, how many stash entries exist and
    whether the remote can be reached.  [fault] lets a scenario make an
    operation misbehave.  The model serves to run the script on concrete
    repositories; the theorems below hold for every outside world. *)

Module ToyGit.

Record Repo : Type := {
  branches : list string;
  head : string;
  dirty : bool;
  stashes : nat;
  remote : bool;
  fault : Kind -> option ProcResult
}.

Definition nl : string := String (ascii_of_nat 10) "".

Definition no_fault : Kind -> option ProcResult := fun _ => None.

Definition has_branch (r : Repo) (b : string) : bool :=
  existsb (String.eqb b) (branches r).

Definition listing (r : Repo) : string :=
  String.concat ""
    (map (fun b => (if String.eqb b (head r) then "* " else "  ") ++ b ++ nl)
         (branches r)).

Definition ok (out : string) : ProcResult := Completed 0 out "".
Definition err (rc : Z) (msg : string) : ProcResult := Completed rc "" msg.

Definition delete (r : Repo) (b : string) : ProcResult * Repo :=
  if has_branch r b && negb (String.eqb b (head r)) then
    (ok ("Deleted branch " ++ b ++ "." ++ nl),
     {| branches := filter (fun x => negb (String.eqb x b)) (branches r);
        head := head r; dirty := dirty r; stashes := stashes r;
        remote := remote r; fault := fault r |})
  else (err 1 ("error: cannot delete branch '" ++ b ++ "'" ++ nl), r).

Definition spawn (r : Repo) (argv : list string) (cwd : string)
  : ProcResult * Repo :=
  match fault r (kind_of argv) with
  | Some answer => (answer, r)
  | None =>
      match argv with
      | [] => (NotFound, r)
      | exe :: args =>
          if negb (String.eqb exe GIT_EXECUTABLE) then (NotFound, r) else
          match kind_of argv with
          | ShowRef =>
              if existsb (fun b => String.eqb ("refs/heads/" ++ b) (last args ""))
                         (branches r)
              then (ok "", r) else (err 1 "", r)
          | StashPush =>
              if dirty r then
                (ok ("Saved working directory and index state On " ++ head r
                     ++ ": AutoAgentResetStash" ++ nl),
                 {| branches := branches r; head := head r; dirty := false;
                    stashes := S (stashes r); remote := remote r;
                    fault := fault r |})
              else (ok ("No local changes to save" ++ nl), r)
          | StashDrop =>
              match stashes r with
              | O => (err 1 ("No stash entries found." ++ nl), r)
              | S k =>
                  (ok ("Dropped refs/stash@{0}" ++ nl),
                   {| branches := branches r; head := head r; dirty := dirty r;
                      stashes := k; remote := remote r; fault := fault r |})
              end
          | Checkout =>
              let b := last args "" in
              if has_branch r b then
                (Completed 0 "" ("Switched to branch '" ++ b ++ "'" ++ nl),
                 {| branches := branches r; head := b; dirty := dirty r;
                    stashes := stashes r; remote := remote r; fault := fault r |})
              else (err 1 ("error: pathspec '" ++ b ++ "' did not match" ++ nl), r)
          | ShowCurrent => (ok (head r ++ nl), r)
          | Fetch =>
              if remote r then (ok "", r)
              else (err 128 ("fatal: 'origin' does not appear to be a git repository"
                             ++ nl), r)
          | HardReset =>
              (ok ("HEAD is now at 1a2b3c4 work" ++ nl),
               {| branches := branches r; head := head r; dirty := false;
                  stashes := stashes r; remote := remote r; fault := fault r |})
          | Clean => (ok "", r)
          | ListBranches => (ok (listing r), r)
          | ForceDelete => delete r (last args "")
          | SafeDelete => delete r (last args "")
          | Unknown => (err 1 ("git: not a git command" ++ nl), r)
          end
      end
  end.

(** A file system in which the executable and the repository exist. *)
Definition present : string -> bool := fun _ => true.
Definition join (a b : string) : string := a ++ "\" ++ b.
Definition abspath (path : string) : string := path.

Definition repo (bs : list string) (h : string) (changes online : bool)
  (f : Kind -> option ProcResult) : Repo :=
  {| branches := bs; head := h; dirty := changes; stashes := 0;
     remote := online; fault := f |}.

(** [fail_on k answer]: the operation [k] gets [answer] instead of being
    carried out. *)
Definition fail_on (k : Kind) (answer : ProcResult) : Kind -> option ProcResult :=
  fun k' =>
    match k, k' with
    | ShowRef, ShowRef | StashPush, StashPush | StashDrop, StashDrop
    | Checkout, Checkout | ShowCurrent, ShowCurrent | Fetch, Fetch
    | HardReset, HardReset | Clean, Clean | ListBranches, ListBranches
    | ForceDelete, ForceDelete | SafeDelete, SafeDelete => Some answer
    | _, _ => None
    end.

End ToyGit.

(** A stand-in for [argparse] on simple command lines: the help flag wins
    wherever it stands, any other word that starts with a dash is an option
    the parser does not know, and at most one path is accepted.  Like the
    model of git it only serves to run the script on concrete inputs. *)
Module ToyArgparse.

Definition USAGE : string := "usage: reset_test_project.py [-h] [repo_path]".

Definition is_help (a : string) : bool :=
  String.eqb a "-h" || String.eqb a "--help".

Definition is_option (a : string) : bool :=
  String.prefix "-" a && negb (String.eqb a "-").

Definition unrecognized (words : list string) : Parse :=
  UsageError (USAGE ++ ToyGit.nl
              ++ "reset_test_project.py: error: unrecognized arguments: "
              ++ PyStr.join " " words ++ ToyGit.nl).

Definition parse (argv : list string) : Parse :=
  if existsb is_help argv then HelpShown (USAGE ++ ToyGit.nl)
  else if existsb is_option argv then unrecognized (filter is_option argv)
  else match argv with
       | [] => Parsed None
       | [a] => Parsed (Some a)
       | _ :: extra => unrecognized extra
       end.

End ToyArgparse.

(** Repositories and faults used to exercise the script. *)
Module Scenario.
Import ToyGit.

Definition WORK : string := "C:\work\test_project".

(** Three branches, a feature branch checked out, uncommitted changes. *)
Definition busy : Repo :=
  repo ["main"; "feature/a"; "feature/b"] "feature/a" true true no_fault.

(** No [main] and no [master]. *)
Definition trunkless : Repo := repo ["develop"] "develop" false true no_fault.

(** Only [master], and no reachable remote. *)
Definition offline : Repo := repo ["master"; "wip"] "wip" false false no_fault.

(** The hard reset is refused, with the remote unreachable. *)
Definition locked : Repo :=
  repo ["main"; "wip"] "wip" false false
       (fail_on HardReset (Completed 128 "" "fatal: Unable to create index.lock")).


(** The branch listing comes back empty. *)
Definition silent : Repo :=
  repo ["main"; "wip"] "main" false true
       (fail_on ListBranches (Completed 0 "" "")).

(** The branch listing fails. *)
Definition unlistable : Repo :=
  repo ["main"; "wip"] "main" false true
       (fail_on ListBranches (Completed 129 "" "usage: git branch")).

(** Forced deletion is refused; the lenient one works. *)
Definition stubborn : Repo :=
  repo ["main"; "wip"; "old"] "main" false true
       (fail_on ForceDelete (Completed 1 "" "error: refused")).

(** The checkout is refused. *)
Definition blocked : Repo :=
  repo ["main"; "wip"] "wip" false true
       (fail_on Checkout
          (Completed 1 "" "error: Your local changes would be overwritten")).

(** [git clean] fails. *)
Definition sticky : Repo :=
  repo ["main"; "wip"] "main" false true
       (fail_on Clean (Completed 1 "" "warning: failed to remove build/")).


(** Starting the stash process is refused by the operating system. *)
Definition denied : Repo :=
  repo ["main"; "wip"] "wip" true true
       (fail_on StashPush (Broken "[WinError 5] Access is denied")).

(** What [git branch] prints when [side] is checked out in a linked
    worktree: its line is marked with a plus sign. *)
Definition SHARED_LISTING : string :=
  "* main" ++ nl ++ "+ side" ++ nl ++ "  wip" ++ nl.

Definition shared : Repo :=
  repo ["main"; "side"; "wip"] "main" false true
       (fail_on ListBranches (Completed 0 SHARED_LISTING "")).

(** A file system in which only [WORK] is a directory: no [.git] in it. *)
Definition only_work : string -> bool := fun path => String.eqb path WORK.

(** A file system with nothing in it. *)
Definition nothing : string -> bool := fun _ => false.

End Scenario.

(** How a piece of the script can end: it runs to its end with a value,
    executes a bare [return] of the enclosing function, calls [sys.exit], or
    lets an exception escape. *)
Inductive Outcome (A : Type) : Type :=
| Normal (a : A)
| Returned
| SystemExit (code : Z)
| Raised (e : Exception).

Arguments Normal {A} a.
Arguments Returned {A}.
Arguments SystemExit {A} code.
Arguments Raised {A} e.

(** The value [subprocess.run] hands back. *)
Record CompletedProcess : Type := {
  returncode : Z;
  stdout : string;
  stderr : string
}.

(** [str(e)] for the exceptions of the model. *)
Definition exception_text (e : Exception) : string :=
  match e with
  | CalledProcessError rc _ _ =>
      "Command returned non-zero exit status " ++ PyStr.of_int rc ++ "."
  | FileNotFoundError => "[WinError 2] The system cannot find the file specified"
  | IndexError => "list index out of range"
  | OtherError msg => msg
  end.

Section Script.

(** The world outside the script.  [spawn] is the operating system starting
    a child process with an argument vector in a working directory: it
    answers with what the process did and moves the outside world on.  The
    answers may depend in any way on what happened before. *)
Variable Env : Type.
Variable spawn : Env -> list string -> string -> ProcResult * Env.

(** [os.path] as the script uses it. *)
Variable os_path_isfile : string -> bool.
Variable os_path_exists : string -> bool.
Variable os_path_isdir : string -> bool.
Variable os_path_join : string -> string -> string.
Variable os_path_abspath : string -> string.

(** [argparse] with the parser the script declares, as a function of the
    words after the script's name on the command line. *)
Variable argparse : list string -> Parse.

(** What an observer of one run sees: the remaining outside world, the
    child processes started so far (oldest first) and the lines written to
    the two output streams (oldest first). *)
Record World : Type := {
  env : Env;
  calls : list Invocation;
  console : list (Stream * string)
}.

Definition M (A : Type) : Type := World -> Outcome A * World.

Definition ret {A : Type} (a : A) : M A := fun w => (Normal a, w).

Definition bind {A B : Type} (m : M A) (k : A -> M B) : M B :=
  fun w =>
    match m w with
    | (Normal a, w') => k a w'
    | (Returned, w') => (Returned, w')
    | (SystemExit c, w') => (SystemExit c, w')
    | (Raised e, w') => (Raised e, w')
    end.

Notation "x <- m ;; k" := (bind m (fun x => k))
  (at level 61, m at next level, right associativity).
Notation "m ;; k" := (bind m (fun _ => k))
  (at level 61, right associativity).

(** A bare [return] inside a function body. *)
Definition return_ {A : Type} : M A := fun w => (Returned, w).

(** [sys.exit(code)] *)
Definition sys_exit {A : Type} (code : Z) : M A := fun w => (SystemExit code, w).

Definition raise {A : Type} (e : Exception) : M A := fun w => (Raised e, w).

(** [try: body  except ... as e: handler e].  [sys.exit] inside [body] is
    not an [Exception] and passes through. *)
Definition try_except {A : Type} (body : M A) (handler : Exception -> M A) : M A :=
  fun w =>
    match body w with
    | (Raised e, w') => handler e w'
    | r => r
    end.

(** The body of a function that returns nothing: a bare [return] ends it. *)
Definition def_ (body : M unit) : M unit :=
  fun w =>
    match body w with
    | (Returned, w') => (Normal tt, w')
    | r => r
    end.

(** [if b: m] with no [else]. *)
Definition when (b : bool) (m : M unit) : M unit := if b then m else ret tt.

(** [for x in items: ...] with the loop-carried variables in [acc]. *)
Fixpoint for_each {A S : Type} (items : list A) (body : A -> S -> M S) (acc : S)
  : M S :=
  match items with
  | [] => ret acc
  | x :: rest => acc' <- body x acc ;; for_each rest body acc'
  end.

Definition emit (to : Stream) (line : string) : M unit :=
  fun w => (Normal tt,
            {| env := env w; calls := calls w;
               console := console w ++ [(to, line)] |}).

(** [print(line)] and [print(line, file=sys.stderr)] *)
Definition print (line : string) : M unit := emit Stdout line.
Definition eprint (line : string) : M unit := emit Stderr line.

(** [subprocess.run(cmd, cwd=cwd, check=check, capture_output=True,
    text=True, encoding='utf-8')] *)
Definition subprocess_run (cmd : list string) (cwd : string) (check : bool)
  : M CompletedProcess :=
  fun w =>
    let (r, e') := spawn (env w) cmd cwd in
    let w' := {| env := e'; calls := calls w ++ [Invoke cmd cwd r];
                 console := console w |} in
    match r with
    | Completed rc out err =>
        if check && negb (rc =? 0)
        then (Raised (CalledProcessError rc out err), w')
        else (Normal {| returncode := rc; stdout := out; stderr := err |}, w')
    | NotFound => (Raised FileNotFoundError, w')
    | Broken msg => (Raised (OtherError msg), w')
    end.

(** ** The script *)

Definition run_command (cmd : list string) (cwd : string) : M (option string) :=
  let original_cmd := cmd in
  match cmd with
  | [] => raise IndexError
  | cmd0 :: args =>
      let cmd := if String.eqb cmd0 "git" then GIT_EXECUTABLE :: args else cmd in
      print ("Running in " ++ cwd ++ ": " ++ PyStr.join " " cmd) ;;
      try_except
        (result <- subprocess_run cmd cwd true ;;
         for_each (PyStr.splitlines (stdout result))
                  (fun line _ => print line) tt ;;
         ret (Some (PyStr.strip (stdout result))))
        (fun e =>
           match e with
           | CalledProcessError rc out err =>
               eprint ("Error running command: " ++ PyStr.join " " original_cmd) ;;
               eprint ("Full command attempted: " ++ PyStr.join " " cmd) ;;
               eprint ("Return code: " ++ PyStr.of_int rc) ;;
               eprint ("Stderr: " ++ err) ;;
               eprint ("Stdout: " ++ out) ;;
               ret None
           | FileNotFoundError =>
               eprint ("Error: Command '" ++ hd "" cmd
                       ++ "' not found. Is the GIT_EXECUTABLE path correct?") ;;
               eprint ("Path used: " ++ GIT_EXECUTABLE) ;;
               sys_exit 1
           | _ =>
               eprint ("An unexpected error occurred running "
                       ++ PyStr.join " " original_cmd ++ ": " ++ exception_text e) ;;
               ret None
           end)
  end.

Definition is_not_none (x : option string) : bool :=
  match x with Some _ => true | None => false end.

Definition is_none (x : option string) : bool := negb (is_not_none x).

Definition get_main_branch_name (repo_path : string) : M (option string) :=
  main_ref <- run_command
    ["git"; "show-ref"; "--verify"; "--quiet"; "refs/heads/main"] repo_path ;;
  if is_not_none main_ref then
    print "Detected main branch: main" ;;
    ret (Some "main")
  else
    master_ref <- run_command
      ["git"; "show-ref"; "--verify"; "--quiet"; "refs/heads/master"] repo_path ;;
    if is_not_none master_ref then
      print "Detected main branch: master" ;;
      ret (Some "master")
    else
      eprint "Error: Could not determine main branch (neither 'main' nor 'master' found)." ;;
      ret None.

(** The seven numbered steps of [reset_repository], each as the block of
    statements under its comment in the script. *)

(** [# 1. Determine main branch] *)
Definition determine_main_branch (repo_path : string) : M string :=
  main_branch <- get_main_branch_name repo_path ;;
  if negb (truthy main_branch) then
    eprint "Aborting reset due to missing main branch." ;;
    return_
  else
    ret (match main_branch with Some b => b | None => "" end).

Definition STASH_PUSH : list string :=
  [GIT_EXECUTABLE; "stash"; "push"; "--include-untracked"; "-m"; "AutoAgentResetStash"].

(** [# 2. Stash any potential leftover changes].  The stash itself goes
    through [subprocess.run] directly, without [check]. *)
Definition stash_leftovers (repo_path : string) : M unit :=
  print "Attempting to stash potential leftovers..." ;;
  stash_result <- subprocess_run STASH_PUSH repo_path false ;;
  if (returncode stash_result =? 0)
     && negb (PyStr.contains "No local changes" (stdout stash_result)) then
    print "Stashed changes. Dropping stash..." ;;
    drop_output <- run_command ["git"; "stash"; "drop"] repo_path ;;
    when (is_none drop_output)
      (eprint "Warning: Failed to drop stash. Manual cleanup might be needed ('git stash list').")
  else if negb (returncode stash_result =? 0) then
    print ("Stash command failed (may be expected if no changes). Stderr: "
           ++ PyStr.strip (stderr stash_result))
  else
    print "No local changes to stash.".

(** [# 3. Checkout main branch], followed by the confirmation that the
    switch happened. *)
Definition checkout_main_branch (repo_path main_branch : string) : M unit :=
  print ("Switching to branch: " ++ main_branch) ;;
  switched <- run_command ["git"; "checkout"; main_branch] repo_path ;;
  when (is_none switched)
    (eprint ("Error: Failed to switch to branch " ++ main_branch
             ++ ". Aborting further potentially destructive actions.") ;;
     return_) ;;
  current_branch_check <- run_command ["git"; "branch"; "--show-current"] repo_path ;;
  when (differs current_branch_check main_branch)
    (eprint ("Error: Failed to confirm switch to branch " ++ main_branch
             ++ " (Current: "
             ++ match current_branch_check with Some b => b | None => "None" end
             ++ "). Aborting.") ;;
     return_).

(** [# 4. Fetch latest changes for the main branch from origin]; the value
    is the script's [reset_target]. *)
Definition fetch_latest (repo_path main_branch : string) : M string :=
  print ("Fetching latest changes for " ++ main_branch ++ "...") ;;
  fetched <- run_command ["git"; "fetch"; "origin"; main_branch] repo_path ;;
  if is_none fetched then
    eprint ("Warning: Failed to fetch origin/" ++ main_branch
            ++ ". Resetting to local " ++ main_branch ++ ".") ;;
    ret "HEAD"
  else
    let reset_target := "origin/" ++ main_branch in
    print ("Successfully fetched origin/" ++ main_branch ++ ".") ;;
    ret reset_target.

(** [# 5. Force reset to the state of the fetched main branch HEAD] *)
Definition force_reset (repo_path main_branch reset_target : string) : M unit :=
  print ("Resetting index and working directory to " ++ reset_target ++ "...") ;;
  reset_output <- run_command ["git"; "reset"; "--hard"; reset_target] repo_path ;;
  when (is_none reset_output)
    (eprint ("Error: Failed hard reset on branch " ++ main_branch ++ " to "
             ++ reset_target ++ ". State might be inconsistent.") ;;
     return_).

(** [# 6. Remove all untracked files and directories] *)
Definition clean_untracked (repo_path : string) : M unit :=
  print "Cleaning untracked files..." ;;
  cleaned <- run_command ["git"; "clean"; "-fdx"] repo_path ;;
  when (is_none cleaned)
    (eprint "Warning: Failed git clean. Untracked files might remain.").

(** The list comprehension that turns the output of [git branch] into
    branch names. *)
Definition branch_names (branches_output : string) : list string :=
  map (fun b => PyStr.replace "* " "" (PyStr.strip b))
      (filter (fun b => PyStr.truthy (PyStr.strip b))
              (PyStr.splitlines branches_output)).

(** The body of the deletion loop; the loop-carried variables are
    [deleted_count] and [failed_deletions]. *)
Definition delete_branch (repo_path main_branch branch_name : string)
  (acc : Z * list string) : M (Z * list string) :=
  let (deleted_count, failed_deletions) := acc in
  if negb (String.eqb branch_name main_branch) then
    print ("Deleting branch: " ++ branch_name) ;;
    forced <- run_command ["git"; "branch"; "-D"; branch_name] repo_path ;;
    if is_not_none forced then
      ret (deleted_count + 1, failed_deletions)
    else
      print ("Force delete failed for " ++ branch_name ++ ", trying regular delete...") ;;
      regular <- run_command ["git"; "branch"; "-d"; branch_name] repo_path ;;
      if is_not_none regular then
        ret (deleted_count + 1, failed_deletions)
      else
        eprint ("Warning: Failed to delete branch " ++ branch_name) ;;
        ret (deleted_count, (failed_deletions ++ [branch_name])%list)
  else
    ret (deleted_count, failed_deletions).

(** [# 7. Delete all local branches except the main one] *)
Definition delete_other_branches (repo_path main_branch : string) : M unit :=
  print "Deleting other local branches..." ;;
  branches_output <- run_command ["git"; "branch"] repo_path ;;
  if truthy branches_output then
    let branches :=
      branch_names (match branches_output with Some out => out | None => "" end) in
    counts <- for_each branches (delete_branch repo_path main_branch) (0, []) ;;
    let (deleted_count, failed_deletions) := counts in
    print ("Deleted " ++ PyStr.of_int deleted_count ++ " other local branches.") ;;
    when (match failed_deletions with [] => false | _ => true end)
      (eprint ("Could not delete branches: " ++ PyStr.join ", " failed_deletions))
  else
    print "Could not list branches or no other branches found.".

(** The statements of [reset_repository].  Ending in [Returned] means that
    one of the bare [return]s was executed: the reset was given up. *)
Definition reset_body (repo_path : string) : M unit :=
  let git_dir := os_path_join repo_path ".git" in
  when (negb (os_path_isdir repo_path) || negb (os_path_isdir git_dir))
    (eprint ("'" ++ repo_path
             ++ "' does not appear to be an initialized Git repository.") ;;
     return_) ;;
  print ("--- Resetting Git repository: " ++ repo_path ++ " ---") ;;
  main_branch <- determine_main_branch repo_path ;;
  stash_leftovers repo_path ;;
  checkout_main_branch repo_path main_branch ;;
  reset_target <- fetch_latest repo_path main_branch ;;
  force_reset repo_path main_branch reset_target ;;
  clean_untracked repo_path ;;
  delete_other_branches repo_path main_branch ;;
  print "--- Repository reset complete ---".

Definition reset_repository (repo_path : string) : M unit :=
  def_ (reset_body repo_path).

(** The [__main__] block after [parser.parse_args()]; [arg] is the
    positional argument if one was given, and the default of the parser's
    declaration stands in for a missing one. *)
Definition main (arg : option string) : M unit :=
  let repo_path := match arg with Some p => p | None => "./test_project" end in
  when (negb (os_path_isfile GIT_EXECUTABLE))
    (eprint ("FATAL ERROR: Git executable not found at the specified path: "
             ++ GIT_EXECUTABLE) ;;
     eprint "Please correct the GIT_EXECUTABLE variable in the script." ;;
     sys_exit 1) ;;
  let repo_full_path := os_path_abspath repo_path in
  (if negb (os_path_exists repo_full_path) then
     eprint ("Error: Provided path '" ++ repo_full_path ++ "' does not exist.") ;;
     sys_exit 1
   else
     when (negb (os_path_isdir repo_full_path))
       (eprint ("Error: Provided path '" ++ repo_full_path
                ++ "' is not a valid directory.") ;;
        sys_exit 1)) ;;
  reset_repository repo_full_path.

(** [args = parser.parse_args()] for the parser declared at the top of the
    [__main__] block. *)
Definition parse_args (argv : list string) : M (option string) :=
  match argparse argv with
  | Parsed repo_path => ret repo_path
  | UsageError message => eprint message ;; sys_exit 2
  | HelpShown text => print text ;; sys_exit 0
  end.

(** The script run from the command line with the words [argv]: the whole
    [__main__] block. *)
Definition script (argv : list string) : M unit :=
  arg <- parse_args argv ;; main arg.

(** The status with which the interpreter process ends: 0 when the script
    runs off its end, the argument of [sys.exit], and 1 after an uncaught
    exception. *)
Definition exit_status (o : Outcome unit) : Z :=
  match o with
  | Normal _ => 0
  | Returned => 0
  | SystemExit code => code
  | Raised _ => 1
  end.

(** A fresh run: nothing started, nothing printed. *)
Definition start (e : Env) : World := {| env := e; calls := []; console := [] |}.

(** ** Vocabulary for the properties of a run *)

(** The argument vector that actually reaches the operating system when the
    script asks [run_command] for [["git"] ++ args]. *)
Definition git (args : list string) : list string := GIT_EXECUTABLE :: args.

Definition resolved (cmd0 : string) (args : list string) : list string :=
  if String.eqb cmd0 "git" then git args else cmd0 :: args.

(** The three ways a child process can go, as [run_command] tells them
    apart: exit status 0, anything else that is reported as [None], and the
    executable that cannot be started. *)
Definition succeeded (r : ProcResult) : bool :=
  match r with Completed rc _ _ => rc =? 0 | _ => false end.

Definition unlaunchable (r : ProcResult) : bool :=
  match r with NotFound => true | _ => false end.

Definition failed (r : ProcResult) : bool :=
  negb (succeeded r) && negb (unlaunchable r).

(** What [run_command] hands to its caller for each answer. *)
Definition command_value (r : ProcResult) : Outcome (option string) :=
  match r with
  | Completed rc out _ => if rc =? 0 then Normal (Some (PyStr.strip out)) else Normal None
  | NotFound => SystemExit 1
  | Broken _ => Normal None
  end.

Definition SHOW_REF_MAIN : list string :=
  git ["show-ref"; "--verify"; "--quiet"; "refs/heads/main"].
Definition SHOW_REF_MASTER : list string :=
  git ["show-ref"; "--verify"; "--quiet"; "refs/heads/master"].
Definition STASH_DROP : list string := git ["stash"; "drop"].
Definition CHECKOUT (b : string) : list string := git ["checkout"; b].
Definition SHOW_CURRENT : list string := git ["branch"; "--show-current"].
Definition FETCH (b : string) : list string := git ["fetch"; "origin"; b].
Definition RESET_HARD (target : string) : list string := git ["reset"; "--hard"; target].
Definition CLEAN : list string := git ["clean"; "-fdx"].
Definition LIST_BRANCHES : list string := git ["branch"].
Definition FORCE_DELETE (b : string) : list string := git ["branch"; "-D"; b].
Definition SAFE_DELETE (b : string) : list string := git ["branch"; "-d"; b].

(** [stopped o1 o]: a piece of code ended abnormally with [o1], and so did
    the code around it, with [o]. *)
Definition stopped {A B : Type} (o1 : Outcome A) (o : Outcome B) : Prop :=
  match o1, o with
  | Returned, Returned => True
  | SystemExit c, SystemExit c' => c = c'
  | Raised e, Raised e' => e = e'
  | _, _ => False
  end.

(** [logs c c']: the output [c'] is [c] with lines appended. *)
Definition logs (c c' : list (Stream * string)) : Prop :=
  exists lines, c' = (c ++ lines)%list.

(** [wp m Q w]: running [m] in the world [w] ends in an outcome and a world
    related by [Q]. *)
Definition wp {A : Type} (m : M A) (Q : Outcome A -> World -> Prop) (w : World)
  : Prop :=
  Q (fst (m w)) (snd (m w)).

(** How an abnormal end of the first part of a sequence shows in the
    postcondition of the whole. *)
Definition after {A B : Type} (k : A -> M B) (Q : Outcome B -> World -> Prop)
  : Outcome A -> World -> Prop :=
  fun o w1 =>
    match o with
    | Normal a => wp (k a) Q w1
    | Returned => Q Returned w1
    | SystemExit c => Q (SystemExit c) w1
    | Raised e => Q (Raised e) w1
    end.

(** The invocations on which the interpreter process dies: the executable
    could not be started, or the unguarded stash invocation raised. *)
Definition fatal (i : Invocation) : bool :=
  match inv_result i with
  | Completed _ _ _ => false
  | NotFound => true
  | Broken _ => match kind i with StashPush => true | _ => false end
  end.

(** The text [run_command] returns, or [None]. *)
Definition output (r : ProcResult) : option string :=
  match r with
  | Completed rc out _ => if rc =? 0 then Some (PyStr.strip out) else None
  | _ => None
  end.

Definition completed (r : ProcResult) : bool :=
  match r with Completed _ _ _ => true | _ => false end.

(** The stash invocation reported that it saved something. *)
Definition stash_created (r : ProcResult) : bool :=
  match r with
  | Completed rc out _ => (rc =? 0) && negb (PyStr.contains "No local changes" out)
  | _ => false
  end.

(** The exception [subprocess.run] raises without [check] for an answer that
    is not a completed process. *)
Definition exception_of (r : ProcResult) : Exception :=
  match r with
  | Completed rc out err => CalledProcessError rc out err
  | NotFound => FileNotFoundError
  | Broken msg => OtherError msg
  end.

(** The two directory tests at the top of [reset_repository]. *)
Definition is_repository (repo_path : string) : bool :=
  os_path_isdir repo_path && os_path_isdir (os_path_join repo_path ".git").

(** [Answers e n e']: starting from the outside world [e], the invocations
    [n] were made one after the other, each recorded with the answer the
    world really gave, and the world is left as [e']. *)
Inductive Answers : Env -> list Invocation -> Env -> Prop :=
| Answers_nil (e : Env) : Answers e [] e
| Answers_cons (e e1 e2 : Env) (argv : list string) (cwd : string)
    (r : ProcResult) (n : list Invocation) :
    spawn e argv cwd = (r, e1) -> Answers e1 n e2 ->
    Answers e (Invoke argv cwd r :: n) e2.

(** ** The possible courses of each step

    A phase relates the invocations a step makes, the lines of interest it
    prints, and the way it ends. *)
Definition Phase (A : Type) : Type :=
  list Invocation -> list (Stream * string) -> Outcome A -> Prop.

Definition MSG_NO_TRUNK : Stream * string :=
  (Stderr, "Aborting reset due to missing main branch.").
Definition MSG_NOT_REPO (p : string) : Stream * string :=
  (Stderr, "'" ++ p ++ "' does not appear to be an initialized Git repository.").
Definition MSG_STASH_FAILED (err : string) : Stream * string :=
  (Stdout, "Stash command failed (may be expected if no changes). Stderr: "
           ++ PyStr.strip err).
Definition MSG_NOTHING_TO_STASH : Stream * string :=
  (Stdout, "No local changes to stash.").
Definition MSG_DROP_FAILED : Stream * string :=
  (Stderr, "Warning: Failed to drop stash. Manual cleanup might be needed ('git stash list').").
Definition MSG_CHECKOUT_FAILED (b : string) : Stream * string :=
  (Stderr, "Error: Failed to switch to branch " ++ b
           ++ ". Aborting further potentially destructive actions.").
Definition MSG_NOT_ON_TRUNK (b : string) (current : option string) : Stream * string :=
  (Stderr, "Error: Failed to confirm switch to branch " ++ b ++ " (Current: "
           ++ match current with Some c => c | None => "None" end
           ++ "). Aborting.").
Definition MSG_FETCH_FAILED (b : string) : Stream * string :=
  (Stderr, "Warning: Failed to fetch origin/" ++ b
           ++ ". Resetting to local " ++ b ++ ".").
Definition MSG_RESET_FAILED (b target : string) : Stream * string :=
  (Stderr, "Error: Failed hard reset on branch " ++ b ++ " to " ++ target
           ++ ". State might be inconsistent.").
Definition MSG_CLEAN_FAILED : Stream * string :=
  (Stderr, "Warning: Failed git clean. Untracked files might remain.").
Definition MSG_DELETE_FAILED (x : string) : Stream * string :=
  (Stderr, "Warning: Failed to delete branch " ++ x).
Definition MSG_DELETED (count : Z) : Stream * string :=
  (Stdout, "Deleted " ++ PyStr.of_int count ++ " other local branches.").
Definition MSG_NO_LISTING : Stream * string :=
  (Stdout, "Could not list branches or no other branches found.").
Definition MSG_COMPLETE : Stream * string :=
  (Stdout, "--- Repository reset complete ---").

(** [get_main_branch_name] *)
Inductive Resolution (p : string) : Phase (option string) :=
| Res_main r1 :
    succeeded r1 = true ->
    Resolution p [Invoke SHOW_REF_MAIN p r1] [] (Normal (Some "main"))
| Res_main_crash r1 :
    unlaunchable r1 = true ->
    Resolution p [Invoke SHOW_REF_MAIN p r1] [] (SystemExit 1)
| Res_master r1 r2 :
    failed r1 = true -> succeeded r2 = true ->
    Resolution p [Invoke SHOW_REF_MAIN p r1; Invoke SHOW_REF_MASTER p r2] []
               (Normal (Some "master"))
| Res_master_crash r1 r2 :
    failed r1 = true -> unlaunchable r2 = true ->
    Resolution p [Invoke SHOW_REF_MAIN p r1; Invoke SHOW_REF_MASTER p r2] []
               (SystemExit 1)
| Res_none r1 r2 :
    failed r1 = true -> failed r2 = true ->
    Resolution p [Invoke SHOW_REF_MAIN p r1; Invoke SHOW_REF_MASTER p r2] []
               (Normal None).

(** Step 1 *)
Inductive Determined (p : string) : Phase string :=
| Det_found n notes b :
    Resolution p n notes (Normal (Some b)) -> Determined p n notes (Normal b)
| Det_crash n notes c :
    Resolution p n notes (SystemExit c) -> Determined p n notes (SystemExit c)
| Det_missing n notes :
    Resolution p n notes (Normal None) ->
    Determined p n (notes ++ [MSG_NO_TRUNK])%list Returned.

(** Step 2 *)
Inductive Stashing (p : string) : Phase unit :=
| Stash_raised r :
    completed r = false ->
    Stashing p [Invoke STASH_PUSH p r] [] (Raised (exception_of r))
| Stash_failed rc out err :
    rc <> 0 ->
    Stashing p [Invoke STASH_PUSH p (Completed rc out err)]
             [MSG_STASH_FAILED err] (Normal tt)
| Stash_nothing out err :
    PyStr.contains "No local changes" out = true ->
    Stashing p [Invoke STASH_PUSH p (Completed 0 out err)]
             [MSG_NOTHING_TO_STASH] (Normal tt)
| Stash_dropped r d :
    stash_created r = true -> succeeded d = true ->
    Stashing p [Invoke STASH_PUSH p r; Invoke STASH_DROP p d] [] (Normal tt)
| Stash_kept r d :
    stash_created r = true -> failed d = true ->
    Stashing p [Invoke STASH_PUSH p r; Invoke STASH_DROP p d]
             [MSG_DROP_FAILED] (Normal tt)
| Stash_drop_crash r d :
    stash_created r = true -> unlaunchable d = true ->
    Stashing p [Invoke STASH_PUSH p r; Invoke STASH_DROP p d] [] (SystemExit 1).

(** Step 3 *)
Inductive Switching (p b : string) : Phase unit :=
| Switch_crash c :
    unlaunchable c = true ->
    Switching p b [Invoke (CHECKOUT b) p c] [] (SystemExit 1)
| Switch_failed c :
    failed c = true ->
    Switching p b [Invoke (CHECKOUT b) p c] [MSG_CHECKOUT_FAILED b] Returned
| Switch_verify_crash c v :
    succeeded c = true -> unlaunchable v = true ->
    Switching p b [Invoke (CHECKOUT b) p c; Invoke SHOW_CURRENT p v] []
              (SystemExit 1)
| Switch_mismatch c v :
    succeeded c = true -> unlaunchable v = false ->
    differs (output v) b = true ->
    Switching p b [Invoke (CHECKOUT b) p c; Invoke SHOW_CURRENT p v]
              [MSG_NOT_ON_TRUNK b (output v)] Returned
| Switch_confirmed c v :
    succeeded c = true -> output v = Some b ->
    Switching p b [Invoke (CHECKOUT b) p c; Invoke SHOW_CURRENT p v] []
              (Normal tt).

(** Step 4; the value is the reset target. *)
Inductive Fetching (p b : string) : Phase string :=
| Fetch_ok f :
    succeeded f = true ->
    Fetching p b [Invoke (FETCH b) p f] [] (Normal ("origin/" ++ b))
| Fetch_failed f :
    failed f = true ->
    Fetching p b [Invoke (FETCH b) p f] [MSG_FETCH_FAILED b] (Normal "HEAD")
| Fetch_crash f :
    unlaunchable f = true ->
    Fetching p b [Invoke (FETCH b) p f] [] (SystemExit 1).

(** Step 5 *)
Inductive Resetting (p b target : string) : Phase unit :=
| Reset_ok r :
    succeeded r = true ->
    Resetting p b target [Invoke (RESET_HARD target) p r] [] (Normal tt)
| Reset_failed r :
    failed r = true ->
    Resetting p b target [Invoke (RESET_HARD target) p r]
              [MSG_RESET_FAILED b target] Returned
| Reset_crash r :
    unlaunchable r = true ->
    Resetting p b target [Invoke (RESET_HARD target) p r] [] (SystemExit 1).

(** Step 6 *)
Inductive Cleaning (p : string) : Phase unit :=
| Clean_ok r :
    succeeded r = true -> Cleaning p [Invoke CLEAN p r] [] (Normal tt)
| Clean_failed r :
    failed r = true -> Cleaning p [Invoke CLEAN p r] [MSG_CLEAN_FAILED] (Normal tt)
| Clean_crash r :
    unlaunchable r = true -> Cleaning p [Invoke CLEAN p r] [] (SystemExit 1).

(** Adding one more branch in front of the tally of a finished loop. *)
Definition tally (k : Z) (kept : list string) (o : Outcome (Z * list string))
  : Outcome (Z * list string) :=
  match o with
  | Normal (c, f) => Normal (k + c, (kept ++ f)%list)
  | other => other
  end.

(** The deletion loop over a list of branch names, counting from zero. *)
Inductive Deletions (p b : string) : list string -> Phase (Z * list string) :=
| Del_done : Deletions p b [] [] [] (Normal (0, []))
| Del_trunk bs n notes o :
    Deletions p b bs n notes o -> Deletions p b (b :: bs) n notes o
| Del_forced x bs d n notes o :
    x <> b -> succeeded d = true -> Deletions p b bs n notes o ->
    Deletions p b (x :: bs) (Invoke (FORCE_DELETE x) p d :: n) notes (tally 1 [] o)
| Del_forced_crash x bs d :
    x <> b -> unlaunchable d = true ->
    Deletions p b (x :: bs) [Invoke (FORCE_DELETE x) p d] [] (SystemExit 1)
| Del_safe x bs d s n notes o :
    x <> b -> failed d = true -> succeeded s = true ->
    Deletions p b bs n notes o ->
    Deletions p b (x :: bs)
              (Invoke (FORCE_DELETE x) p d :: Invoke (SAFE_DELETE x) p s :: n)
              notes (tally 1 [] o)
| Del_safe_crash x bs d s :
    x <> b -> failed d = true -> unlaunchable s = true ->
    Deletions p b (x :: bs)
              [Invoke (FORCE_DELETE x) p d; Invoke (SAFE_DELETE x) p s] []
              (SystemExit 1)
| Del_kept x bs d s n notes o :
    x <> b -> failed d = true -> failed s = true ->
    Deletions p b bs n notes o ->
    Deletions p b (x :: bs)
              (Invoke (FORCE_DELETE x) p d :: Invoke (SAFE_DELETE x) p s :: n)
              (MSG_DELETE_FAILED x :: notes) (tally 0 [x] o).

(** Step 7 *)
Inductive Pruning (p b : string) : Phase unit :=
| Prune_crash l :
    unlaunchable l = true ->
    Pruning p b [Invoke LIST_BRANCHES p l] [] (SystemExit 1)
| Prune_skipped l :
    unlaunchable l = false -> truthy (output l) = false ->
    Pruning p b [Invoke LIST_BRANCHES p l] [MSG_NO_LISTING] (Normal tt)
| Prune_done l out n notes count kept :
    output l = Some out -> PyStr.truthy out = true ->
    Deletions p b (branch_names out) n notes (Normal (count, kept)) ->
    Pruning p b (Invoke LIST_BRANCHES p l :: n) (notes ++ [MSG_DELETED count])%list
            (Normal tt)
| Prune_died l out n notes code :
    output l = Some out -> PyStr.truthy out = true ->
    Deletions p b (branch_names out) n notes (SystemExit code) ->
    Pruning p b (Invoke LIST_BRANCHES p l :: n) notes (SystemExit code).

(** One phase after another: the second one only happens when the first
    ends normally. *)
Definition seq_phase {A B : Type} (P : Phase A) (K : A -> Phase B) : Phase B :=
  fun n notes o =>
    exists n1 notes1 o1,
      P n1 notes1 o1 /\
      match o1 with
      | Normal a =>
          exists n2 notes2,
            n = (n1 ++ n2)%list /\ notes = (notes1 ++ notes2)%list /\
            K a n2 notes2 o
      | _ => n = n1 /\ notes = notes1 /\ stopped o1 o
      end.

(** The last statement of the script. *)
Definition Finished : Phase unit :=
  fun n notes o => n = [] /\ notes = [MSG_COMPLETE] /\ o = Normal tt.

(** The steps in a row, from each step to the end of the script; [b] is the
    trunk branch found by step 1 and [target] the reset target of step 4. *)
Definition From_prune (p b : string) : Phase unit :=
  seq_phase (Pruning p b) (fun _ => Finished).

Definition From_clean (p b : string) : Phase unit :=
  seq_phase (Cleaning p) (fun _ => From_prune p b).

Definition From_reset (p b target : string) : Phase unit :=
  seq_phase (Resetting p b target) (fun _ => From_clean p b).

Definition From_fetch (p b : string) : Phase unit :=
  seq_phase (Fetching p b) (fun target => From_reset p b target).

Definition From_switch (p b : string) : Phase unit :=
  seq_phase (Switching p b) (fun _ => From_fetch p b).

Definition From_stash (p b : string) : Phase unit :=
  seq_phase (Stashing p) (fun _ => From_switch p b).

(** All seven steps, for a path that passed the directory tests. *)
Definition Steps (p : string) : Phase unit :=
  seq_phase (Determined p) (fun b => From_stash p b).

(** [run_of w P o w']: from [w] the script made the invocations and printed
    the lines of a course allowed by [P], ending with [o] in [w']. *)
Definition run_of {A : Type} (w : World) (P : Phase A)
  : Outcome A -> World -> Prop :=
  fun o w' =>
    exists n notes,
      calls w' = (calls w ++ n)%list /\
      Answers (env w) n (env w') /\
      logs (console w) (console w') /\
      incl notes (console w') /\
      P n notes o.

(** The step of [reset_repository] an operation belongs to. *)
Definition stage_of (k : Kind) : nat :=
  match k with
  | ShowRef => 1
  | StashPush | StashDrop => 2
  | Checkout | ShowCurrent => 3
  | Fetch => 4
  | HardReset => 5
  | Clean => 6
  | ListBranches | ForceDelete | SafeDelete => 7
  | Unknown => 0
  end%nat.

Definition stage (i : Invocation) : nat := stage_of (kind i).

(** One run of [reset_repository] on [p] against the outside world [e]: the
    child processes it started, what it printed, whether it stopped at one
    of its bare [return]s or reached its last statement. *)
Definition trace_of (p : string) (e : Env) : list Invocation :=
  calls (snd (reset_repository p (start e))).

Definition printed (p : string) (e : Env) : list (Stream * string) :=
  console (snd (reset_repository p (start e))).

Definition gives_up (p : string) (e : Env) : Prop :=
  fst (reset_body p (start e)) = Returned.

Definition completes (p : string) (e : Env) : Prop :=
  fst (reset_body p (start e)) = Normal tt.

(** What the pruner did about one branch: the forced deletion, and the
    lenient one if it was tried. *)
Record Attempt : Type := {
  att_branch : string;
  att_forced : ProcResult;
  att_safe : option ProcResult
}.

Definition attempt_calls (p : string) (a : Attempt) : list Invocation :=
  Invoke (FORCE_DELETE (att_branch a)) p (att_forced a)
  :: match att_safe a with
     | Some s => [Invoke (SAFE_DELETE (att_branch a)) p s]
     | None => []
     end.

(** The lenient deletion is tried exactly when the forced one failed. *)
Definition lenient_only_after_failure (a : Attempt) : Prop :=
  match att_safe a with
  | None => succeeded (att_forced a) = true
  | Some s => failed (att_forced a) = true /\ unlaunchable s = false
  end.

Definition deleted (a : Attempt) : bool :=
  succeeded (att_forced a)
  || match att_safe a with Some s => succeeded s | None => false end.

Definition other_than (b : string) (names : list string) : list string :=
  filter (fun x => negb (String.eqb x b)) names.

(** What the invocations of a piece of the script say about the way it
    ended: a normal end or a bare [return] saw no fatal invocation, any
    other end saw one, and [sys.exit] is always called with 1. *)
Definition verdict {A : Type} (n : list Invocation) (o : Outcome A) : Prop :=
  match o with
  | Normal _ | Returned => Forall (fun i => fatal i = false) n
  | SystemExit c => c = 1 /\ Exists (fun i => fatal i = true) n
  | Raised _ => Exists (fun i => fatal i = true) n
  end.

(** The path [__main__] hands to [reset_repository]. *)
Definition target_path (arg : option string) : string :=
  os_path_abspath (match arg with Some q => q | None => "./test_project" end).

(** The three tests of [__main__] all pass. *)
Definition configured (arg : option string) : bool :=
  os_path_isfile GIT_EXECUTABLE
  && os_path_exists (target_path arg) && os_path_isdir (target_path arg).

(** The sentence of the specification about the terminal status, as it is
    written: the status is 0 exactly when the run reaches its end. *)
Definition status_tracks_completion (argv : list string) (e : Env) : Prop :=
  exit_status (fst (script argv (start e))) = 0 <->
  exists arg, argparse argv = Parsed arg /\ configured arg = true /\
              completes (target_path arg) e.


(** The command lines a run on trunk [b] may issue besides the deletion of
    other branches. *)
Definition WHITELIST (b : string) : list (list string) :=
  [SHOW_REF_MAIN; SHOW_REF_MASTER; STASH_PUSH; STASH_DROP; CHECKOUT b;
   SHOW_CURRENT; FETCH b; RESET_HARD ("origin/" ++ b); RESET_HARD "HEAD";
   CLEAN; LIST_BRANCHES].

(** [permitted p b i]: the child process [i] runs in the directory [p], and
    its command line is one of the fixed ones or deletes a branch other
    than [b]. *)
Definition permitted (p b : string) (i : Invocation) : Prop :=
  inv_cwd i = p /\
  (In (inv_argv i) (WHITELIST b) \/
   exists x, x <> b /\ (inv_argv i = FORCE_DELETE x \/ inv_argv i = SAFE_DELETE x)).

(** Invocations in the order of the steps they belong to. *)
Definition in_step_order (n : list Invocation) : Prop :=
  StronglySorted (fun i j => (stage i <= stage j)%nat) n.

(** A branch name as git accepts it for this purpose: not empty and without
    white space. *)
Fixpoint spaceless (s : string) : bool :=
  match s with
  | EmptyString => true
  | String c s' => negb (PyStr.is_space c) && spaceless s'
  end.

Definition plain_name (s : string) : Prop := s <> EmptyString /\ spaceless s = true.

(** The operations a run issues at most once; reference queries come in
    pairs and deletions once or twice per branch. *)
Definition single_shot (k : Kind) : bool :=
  match k with
  | ShowRef | ForceDelete | SafeDelete | Unknown => false
  | _ => true
  end.

(** No operation that is meant to happen once occurs twice among [n]. *)
Definition never_repeated (n : list Invocation) : Prop :=
  NoDup (filter single_shot (map kind n)).

(** ** Reasoning rules *)

Lemma logs_refl (c : list (Stream * string)) : logs c c.
Proof. exists []. now rewrite app_nil_r. Qed.

Lemma logs_trans (c1 c2 c3 : list (Stream * string)) :
  logs c1 c2 -> logs c2 c3 -> logs c1 c3.
Proof.
  intros [l1 L1] [l2 L2]. exists (l1 ++ l2)%list.
  rewrite L2, L1. now rewrite app_assoc.
Qed.

Lemma logs_app_r (c c' l : list (Stream * string)) :
  logs c c' -> logs c (c' ++ l).
Proof. intros H. eapply logs_trans; [exact H|]. now exists l. Qed.

Lemma logs_In (c c' : list (Stream * string)) (x : Stream * string) :
  logs c c' -> In x c -> In x c'.
Proof. intros [l L] H. rewrite L. apply in_or_app. now left. Qed.

Lemma logs_incl (c c' notes : list (Stream * string)) :
  logs c c' -> incl notes c -> incl notes c'.
Proof. intros L H x Hx. eapply logs_In; eauto. Qed.

Lemma Answers_app (e e1 e2 : Env) (n1 n2 : list Invocation) :
  Answers e n1 e1 -> Answers e1 n2 e2 -> Answers e (n1 ++ n2) e2.
Proof.
  induction 1; simpl; intros H2; [exact H2|].
  econstructor; eauto.
Qed.

Lemma command_value_cases (r : ProcResult) :
  (succeeded r = true /\ exists t, output r = Some t /\ command_value r = Normal (Some t)) \/
  (failed r = true /\ output r = None /\ command_value r = Normal None) \/
  (unlaunchable r = true /\ command_value r = SystemExit 1).
Proof.
  destruct r as [rc out err| |msg]; unfold failed; simpl.
  - destruct (rc =? 0); simpl; eauto 6.
  - auto.
  - auto.
Qed.

Lemma wp_weaken {A : Type} (m : M A) (Q Q' : Outcome A -> World -> Prop) w :
  wp m Q w -> (forall o w', Q o w' -> Q' o w') -> wp m Q' w.
Proof. unfold wp. auto. Qed.

Lemma wp_ret {A : Type} (a : A) (Q : Outcome A -> World -> Prop) w :
  Q (Normal a) w -> wp (ret a) Q w.
Proof. auto. Qed.

Lemma wp_return {A : Type} (Q : Outcome A -> World -> Prop) w :
  Q Returned w -> wp return_ Q w.
Proof. auto. Qed.

Lemma wp_bind {A B : Type} (m : M A) (k : A -> M B)
      (Q : Outcome B -> World -> Prop) w :
  wp m (after k Q) w -> wp (bind m k) Q w.
Proof.
  unfold wp, after, bind. destruct (m w) as [[a| |c|e] w1]; simpl; auto.
Qed.

Lemma wp_emit (to : Stream) (line : string) (Q : Outcome unit -> World -> Prop) w :
  Q (Normal tt) {| env := env w; calls := calls w;
                   console := (console w ++ [(to, line)])%list |} ->
  wp (emit to line) Q w.
Proof. unfold wp, emit. simpl. auto. Qed.

Lemma print_lines_run (lines : list string) (w : World) :
  exists w', for_each lines (fun line _ => print line) tt w = (Normal tt, w') /\
             env w' = env w /\ calls w' = calls w /\ logs (console w) (console w').
Proof.
  revert w. induction lines as [|l lines IH]; intros w.
  - exists w. simpl. unfold ret. auto using logs_refl.
  - simpl. unfold bind, print, emit.
    match goal with |- context [for_each lines _ tt ?w0] =>
      destruct (IH w0) as [w2 [E2 [Ee2 [Ec2 L2]]]] end.
    exists w2. split; [exact E2|]. simpl in *.
    repeat split; auto.
    eapply logs_trans; [|exact L2]. eexists; reflexivity.
Qed.

(** [run_command] starts exactly one child process and turns its answer
    into a value. *)
Lemma run_command_run (cmd0 : string) (args : list string) (cwd : string)
      (w : World) o w' :
  run_command (cmd0 :: args) cwd w = (o, w') ->
  exists r, spawn (env w) (resolved cmd0 args) cwd = (r, env w') /\
            o = command_value r /\
            calls w' = (calls w ++ [Invoke (resolved cmd0 args) cwd r])%list /\
            logs (console w) (console w').
Proof.
  unfold run_command, resolved, git, logs.
  set (cmd := if String.eqb cmd0 "git" then GIT_EXECUTABLE :: args else cmd0 :: args).
  unfold bind at 1, print at 1, emit at 1, try_except, bind at 1, subprocess_run.
  cbn [env calls console].
  destruct (spawn (env w) cmd cwd) as [r e'] eqn:Hs.
  destruct r as [rc out err| |msg]; cbn [andb].
  - destruct (rc =? 0) eqn:Hrc; cbn [negb].
    + unfold bind at 1. cbn [stdout].
      match goal with |- context [for_each ?ls ?f tt ?w0] =>
        destruct (print_lines_run ls w0) as [w2 [E2 [Ee2 [Gc [ls2 Gl]]]]] end.
      rewrite E2. unfold ret. intros H.
      inversion H; subst; clear H. exists (Completed rc out err).
      cbn [env calls console] in *. rewrite Ee2. split; [reflexivity|].
      split; [cbn [command_value]; now rewrite Hrc|].
      split; [exact Gc|].
      rewrite Gl. rewrite <- app_assoc. eauto.
    + unfold bind, eprint, emit, ret. cbn [env calls console]. intros H.
      inversion H; subst; clear H. exists (Completed rc out err).
      cbn [env calls console]. split; [reflexivity|].
      split; [cbn [command_value]; now rewrite Hrc|].
      split; [reflexivity|]. repeat rewrite <- app_assoc. eauto.
  - unfold bind, eprint, emit, sys_exit. cbn [env calls console]. intros H.
    inversion H; subst; clear H. exists NotFound.
    cbn [env calls console]. split; [reflexivity|]. split; [reflexivity|].
    split; [reflexivity|]. repeat rewrite <- app_assoc. eauto.
  - unfold bind, eprint, emit, ret. cbn [env calls console]. intros H.
    inversion H; subst; clear H. exists (Broken msg).
    cbn [env calls console]. split; [reflexivity|]. split; [reflexivity|].
    split; [reflexivity|]. repeat rewrite <- app_assoc. eauto.
Qed.

Lemma wp_run_command (cmd0 : string) (args : list string) (cwd : string)
      (Q : Outcome (option string) -> World -> Prop) w :
  (forall r w', spawn (env w) (resolved cmd0 args) cwd = (r, env w') ->
                calls w' = (calls w ++ [Invoke (resolved cmd0 args) cwd r])%list ->
                logs (console w) (console w') -> Q (command_value r) w') ->
  wp (run_command (cmd0 :: args) cwd) Q w.
Proof.
  intros H. unfold wp.
  destruct (run_command (cmd0 :: args) cwd w) as [o w'] eqn:E.
  apply run_command_run in E. destruct E as [r [Hs [Ho [Hc Hl]]]].
  subst o. simpl. now apply H.
Qed.

(** The unguarded [subprocess.run] of the stash step. *)
Lemma wp_subprocess_run (cmd : list string) (cwd : string)
      (Q : Outcome CompletedProcess -> World -> Prop) w :
  (forall r w', spawn (env w) cmd cwd = (r, env w') ->
                calls w' = (calls w ++ [Invoke cmd cwd r])%list ->
                logs (console w) (console w') ->
                Q match r with
                  | Completed rc out err =>
                      Normal {| returncode := rc; stdout := out; stderr := err |}
                  | _ => Raised (exception_of r)
                  end w') ->
  wp (subprocess_run cmd cwd false) Q w.
Proof.
  intros H. unfold wp, subprocess_run.
  destruct (spawn (env w) cmd cwd) as [r e'] eqn:Hs.
  specialize (H r {| env := e'; calls := (calls w ++ [Invoke cmd cwd r])%list;
                     console := console w |} eq_refl eq_refl (logs_refl _)).
  destruct r; simpl in *; exact H.
Qed.

(** Sequencing two pieces of the script sequences their phases. *)
Lemma run_of_bind {A B : Type} (m : M A) (k : A -> M B)
      (P : Phase A) (K : A -> Phase B) w :
  wp m (run_of w P) w ->
  (forall a w1, wp (k a) (run_of w1 (K a)) w1) ->
  wp (bind m k) (run_of w (seq_phase P K)) w.
Proof.
  intros Hm Hk. apply wp_bind. eapply wp_weaken; [exact Hm|].
  intros o1 w1 [n1 [notes1 [Hc [Ha [Hl [Hi HP]]]]]].
  unfold after. destruct o1 as [a| |c|e].
  - eapply wp_weaken; [apply Hk|].
    intros o w2 [n2 [notes2 [Hc2 [Ha2 [Hl2 [Hi2 HK]]]]]].
    exists (n1 ++ n2)%list, (notes1 ++ notes2)%list.
    split; [rewrite Hc2, Hc; now rewrite app_assoc|].
    split; [eapply Answers_app; eauto|].
    split; [eapply logs_trans; eauto|].
    split; [apply incl_app; [eapply logs_incl; eauto|auto]|].
    exists n1, notes1, (Normal a). split; [exact HP|]. eauto.
  - exists n1, notes1. repeat (split; auto).
    exists n1, notes1, Returned. simpl. auto.
  - exists n1, notes1. repeat (split; auto).
    exists n1, notes1, (SystemExit c). simpl. auto.
  - exists n1, notes1. repeat (split; auto).
    exists n1, notes1, (Raised e). simpl. auto.
Qed.

Lemma wp_git (args : list string) (cwd : string)
      (Q : Outcome (option string) -> World -> Prop) w :
  (forall r w', spawn (env w) (git args) cwd = (r, env w') ->
                calls w' = (calls w ++ [Invoke (git args) cwd r])%list ->
                logs (console w) (console w') -> Q (command_value r) w') ->
  wp (run_command ("git" :: args) cwd) Q w.
Proof. intros H. apply wp_run_command. exact H. Qed.

Lemma conj_swap (P Q : Prop) : Q -> P -> P /\ Q.
Proof. auto. Qed.

(** Symbolic execution of one statement. *)
Ltac wp_say :=
  lazymatch goal with
  | |- wp (bind (print _) _) _ _ => apply wp_bind, wp_emit; cbn [after]
  | |- wp (bind (eprint _) _) _ _ => apply wp_bind, wp_emit; cbn [after]
  | |- wp (print _) _ _ => apply wp_emit
  | |- wp (eprint _) _ _ => apply wp_emit
  end.

Ltac wp_cmd r w' :=
  lazymatch goal with
  | |- wp (bind (run_command _ _) _) _ _ => apply wp_bind, wp_git
  | |- wp (run_command _ _) _ _ => apply wp_git
  end;
  let Hs := fresh "Hs" in
  let Hc := fresh "Hc" in
  let Hl := fresh "Hl" in
  let t := fresh "t" in
  let Ho := fresh "Ho" in
  let Hv := fresh "Hv" in
  let Hr := fresh "Hr" in
  intros r w' Hs Hc Hl; cbn [env calls console] in Hs, Hc, Hl;
  destruct (command_value_cases r) as [[Hr [t [Ho Hv]]] | [[Hr [Ho Hv]] | [Hr Hv]]];
  rewrite Hv; clear Hv; cbn [after is_none is_not_none negb when].

Ltac calls_eq :=
  cbn [calls];
  repeat match goal with
         | H : calls ?w = _ |- context [calls ?w] => rewrite H
         end;
  rewrite <- ?app_assoc; cbn [app];
  first [reflexivity | symmetry; apply app_nil_r].

Ltac answers_tac :=
  cbn [env];
  repeat (eapply Answers_cons; [eassumption|]);
  apply Answers_nil.

Ltac logs_tac :=
  cbn [console];
  lazymatch goal with
  | |- logs ?c ?c => apply logs_refl
  | |- logs _ (_ ++ _) => apply logs_app_r; logs_tac
  | |- logs _ (console ?w) =>
      match goal with
      | H : logs _ (console w) |- _ => eapply logs_trans; [|exact H]; logs_tac
      end
  end.

Ltac in_tac :=
  cbn [console];
  lazymatch goal with
  | |- In _ (_ ++ _) =>
      apply in_or_app; first [right; left; reflexivity | left; in_tac]
  | |- In _ (console ?w) =>
      match goal with
      | H : logs _ (console w) |- _ => apply (logs_In _ _ _ H); in_tac
      end
  end.

Ltac incl_tac :=
  cbn [console];
  repeat (apply incl_cons; [in_tac|]);
  apply incl_nil_l.

Ltac close :=
  unfold run_of; cbn [env calls console];
  eexists; eexists;
  split; [calls_eq|];
  split; [answers_tac|];
  split; [logs_tac|];
  apply conj_swap; [solve [econstructor; eauto]|incl_tac].

(** ** The course of each step *)

Lemma get_main_branch_name_spec (p : string) (w : World) :
  wp (get_main_branch_name p) (run_of w (Resolution p)) w.
Proof.
  unfold get_main_branch_name.
  wp_cmd r1 w1.
  - wp_say. apply wp_ret. close.
  - wp_cmd r2 w2.
    + wp_say. apply wp_ret. close.
    + wp_say. apply wp_ret. close.
    + close.
  - close.
Qed.

Ltac close_with2 tac pre :=
  unfold run_of; cbn [env calls console];
  eexists; eexists;
  split; [calls_eq|];
  split; [answers_tac|];
  split; [logs_tac|];
  apply conj_swap; [solve [tac]|pre; incl_tac].

Ltac close_with tac := close_with2 tac idtac.

Lemma succeeded_launched (r : ProcResult) : succeeded r = true -> unlaunchable r = false.
Proof. destruct r; simpl; congruence. Qed.

Lemma failed_launched (r : ProcResult) : failed r = true -> unlaunchable r = false.
Proof. unfold failed. destruct (unlaunchable r); [rewrite andb_false_r|]; congruence. Qed.

Lemma failed_not_succeeded (r : ProcResult) : failed r = true -> succeeded r = false.
Proof. unfold failed. destruct (succeeded r); simpl; congruence. Qed.

Lemma determine_main_branch_spec (p : string) (w : World) :
  wp (determine_main_branch p) (run_of w (Determined p)) w.
Proof.
  unfold determine_main_branch. apply wp_bind.
  eapply wp_weaken; [apply get_main_branch_name_spec|].
  intros o w1 [n [notes [Hc [Ha [Hl [Hi HR]]]]]].
  inversion HR; subst; cbn [after truthy PyStr.truthy negb].
  - apply wp_ret. exists [Invoke SHOW_REF_MAIN p r1], [].
    repeat (split; auto). now constructor.
  - exists [Invoke SHOW_REF_MAIN p r1], [].
    repeat (split; auto). now constructor.
  - apply wp_ret. exists [Invoke SHOW_REF_MAIN p r1; Invoke SHOW_REF_MASTER p r2], [].
    repeat (split; auto). now constructor.
  - exists [Invoke SHOW_REF_MAIN p r1; Invoke SHOW_REF_MASTER p r2], [].
    repeat (split; auto). now constructor.
  - wp_say. apply wp_return.
    exists [Invoke SHOW_REF_MAIN p r1; Invoke SHOW_REF_MASTER p r2], ([] ++ [MSG_NO_TRUNK])%list.
    cbn [env calls console]. split; [exact Hc|]. split; [exact Ha|].
    split; [now apply logs_app_r|].
    split; [|now constructor].
    intros x [Hx|[]]. subst x. apply in_or_app. right. now left.
Qed.

Lemma stash_leftovers_spec (p : string) (w : World) :
  wp (stash_leftovers p) (run_of w (Stashing p)) w.
Proof.
  unfold stash_leftovers. wp_say.
  apply wp_bind, wp_subprocess_run. intros r w1 Hs Hc Hl.
  cbn [env calls console] in Hs, Hc, Hl.
  destruct r as [rc out err| |msg]; cbn [after returncode stdout stderr].
  - destruct (rc =? 0) eqn:Hrc;
      [destruct (PyStr.contains "No local changes" out) eqn:Hno|];
      cbn [andb negb].
    + apply Z.eqb_eq in Hrc. subst rc. wp_say.
      close_with ltac:(now apply Stash_nothing).
    + assert (Hcr : stash_created (Completed rc out err) = true)
        by (simpl; now rewrite Hrc, Hno).
      wp_say. wp_cmd d w2.
      * apply wp_ret. close.
      * wp_say. close.
      * close.
    + apply Z.eqb_neq in Hrc. wp_say.
      close_with ltac:(now apply Stash_failed).
  - close_with ltac:(now apply (Stash_raised p NotFound)).
  - close_with ltac:(now apply (Stash_raised p (Broken msg))).
Qed.

Lemma checkout_main_branch_spec (p b : string) (w : World) :
  wp (checkout_main_branch p b) (run_of w (Switching p b)) w.
Proof.
  unfold checkout_main_branch. wp_say. wp_cmd c w1.
  - apply wp_bind, wp_ret. cbn [after].
    wp_cmd v w2.
    + destruct (differs (Some t0) b) eqn:Hd; cbn [when].
      * wp_say. apply wp_return.
        pose proof (succeeded_launched _ Hr0).
        close_with2 ltac:(apply Switch_mismatch; auto; now rewrite Ho0)
                    ltac:(rewrite Ho0).
      * apply wp_ret.
        assert (output v = Some b).
        { simpl in Hd. apply negb_false_iff in Hd.
          apply String.eqb_eq in Hd. now subst. }
        close.
    + cbn [differs when]. wp_say. apply wp_return.
      pose proof (failed_launched _ Hr0).
      close_with2 ltac:(apply Switch_mismatch; auto; now rewrite Ho0)
                  ltac:(rewrite Ho0).
    + close.
  - apply wp_bind. wp_say. apply wp_return. close.
  - close.
Qed.

Lemma fetch_latest_spec (p b : string) (w : World) :
  wp (fetch_latest p b) (run_of w (Fetching p b)) w.
Proof.
  unfold fetch_latest. wp_say. wp_cmd f w1.
  - wp_say. apply wp_ret. close.
  - wp_say. apply wp_ret. close.
  - close.
Qed.

Lemma force_reset_spec (p b target : string) (w : World) :
  wp (force_reset p b target) (run_of w (Resetting p b target)) w.
Proof.
  unfold force_reset. wp_say. wp_cmd r w1.
  - apply wp_ret. close.
  - wp_say. apply wp_return. close.
  - close.
Qed.

Lemma clean_untracked_spec (p : string) (w : World) :
  wp (clean_untracked p) (run_of w (Cleaning p)) w.
Proof.
  unfold clean_untracked. wp_say. wp_cmd r w1.
  - apply wp_ret. close.
  - wp_say. close.
  - close.
Qed.

(** Helpers for extending a course at its front or its end. *)
Lemma run_of_cons {A : Type} (P' P : Phase A) (w w1 w' : World)
      (argv : list string) (cwd : string) (r : ProcResult) (o' o : Outcome A) :
  spawn (env w) argv cwd = (r, env w1) ->
  calls w1 = (calls w ++ [Invoke argv cwd r])%list ->
  logs (console w) (console w1) ->
  run_of w1 P' o' w' ->
  (forall n notes, P' n notes o' -> P (Invoke argv cwd r :: n) notes o) ->
  run_of w P o w'.
Proof.
  intros Hs Hc Hl [n [notes [Hc' [Ha [Hl' [Hi HP]]]]]] HPP.
  exists (Invoke argv cwd r :: n), notes.
  split; [rewrite Hc', Hc, <- app_assoc; reflexivity|].
  split; [econstructor; eauto|].
  split; [eapply logs_trans; eauto|].
  split; auto.
Qed.

Lemma run_of_note {A : Type} (P' P : Phase A) (w0 w w' : World)
      (m : Stream * string) (o' o : Outcome A) :
  In m (console w) ->
  env w0 = env w -> calls w0 = calls w -> logs (console w0) (console w) ->
  run_of w P' o' w' ->
  (forall n notes, P' n notes o' -> P n (m :: notes) o) ->
  run_of w0 P o w'.
Proof.
  intros Hm He Hc Hl [n [notes [Hc' [Ha [Hl' [Hi HP]]]]]] HPP.
  exists n, (m :: notes).
  split; [now rewrite Hc', Hc|].
  split; [now rewrite He|].
  split; [eapply logs_trans; eauto|].
  split; auto.
  apply incl_cons; auto. eapply logs_In; eauto.
Qed.

Lemma run_of_quiet {A : Type} (P : Phase A) (w0 w w' : World) (o : Outcome A) :
  env w0 = env w -> calls w0 = calls w -> logs (console w0) (console w) ->
  run_of w P o w' -> run_of w0 P o w'.
Proof.
  intros He Hc Hl [n [notes [Hc' [Ha [Hl' [Hi HP]]]]]].
  exists n, notes.
  split; [now rewrite Hc', Hc|].
  split; [now rewrite He|].
  split; [eapply logs_trans; eauto|]. auto.
Qed.

Lemma tally_tally (k1 k2 : Z) (f1 f2 : list string) (o : Outcome (Z * list string)) :
  tally k1 f1 (tally k2 f2 o) = tally (k1 + k2) (f1 ++ f2) o.
Proof.
  destruct o as [[c f]| | |]; simpl; auto.
  now rewrite Z.add_assoc, app_assoc.
Qed.

Lemma Deletions_outcome (p b : string) bs n notes o :
  Deletions p b bs n notes o ->
  (exists c f, o = Normal (c, f)) \/ o = SystemExit 1.
Proof.
  induction 1; auto.
  - left. eauto.
  - destruct IHDeletions as [[c [f ->]]| ->]; simpl; eauto.
  - destruct IHDeletions as [[c [f ->]]| ->]; simpl; eauto.
  - destruct IHDeletions as [[c [f ->]]| ->]; simpl; eauto.
Qed.

Lemma run_of_cons2 {A : Type} (P' P : Phase A) (w w1 w2 w' : World)
      (argv1 argv2 : list string) (cwd : string) (r1 r2 : ProcResult)
      (o' o : Outcome A) :
  spawn (env w) argv1 cwd = (r1, env w1) ->
  calls w1 = (calls w ++ [Invoke argv1 cwd r1])%list ->
  logs (console w) (console w1) ->
  spawn (env w1) argv2 cwd = (r2, env w2) ->
  calls w2 = (calls w1 ++ [Invoke argv2 cwd r2])%list ->
  logs (console w1) (console w2) ->
  run_of w2 P' o' w' ->
  (forall n notes, P' n notes o' ->
                   P (Invoke argv1 cwd r1 :: Invoke argv2 cwd r2 :: n) notes o) ->
  run_of w P o w'.
Proof.
  intros Hs1 Hc1 Hl1 Hs2 Hc2 Hl2 Hrun HPP.
  apply (run_of_cons (fun n notes _ => P (Invoke argv1 cwd r1 :: n) notes o)
                     P w w1 w' argv1 cwd r1 o' o Hs1 Hc1 Hl1).
  - apply (run_of_cons P' _ w1 w2 w' argv2 cwd r2 o' o' Hs2 Hc2 Hl2 Hrun).
    intros n notes HP. now apply HPP.
  - auto.
Qed.

(** The deletion loop, started with any tally. *)
Lemma delete_loop_spec (p b : string) (bs : list string) :
  forall (dc : Z) (fd : list string) (w : World),
    wp (for_each bs (delete_branch p b) (dc, fd))
       (fun o w' => exists o0, run_of w (Deletions p b bs) o0 w' /\
                               o = tally dc fd o0) w.
Proof.
  induction bs as [|x bs IH]; intros dc fd w.
  - simpl. apply wp_ret. exists (Normal (0, [])). split.
    + close.
    + simpl. now rewrite Z.add_0_r, app_nil_r.
  - cbn [for_each]. apply wp_bind. unfold delete_branch.
    destruct (String.eqb_spec x b) as [->|Hx]; cbn [negb].
    + apply wp_ret. cbn [after]. eapply wp_weaken; [apply IH|].
      intros o w' [o0 [[n [notes [Hc [Ha [Hl [Hi HD]]]]]] Hres]].
      exists o0. split; [|exact Hres].
      exists n, notes. repeat (split; auto). now constructor.
    + wp_say. wp_cmd d w1.
      * apply wp_ret. cbn [after]. eapply wp_weaken; [apply IH|].
        intros o w' [o0 [Hrun Hres]].
        exists (tally 1 [] o0). split.
        -- eapply run_of_cons; [exact Hs|exact Hc|logs_tac|exact Hrun|].
           intros n notes HD. now apply Del_forced.
        -- rewrite tally_tally, app_nil_r. exact Hres.
      * wp_say. wp_cmd s w2.
        -- apply wp_ret. cbn [after]. eapply wp_weaken; [apply IH|].
           intros o w' [o0 [Hrun Hres]].
           exists (tally 1 [] o0). split.
           ++ eapply run_of_cons2;
                [exact Hs|exact Hc|logs_tac|exact Hs0|exact Hc0|logs_tac|exact Hrun|].
              intros n notes HD. now apply Del_safe.
           ++ rewrite tally_tally, app_nil_r. exact Hres.
        -- wp_say. apply wp_ret. cbn [after]. eapply wp_weaken; [apply IH|].
           intros o w' [o0 [Hrun Hres]].
           exists (tally 0 [x] o0). split.
           ++ eapply run_of_cons2;
                [exact Hs|exact Hc|logs_tac|exact Hs0|exact Hc0|logs_tac| |].
              ** eapply (run_of_note (Deletions p b bs)
                           (fun n notes _ => exists notes',
                              notes = MSG_DELETE_FAILED x :: notes' /\
                              Deletions p b bs n notes' o0)
                           w2 _ w' (MSG_DELETE_FAILED x) o0 o0);
                   [| | | |exact Hrun|].
                 --- cbn [console]. apply in_or_app. right. now left.
                 --- reflexivity.
                 --- reflexivity.
                 --- cbn [console]. apply logs_app_r, logs_refl.
                 --- intros n notes HD. eauto.
              ** intros n notes [notes' [-> HD]]. now apply Del_kept.
           ++ rewrite tally_tally, Z.add_0_r. exact Hres.
        -- exists (SystemExit 1). split; [|reflexivity].
           close_with ltac:(now apply Del_safe_crash).
      * exists (SystemExit 1). split; [|reflexivity].
        close_with ltac:(now apply Del_forced_crash).
Qed.

Lemma delete_other_branches_spec (p b : string) (w : World) :
  wp (delete_other_branches p b) (run_of w (Pruning p b)) w.
Proof.
  unfold delete_other_branches. wp_say. wp_cmd l w1.
  - cbn [truthy]. destruct (PyStr.truthy t) eqn:Ht.
    + apply wp_bind. eapply wp_weaken; [apply delete_loop_spec|].
      intros o w2 [o0 [[n [notes [Hc2 [Ha2 [Hl2 [Hi2 HD]]]]]] Hres]].
      assert (Hcalls : calls w2 = (calls w ++ Invoke LIST_BRANCHES p l :: n)%list)
        by (rewrite Hc2, Hc, <- app_assoc; reflexivity).
      assert (Hans : Answers (env w) (Invoke LIST_BRANCHES p l :: n) (env w2))
        by (econstructor; eauto).
      assert (Hlogs : logs (console w) (console w2))
        by (eapply logs_trans; [|exact Hl2]; logs_tac).
      destruct (Deletions_outcome _ _ _ _ _ _ HD) as [[c [f ->]]| ->];
        simpl in Hres; subst o; cbn [after].
      * wp_say.
        assert (Hfin : forall tail,
                   run_of w (Pruning p b) (Normal tt)
                     {| env := env w2; calls := calls w2;
                        console := ((console w2 ++ [MSG_DELETED c]) ++ tail)%list |}).
        { intros tail. exists (Invoke LIST_BRANCHES p l :: n), (notes ++ [MSG_DELETED c])%list.
          cbn [env calls console].
          split; [exact Hcalls|]. split; [exact Hans|].
          split; [now apply logs_app_r, logs_app_r|].
          split; [|eapply Prune_done; eauto].
          apply incl_app.
          - intros m Hm. apply in_or_app. left. apply in_or_app. left. auto.
          - intros m [<-|[]]. apply in_or_app. left. apply in_or_app. right. now left. }
        destruct f as [|f0 f]; cbn [when].
        -- apply wp_ret. specialize (Hfin []). now rewrite app_nil_r in Hfin.
        -- wp_say. apply Hfin.
      * exists (Invoke LIST_BRANCHES p l :: n), notes.
        split; [exact Hcalls|]. split; [exact Hans|]. split; [exact Hlogs|].
        split; [exact Hi2|]. eapply Prune_died; eauto.
    + wp_say. pose proof (succeeded_launched _ Hr).
      close_with ltac:(apply Prune_skipped; auto; rewrite Ho; exact Ht).
  - cbn [truthy]. wp_say. pose proof (failed_launched _ Hr).
    close_with ltac:(apply Prune_skipped; auto; now rewrite Ho).
  - close.
Qed.

Lemma repository_test (p : string) :
  negb (os_path_isdir p) || negb (os_path_isdir (os_path_join p ".git"))
  = negb (is_repository p).
Proof. unfold is_repository. now rewrite negb_andb. Qed.

(** The whole of [reset_repository]'s statements. *)
Lemma reset_body_spec (p : string) (w : World) :
  wp (reset_body p)
     (fun o w' =>
        if is_repository p then run_of w (Steps p) o w'
        else o = Returned /\ env w' = env w /\ calls w' = calls w /\
             In (MSG_NOT_REPO p) (console w'))
     w.
Proof.
  unfold reset_body. cbv zeta. rewrite repository_test.
  destruct (is_repository p); cbn [negb when].
  - apply wp_bind, wp_ret. cbn [after]. wp_say.
    match goal with
    | |- wp _ _ ?w0 => apply (wp_weaken _ (run_of w0 (Steps p)))
    end.
    2:{ intros o w' H. eapply run_of_quiet; [| | |exact H]; cbn [env calls console].
        - reflexivity.
        - reflexivity.
        - apply logs_app_r, logs_refl. }
    unfold Steps, From_stash, From_switch, From_fetch, From_reset, From_clean,
      From_prune.
    apply run_of_bind; [apply determine_main_branch_spec|]. intros b w1.
    apply run_of_bind; [apply stash_leftovers_spec|]. intros _ w2.
    apply run_of_bind; [apply checkout_main_branch_spec|]. intros _ w3.
    apply run_of_bind; [apply fetch_latest_spec|]. intros target w4.
    apply run_of_bind; [apply force_reset_spec|]. intros _ w5.
    apply run_of_bind; [apply clean_untracked_spec|]. intros _ w6.
    apply run_of_bind; [apply delete_other_branches_spec|]. intros _ w7.
    wp_say. exists [], [MSG_COMPLETE]. cbn [env calls console].
    split; [now rewrite app_nil_r|]. split; [constructor|].
    split; [apply logs_app_r, logs_refl|].
    split; [|unfold Finished; auto].
    intros m [<-|[]]. apply in_or_app. right. now left.
  - apply wp_bind, wp_bind. wp_say. apply wp_return. cbn [after env calls console].
    repeat (split; auto). apply in_or_app. right. now left.
Qed.

(** ** Facts about whole runs *)

Lemma reset_repository_body (p : string) (w : World) :
  reset_repository p w =
  (match fst (reset_body p w) with Returned => Normal tt | o => o end,
   snd (reset_body p w)).
Proof.
  unfold reset_repository, def_.
  destruct (reset_body p w) as [[a| |c|x] w']; reflexivity.
Qed.

(** The anatomy of a run on a repository. *)
Lemma run_anatomy (p : string) (e : Env) :
  is_repository p = true ->
  exists notes,
    Steps p (trace_of p e) notes (fst (reset_body p (start e))) /\
    Answers e (trace_of p e) (env (snd (reset_body p (start e)))) /\
    incl notes (printed p e).
Proof.
  intros Hrepo. unfold trace_of, printed. rewrite reset_repository_body.
  cbn [snd].
  pose proof (reset_body_spec p (start e)) as H. unfold wp in H.
  rewrite Hrepo in H. destruct H as [n [notes [Hc [Ha [Hl [Hi HS]]]]]].
  cbn [start calls env app] in Hc, Ha. rewrite Hc.
  exists notes. auto.
Qed.

Lemma run_not_repository (p : string) (e : Env) :
  is_repository p = false ->
  gives_up p e /\ trace_of p e = [] /\ In (MSG_NOT_REPO p) (printed p e).
Proof.
  intros Hrepo. unfold gives_up, trace_of, printed. rewrite reset_repository_body.
  cbn [snd].
  pose proof (reset_body_spec p (start e)) as H. unfold wp in H.
  rewrite Hrepo in H. destruct H as [Ho [He [Hc Hi]]]. auto.
Qed.

(** Every invocation of a step belongs to that step. *)
Ltac stage_inv := intros H; inversion H; subst; repeat constructor.

Lemma Resolution_stage p n x o :
  Resolution p n x o -> Forall (fun i => stage i = 1%nat) n.
Proof. stage_inv. Qed.

Lemma Determined_stage p n x o :
  Determined p n x o -> Forall (fun i => stage i = 1%nat) n.
Proof. intros H; inversion H; subst; eapply Resolution_stage; eauto. Qed.

Lemma Stashing_stage p n x o :
  Stashing p n x o -> Forall (fun i => stage i = 2%nat) n.
Proof. stage_inv. Qed.

Lemma Switching_stage p b n x o :
  Switching p b n x o -> Forall (fun i => stage i = 3%nat) n.
Proof. stage_inv. Qed.

Lemma Fetching_stage p b n x o :
  Fetching p b n x o -> Forall (fun i => stage i = 4%nat) n.
Proof. stage_inv. Qed.

Lemma Resetting_stage p b t n x o :
  Resetting p b t n x o -> Forall (fun i => stage i = 5%nat) n.
Proof. stage_inv. Qed.

Lemma Cleaning_stage p n x o :
  Cleaning p n x o -> Forall (fun i => stage i = 6%nat) n.
Proof. stage_inv. Qed.

Lemma Deletions_stage p b bs n x o :
  Deletions p b bs n x o -> Forall (fun i => stage i = 7%nat) n.
Proof. induction 1; repeat constructor; auto. Qed.

Lemma Pruning_stage p b n x o :
  Pruning p b n x o -> Forall (fun i => stage i = 7%nat) n.
Proof.
  intros H; inversion H; subst; repeat constructor;
    eapply Deletions_stage; eauto.
Qed.

Lemma seq_phase_Forall {A B : Type} (P : Phase A) (K : A -> Phase B)
      (phi : Invocation -> Prop) n x o :
  (forall n1 x1 o1, P n1 x1 o1 -> Forall phi n1) ->
  (forall a n2 x2 o2, K a n2 x2 o2 -> Forall phi n2) ->
  seq_phase P K n x o -> Forall phi n.
Proof.
  intros HP HK [n1 [x1 [o1 [H1 H]]]].
  destruct o1 as [a| |c|e].
  - destruct H as [n2 [x2 [-> [-> H2]]]]. apply Forall_app. eauto.
  - destruct H as [-> _]. eauto.
  - destruct H as [-> _]. eauto.
  - destruct H as [-> _]. eauto.
Qed.

(** A run that contains an invocation of stage [k] or later got past every
    phase whose invocations are all earlier than [k]. *)
Lemma seq_phase_split {A B : Type} (P : Phase A) (K : A -> Phase B)
      (k : nat) n x o :
  (forall n1 x1 o1, P n1 x1 o1 -> Forall (fun i => (stage i < k)%nat) n1) ->
  (exists i, In i n /\ (k <= stage i)%nat) ->
  seq_phase P K n x o ->
  exists a n1 x1 n2 x2,
    P n1 x1 (Normal a) /\ n = (n1 ++ n2)%list /\ x = (x1 ++ x2)%list /\
    K a n2 x2 o /\ (exists i, In i n2 /\ (k <= stage i)%nat).
Proof.
  intros HP [i [Hi Hk]] [n1 [x1 [o1 [H1 H]]]].
  assert (Hearly : ~ In i n1).
  { intros Hin. specialize (HP _ _ _ H1). rewrite Forall_forall in HP.
    specialize (HP _ Hin). lia. }
  destruct o1 as [a| |c|e].
  - destruct H as [n2 [x2 [-> [-> H2]]]].
    exists a, n1, x1, n2, x2. repeat (split; auto).
    exists i. split; auto. apply in_app_or in Hi. tauto.
  - destruct H as [-> _]. contradiction.
  - destruct H as [-> _]. contradiction.
  - destruct H as [-> _]. contradiction.
Qed.

Lemma Forall_stage_lt (j k : nat) (n : list Invocation) :
  (j < k)%nat -> Forall (fun i => stage i = j) n ->
  Forall (fun i => (stage i < k)%nat) n.
Proof. intros Hjk. apply Forall_impl. intros i ->. exact Hjk. Qed.

Lemma Forall_stage_ge (j k : nat) (n : list Invocation) :
  (k <= j)%nat -> Forall (fun i => stage i = j) n ->
  Forall (fun i => (k <= stage i)%nat) n.
Proof. intros Hjk. apply Forall_impl. intros i ->. exact Hjk. Qed.

Lemma Finished_nil n x o : Finished n x o -> n = [].
Proof. intros [-> _]. reflexivity. Qed.

Lemma From_prune_stage p b n x o :
  From_prune p b n x o -> Forall (fun i => stage i = 7%nat) n.
Proof.
  apply seq_phase_Forall.
  - intros. eapply Pruning_stage; eauto.
  - intros a n2 x2 o2 H. apply Finished_nil in H. subst. constructor.
Qed.

Lemma From_clean_stage p b n x o :
  From_clean p b n x o -> Forall (fun i => (6 <= stage i)%nat) n.
Proof.
  apply seq_phase_Forall.
  - intros. eapply Forall_stage_ge; [|eapply Cleaning_stage; eauto]. lia.
  - intros. eapply Forall_stage_ge; [|eapply From_prune_stage; eauto]. lia.
Qed.

Lemma From_reset_stage p b t n x o :
  From_reset p b t n x o -> Forall (fun i => (5 <= stage i)%nat) n.
Proof.
  apply seq_phase_Forall.
  - intros. eapply Forall_stage_ge; [|eapply Resetting_stage; eauto]. lia.
  - intros. eapply Forall_impl; [|eapply From_clean_stage; eauto].
    simpl. intros. lia.
Qed.

Lemma From_fetch_stage p b n x o :
  From_fetch p b n x o -> Forall (fun i => (4 <= stage i)%nat) n.
Proof.
  apply seq_phase_Forall.
  - intros. eapply Forall_stage_ge; [|eapply Fetching_stage; eauto]. lia.
  - intros. eapply Forall_impl; [|eapply From_reset_stage; eauto].
    simpl. intros. lia.
Qed.

Lemma From_switch_stage p b n x o :
  From_switch p b n x o -> Forall (fun i => (3 <= stage i)%nat) n.
Proof.
  apply seq_phase_Forall.
  - intros. eapply Forall_stage_ge; [|eapply Switching_stage; eauto]. lia.
  - intros. eapply Forall_impl; [|eapply From_fetch_stage; eauto].
    simpl. intros. lia.
Qed.

Lemma reach_next {A : Type} (P : Phase A) (K : A -> Phase unit)
      (j k : nat) pre rest xr o :
  (forall n1 x1 o1, P n1 x1 o1 -> Forall (fun i => stage i = j) n1) ->
  (j < k)%nat ->
  Forall (fun i => (stage i < k)%nat) pre ->
  (exists i, In i (pre ++ rest) /\ (k <= stage i)%nat) ->
  seq_phase P K rest xr o ->
  exists a n1 x1 n2 x2,
    P n1 x1 (Normal a) /\ rest = (n1 ++ n2)%list /\ xr = (x1 ++ x2)%list /\
    K a n2 x2 o /\
    Forall (fun i => (stage i < k)%nat) (pre ++ n1) /\
    (exists i, In i ((pre ++ n1) ++ n2) /\ (k <= stage i)%nat).
Proof.
  intros HP Hjk Hpre Hi HS.
  assert (Hi2 : exists i, In i rest /\ (k <= stage i)%nat).
  { destruct Hi as [i [Hi Hk]]. exists i. split; auto.
    apply in_app_or in Hi. destruct Hi as [Hi|Hi]; auto.
    rewrite Forall_forall in Hpre. specialize (Hpre _ Hi). lia. }
  destruct (seq_phase_split P K k rest xr o
              (fun n1 x1 o1 H => Forall_stage_lt j k n1 Hjk (HP n1 x1 o1 H))
              Hi2 HS)
    as [a [n1 [x1 [n2 [x2 [H1 [-> [-> [H2 Hi3]]]]]]]]].
  exists a, n1, x1, n2, x2. repeat (split; auto).
  - apply Forall_app. split; auto.
    eapply Forall_stage_lt; [exact Hjk|eapply HP; eauto].
  - rewrite <- app_assoc. exact Hi.
Qed.

Lemma Forall_stage_weaken (j k : nat) (n : list Invocation) :
  (j <= k)%nat -> Forall (fun i => (stage i < j)%nat) n ->
  Forall (fun i => (stage i < k)%nat) n.
Proof. intros Hjk. apply Forall_impl. intros i Hi. lia. Qed.

Lemma Determined_trunk p n x b :
  Determined p n x (Normal b) -> b = "main" \/ b = "master".
Proof.
  intros H. inversion H; subst.
  match goal with HR : Resolution _ _ _ _ |- _ => inversion HR; auto end.
Qed.

(** Reaching a step: the run splits into the invocations of the earlier
    steps and the course from that step on; [b] is the trunk branch. *)
Lemma reach_stash p n x o :
  Steps p n x o -> (exists i, In i n /\ (2 <= stage i)%nat) ->
  exists b pre rest xp xr,
    n = (pre ++ rest)%list /\ x = (xp ++ xr)%list /\
    Forall (fun i => (stage i < 2)%nat) pre /\ From_stash p b rest xr o /\
    (b = "main" \/ b = "master").
Proof.
  intros HS Hi.
  destruct (reach_next (Determined p) (From_stash p) 1 2 [] n x o
              (Determined_stage p) ltac:(lia) (Forall_nil _) Hi HS)
    as [b [n1 [x1 [r1 [y1 [HD [-> [-> [H1 [Hp1 Hi1]]]]]]]]]].
  exists b, n1, r1, x1, y1. repeat (split; auto).
  eapply Determined_trunk; eauto.
Qed.

Lemma exists_stage_weaken (j k : nat) (n : list Invocation) :
  (j <= k)%nat -> (exists i, In i n /\ (k <= stage i)%nat) ->
  exists i, In i n /\ (j <= stage i)%nat.
Proof. intros Hjk [i [Hi Hk]]. exists i. split; auto. lia. Qed.

Lemma reach_switch p n x o :
  Steps p n x o -> (exists i, In i n /\ (3 <= stage i)%nat) ->
  exists b pre rest xp xr,
    n = (pre ++ rest)%list /\ x = (xp ++ xr)%list /\
    Forall (fun i => (stage i < 3)%nat) pre /\ From_switch p b rest xr o /\
    (b = "main" \/ b = "master").
Proof.
  intros HS Hi.
  destruct (reach_stash p n x o HS (exists_stage_weaken 2 3 n ltac:(lia) Hi))
    as [b [pre [rest [xp [xr [-> [-> [Hpre [H2 Hb]]]]]]]]].
  destruct (reach_next (Stashing p) (fun _ => From_switch p b) 2 3 pre rest xr o
              (Stashing_stage p) ltac:(lia)
              (Forall_stage_weaken 2 3 pre ltac:(lia) Hpre) Hi H2)
    as [[] [n2 [x2 [r2 [y2 [_ [-> [-> [H3 [Hp2 _]]]]]]]]]].
  exists b, (pre ++ n2)%list, r2, (xp ++ x2)%list, y2.
  rewrite <- !app_assoc. repeat (split; auto).
Qed.

Lemma reach_fetch p n x o :
  Steps p n x o -> (exists i, In i n /\ (4 <= stage i)%nat) ->
  exists b pre rest xp xr,
    n = (pre ++ rest)%list /\ x = (xp ++ xr)%list /\
    Forall (fun i => (stage i < 4)%nat) pre /\ From_fetch p b rest xr o /\
    (b = "main" \/ b = "master").
Proof.
  intros HS Hi.
  destruct (reach_switch p n x o HS (exists_stage_weaken 3 4 n ltac:(lia) Hi))
    as [b [pre [rest [xp [xr [-> [-> [Hpre [H3 Hb]]]]]]]]].
  destruct (reach_next (Switching p b) (fun _ => From_fetch p b) 3 4 pre rest xr o
              (Switching_stage p b) ltac:(lia)
              (Forall_stage_weaken 3 4 pre ltac:(lia) Hpre) Hi H3)
    as [[] [n3 [x3 [r3 [y3 [_ [-> [-> [H4 [Hp3 _]]]]]]]]]].
  exists b, (pre ++ n3)%list, r3, (xp ++ x3)%list, y3.
  rewrite <- !app_assoc. repeat (split; auto).
Qed.

Lemma reach_reset p n x o :
  Steps p n x o -> (exists i, In i n /\ (5 <= stage i)%nat) ->
  exists b target pre rest xp xr,
    n = (pre ++ rest)%list /\ x = (xp ++ xr)%list /\
    Forall (fun i => (stage i < 5)%nat) pre /\ From_reset p b target rest xr o.
Proof.
  intros HS Hi.
  destruct (reach_fetch p n x o HS (exists_stage_weaken 4 5 n ltac:(lia) Hi))
    as [b [pre [rest [xp [xr [-> [-> [Hpre [H4 _]]]]]]]]].
  destruct (reach_next (Fetching p b) (From_reset p b) 4 5 pre rest xr o
              (Fetching_stage p b) ltac:(lia)
              (Forall_stage_weaken 4 5 pre ltac:(lia) Hpre) Hi H4)
    as [t [n4 [x4 [r4 [y4 [_ [-> [-> [H5 [Hp4 _]]]]]]]]]].
  exists b, t, (pre ++ n4)%list, r4, (xp ++ x4)%list, y4.
  rewrite <- !app_assoc. repeat (split; auto).
Qed.

Lemma reach_prune p n x o :
  Steps p n x o -> (exists i, In i n /\ (7 <= stage i)%nat) ->
  exists b pre rest xp xr,
    n = (pre ++ rest)%list /\ x = (xp ++ xr)%list /\
    Forall (fun i => (stage i < 7)%nat) pre /\ From_prune p b rest xr o.
Proof.
  intros HS Hi.
  destruct (reach_reset p n x o HS (exists_stage_weaken 5 7 n ltac:(lia) Hi))
    as [b [t [pre [rest [xp [xr [-> [-> [Hpre H5]]]]]]]]].
  destruct (reach_next (Resetting p b t) (fun _ => From_clean p b) 5 7 pre rest xr o
              (Resetting_stage p b t) ltac:(lia)
              (Forall_stage_weaken 5 7 pre ltac:(lia) Hpre) Hi H5)
    as [[] [n5 [x5 [r5 [y5 [_ [-> [-> [H6 [Hp5 Hi5]]]]]]]]]].
  destruct (reach_next (Cleaning p) (fun _ => From_prune p b) 6 7 _ r5 y5 o
              (Cleaning_stage p) ltac:(lia) Hp5 Hi5 H6)
    as [[] [n6 [x6 [r6 [y6 [_ [-> [-> [H7 [Hp6 _]]]]]]]]]].
  exists b, ((pre ++ n5) ++ n6)%list, r6, (xp ++ x5 ++ x6)%list, y6.
  rewrite <- !app_assoc in *. repeat (split; auto).
Qed.

(** The first invocation of the course from a step on. *)
Lemma From_reset_head p b t n x o :
  From_reset p b t n x o ->
  exists r post, n = Invoke (RESET_HARD t) p r :: post.
Proof.
  intros [n5 [x5 [o5 [HR H]]]].
  inversion HR; subst;
    try (destruct H as [n6 [x6 [-> _]]]; simpl; eauto);
    destruct H as [-> _]; eauto.
Qed.



Lemma stage_kind (i : Invocation) (k : Kind) : kind i = k -> stage i = stage_of k.
Proof. unfold stage. now intros ->. Qed.

Lemma not_before (i : Invocation) (k : nat) (pre : list Invocation) :
  Forall (fun j => (stage j < k)%nat) pre -> (k <= stage i)%nat -> ~ In i pre.
Proof.
  intros Hpre Hk Hin. rewrite Forall_forall in Hpre.
  specialize (Hpre _ Hin). lia.
Qed.

Lemma not_after (i : Invocation) (k : nat) (post : list Invocation) :
  Forall (fun j => (k <= stage j)%nat) post -> (stage i < k)%nat -> ~ In i post.
Proof.
  intros Hpost Hk Hin. rewrite Forall_forall in Hpost.
  specialize (Hpost _ Hin). lia.
Qed.

(** ** The claims *)

(** C3.  When the hard reset of a run fails, that invocation is the last one
    of the run: the run stops at the bare [return] that follows it, and no
    clean, branch listing or branch deletion is ever issued in that run. *)
Theorem hard_reset_failure_is_final (p : string) (e : Env) (i : Invocation) :
  In i (trace_of p e) -> kind i = HardReset -> failed (inv_result i) = true ->
  gives_up p e /\
  (exists pre, trace_of p e = (pre ++ [i])%list) /\
  Forall (fun j => kind j <> Clean /\ kind j <> ListBranches /\
                   kind j <> ForceDelete /\ kind j <> SafeDelete) (trace_of p e) /\
  (exists b target, In (MSG_RESET_FAILED b target) (printed p e)).
Proof.
  intros Hin Hkind Hfail.
  destruct (is_repository p) eqn:Hrepo.
  2:{ destruct (run_not_repository p e Hrepo) as [_ [Ht _]].
      rewrite Ht in Hin. contradiction. }
  destruct (run_anatomy p e Hrepo) as [notes [HS [_ Hincl]]].
  unfold gives_up.
  assert (Hst : stage i = 5%nat) by (now apply stage_kind in Hkind).
  destruct (reach_reset _ _ _ _ HS) as [b [t [pre [rest [xp [xr [Hn [Hx [Hpre H5]]]]]]]]].
  { exists i. split; auto. lia. }
  rewrite Hn in Hin |- *. subst notes.
  apply in_app_or in Hin. destruct Hin as [Hin|Hin].
  { exfalso. eapply not_before; eauto. lia. }
  destruct H5 as [n5 [x5 [o5 [HR H]]]].
  inversion HR; subst.
  - exfalso. destruct H as [n6 [x6 [-> [-> H6]]]].
    apply in_app_or in Hin. destruct Hin as [[<-|[]]|Hin].
    + apply failed_not_succeeded in Hfail. simpl in Hfail. congruence.
    + eapply not_after; [eapply From_clean_stage; eauto| |exact Hin]. lia.
  - destruct H as [-> [-> Hstop]]. destruct Hin as [<-|[]].
    destruct (fst (reset_body p (start e))); simpl in Hstop; try contradiction.
    split; [reflexivity|]. split; [eauto|]. split.
    + apply Forall_app. split.
      * eapply Forall_impl; [|exact Hpre]. intros j Hj. simpl in Hj.
        unfold stage in Hj. destruct (kind j); simpl in Hj;
          repeat split; try discriminate; lia.
      * repeat constructor; discriminate.
    + exists b, t. apply Hincl. apply in_or_app. right. now left.
  - exfalso. destruct H as [-> _]. destruct Hin as [<-|[]].
    apply failed_launched in Hfail. simpl in Hfail. congruence.
Qed.

Lemma Answers_head (e e' : Env) argv cwd r n :
  Answers e (Invoke argv cwd r :: n) e' ->
  exists e1, spawn e argv cwd = (r, e1) /\ Answers e1 n e'.
Proof. intros H. inversion H; subst. eauto. Qed.

Lemma Answers_nil_inv (e e' : Env) : Answers e [] e' -> e' = e.
Proof. intros H. now inversion H. Qed.

(** C5.  [run_command] on a command line (a non-empty argument vector)
    never lets an exception escape.  A child that exits with a non-zero
    status, and any other exception of [subprocess.run], is handed back as
    [None]; exit status 0 is handed back as the stripped output; the only
    answer that ends the whole process is the executable that cannot be
    started, through [sys.exit(1)].  Exactly one child process is started. *)
Theorem run_command_returns_an_outcome
        (cmd0 : string) (args : list string) (cwd : string) (w : World) :
  let r := fst (spawn (env w) (resolved cmd0 args) cwd) in
  fst (run_command (cmd0 :: args) cwd w) =
    match r with
    | Completed rc out _ =>
        Normal (if rc =? 0 then Some (PyStr.strip out) else None)
    | NotFound => SystemExit 1
    | Broken _ => Normal None
    end /\
  calls (snd (run_command (cmd0 :: args) cwd w)) =
    (calls w ++ [Invoke (resolved cmd0 args) cwd r])%list.
Proof.
  intros r. subst r.
  destruct (run_command (cmd0 :: args) cwd w) as [o w'] eqn:E.
  apply run_command_run in E. destruct E as [r [Hs [Ho [Hc _]]]].
  rewrite Hs. cbn [fst snd]. split; [|exact Hc].
  subst o. destruct r as [rc out err| |msg]; simpl; auto.
  destruct (rc =? 0); reflexivity.
Qed.

(** C9.  When the reference query for [main] succeeds, the resolver returns
    ["main"] and that query is the only child process it starts; a query
    for [master] appears among the resolver's invocations only when the
    query for [main] failed. *)
Theorem main_is_preferred (p : string) (w : World) (r1 : ProcResult) (e1 : Env) :
  spawn (env w) SHOW_REF_MAIN p = (r1, e1) ->
  (succeeded r1 = true ->
   fst (get_main_branch_name p w) = Normal (Some "main") /\
   calls (snd (get_main_branch_name p w))
   = (calls w ++ [Invoke SHOW_REF_MAIN p r1])%list) /\
  (forall n i,
      calls (snd (get_main_branch_name p w)) = (calls w ++ n)%list ->
      In i n -> inv_argv i = SHOW_REF_MASTER -> failed r1 = true).
Proof.
  intros Hs1.
  pose proof (get_main_branch_name_spec p w) as H. unfold wp in H.
  destruct H as [n0 [notes [Hc [Ha [_ [_ HR]]]]]].
  assert (Hfirst : forall r n', n0 = Invoke SHOW_REF_MAIN p r :: n' -> r = r1).
  { intros r n' ->. apply Answers_head in Ha. destruct Ha as [e' [Hs' _]].
    rewrite Hs1 in Hs'. congruence. }
  split.
  - intros Hok. inversion HR; subst;
      match goal with
      | H : failed ?r = true |- _ =>
          rewrite (Hfirst r _ eq_refl) in H;
          apply failed_not_succeeded in H; congruence
      | H : unlaunchable ?r = true |- _ =>
          rewrite (Hfirst r _ eq_refl) in H;
          apply succeeded_launched in Hok; congruence
      | _ => rewrite (Hfirst _ _ eq_refl) in *; split; [congruence|exact Hc]
      end.
  - intros n i Hn Hi Hargv. rewrite Hc in Hn. apply app_inv_head in Hn. subst n0.
    inversion HR; subst;
      try (rewrite <- (Hfirst _ _ eq_refl); assumption);
      destruct Hi as [<-|[]]; discriminate Hargv.
Qed.

(** C2.  In a repository where the reference queries for [main] and for
    [master] both fail, the run stops at the bare [return] after step 1: the
    two queries are the only child processes of the run, neither changes
    the repository, and the outside world is left as the second query left
    it. *)
Theorem no_trunk_no_state_change
        (p : string) (e e1 e2 : Env) (r1 r2 : ProcResult) :
  is_repository p = true ->
  spawn e SHOW_REF_MAIN p = (r1, e1) -> failed r1 = true ->
  spawn e1 SHOW_REF_MASTER p = (r2, e2) -> failed r2 = true ->
  gives_up p e /\
  trace_of p e = [Invoke SHOW_REF_MAIN p r1; Invoke SHOW_REF_MASTER p r2] /\
  Forall (fun i => state_changing i = false) (trace_of p e) /\
  In MSG_NO_TRUNK (printed p e) /\
  env (snd (reset_repository p (start e))) = e2.
Proof.
  intros Hrepo Hs1 Hf1 Hs2 Hf2.
  destruct (run_anatomy p e Hrepo) as [notes [HS [Ha Hincl]]].
  rewrite reset_repository_body. cbn [snd]. unfold gives_up.
  destruct HS as [n1 [x1 [o1 [HD H]]]].
  assert (Hcase : n1 = [Invoke SHOW_REF_MAIN p r1; Invoke SHOW_REF_MASTER p r2]
                  /\ o1 = Returned /\ In MSG_NO_TRUNK x1).
  { assert (Ha1 : exists rest, trace_of p e = (n1 ++ rest)%list).
    { destruct o1; [destruct H as [n2 [x2 [-> _]]]; eauto| | |];
        destruct H as [-> _]; exists []; now rewrite app_nil_r. }
    destruct Ha1 as [rest Hn]. rewrite Hn in Ha.
    assert (Hr : forall n x o, Resolution p n x o -> n1 = n ->
                 n = [Invoke SHOW_REF_MAIN p r1; Invoke SHOW_REF_MASTER p r2]
                 /\ o = Normal None).
    { intros n x o HR ->. inversion HR; subst; cbn [app] in Ha;
        apply Answers_head in Ha; destruct Ha as [e' [Hs' Ha]];
        rewrite Hs1 in Hs'; inversion Hs'; subst r0 e';
        try (apply failed_not_succeeded in Hf1; congruence);
        try (apply failed_launched in Hf1; congruence);
        apply Answers_head in Ha; destruct Ha as [e'' [Hs'' Ha]];
        rewrite Hs2 in Hs''; inversion Hs''; subst r3 e'';
        try (apply failed_not_succeeded in Hf2; congruence);
        try (apply failed_launched in Hf2; congruence).
      auto. }
    inversion HD; subst;
      match goal with
      | HR : Resolution _ _ _ _ |- _ =>
          destruct (Hr _ _ _ HR eq_refl) as [-> Ho]; try discriminate Ho
      end.
    split; [reflexivity|]. split; [reflexivity|].
    apply in_or_app. right. now left. }
  destruct Hcase as [-> [-> Hmsg]]. destruct H as [Hn [-> Hstop]].
  rewrite Hn in *.
  destruct (fst (reset_body p (start e))); simpl in Hstop; try contradiction.
  split; [reflexivity|]. split; [reflexivity|].
  split; [repeat constructor|]. split; [auto|].
  apply Answers_head in Ha. destruct Ha as [e' [Hs' Ha]].
  rewrite Hs1 in Hs'. inversion Hs'; subst e'.
  apply Answers_head in Ha. destruct Ha as [e'' [Hs'' Ha]].
  rewrite Hs2 in Hs''. inversion Hs''; subst e''.
  now apply Answers_nil_inv in Ha.
Qed.

Lemma failed_no_output (r : ProcResult) : failed r = true -> output r = None.
Proof.
  destruct r as [rc out err| |msg]; unfold failed; simpl; auto.
  destruct (rc =? 0); simpl; congruence.
Qed.

(** C4.  In every run that reaches the fetch step, the fetch is directly
    followed by the hard reset, unless the executable could not be started.
    After a successful fetch of trunk [b] the reset target is [origin/b];
    after a failed fetch the run goes on all the same, a warning is printed,
    and the target is [HEAD]. *)
Theorem fetch_outcome_selects_reset_target (p : string) (e : Env) (i : Invocation) :
  In i (trace_of p e) -> kind i = Fetch ->
  exists b pre rest,
    (b = "main" \/ b = "master") /\
    i = Invoke (FETCH b) p (inv_result i) /\
    trace_of p e = (pre ++ i :: rest)%list /\
    (succeeded (inv_result i) = true ->
     exists r post, rest = Invoke (RESET_HARD ("origin/" ++ b)) p r :: post) /\
    (failed (inv_result i) = true ->
     (exists r post, rest = Invoke (RESET_HARD "HEAD") p r :: post) /\
     In (MSG_FETCH_FAILED b) (printed p e)).
Proof.
  intros Hin Hkind.
  destruct (is_repository p) eqn:Hrepo.
  2:{ destruct (run_not_repository p e Hrepo) as [_ [Ht _]].
      rewrite Ht in Hin. contradiction. }
  destruct (run_anatomy p e Hrepo) as [notes [HS [_ Hincl]]].
  assert (Hst : stage i = 4%nat) by (now apply stage_kind in Hkind).
  destruct (reach_fetch _ _ _ _ HS)
    as [b [pre [rest [xp [xr [Hn [Hx [Hpre [H4 Hb]]]]]]]]].
  { exists i. split; auto. lia. }
  rewrite Hn in Hin |- *. subst notes.
  apply in_app_or in Hin. destruct Hin as [Hin|Hin].
  { exfalso. eapply not_before; eauto. lia. }
  destruct H4 as [n4 [x4 [o4 [HF H]]]].
  exists b, pre.
  inversion HF; subst.
  - destruct H as [n5 [x5 [-> [-> H5]]]].
    apply in_app_or in Hin. destruct Hin as [[<-|[]]|Hin].
    2:{ exfalso. eapply not_after; [eapply From_reset_stage; eauto| |exact Hin]. lia. }
    exists n5. cbn [inv_result].
    split; [exact Hb|]. split; [reflexivity|]. split; [reflexivity|]. split.
    + intros _. eapply From_reset_head; eauto.
    + intros Hf. apply failed_not_succeeded in Hf. congruence.
  - destruct H as [n5 [x5 [-> [-> H5]]]].
    apply in_app_or in Hin. destruct Hin as [[<-|[]]|Hin].
    2:{ exfalso. eapply not_after; [eapply From_reset_stage; eauto| |exact Hin]. lia. }
    exists n5. cbn [inv_result].
    split; [exact Hb|]. split; [reflexivity|]. split; [reflexivity|]. split.
    + intros Hok. apply failed_not_succeeded in H0. congruence.
    + intros _. split; [eapply From_reset_head; eauto|].
      apply Hincl. apply in_or_app. right. apply in_or_app. left. now left.
  - destruct H as [-> [-> _]]. destruct Hin as [<-|[]].
    exists []. cbn [inv_result].
    split; [exact Hb|]. split; [reflexivity|]. split; [reflexivity|]. split.
    + intros Hok. apply succeeded_launched in Hok. congruence.
    + intros Hf. apply failed_launched in Hf. congruence.
Qed.




Lemma Deletions_kinds p b bs n x o :
  Deletions p b bs n x o ->
  Forall (fun i => kind i = ForceDelete \/ kind i = SafeDelete) n.
Proof.
  induction 1;
    repeat (apply Forall_cons; [first [left; reflexivity|right; reflexivity]|]);
    auto.
Qed.

(** C10.  A branch listing that succeeds with nothing in its output is
    treated exactly like a listing that fails: in both cases the listing is
    the last child process of the run, no branch deletion is issued, the
    same line is printed, and the run reaches its last statement. *)
Theorem empty_listing_is_skipped_like_failed_listing
        (p : string) (e : Env) (i : Invocation) :
  In i (trace_of p e) -> kind i = ListBranches ->
  failed (inv_result i) = true \/
  (succeeded (inv_result i) = true /\ output (inv_result i) = Some "") ->
  completes p e /\
  (exists pre, trace_of p e = (pre ++ [i])%list) /\
  Forall (fun j => kind j <> ForceDelete /\ kind j <> SafeDelete) (trace_of p e) /\
  In MSG_NO_LISTING (printed p e).
Proof.
  intros Hin Hkind Hres.
  assert (Hl : unlaunchable (inv_result i) = false).
  { destruct Hres as [Hf|[Hok _]];
      [now apply failed_launched|now apply succeeded_launched]. }
  assert (Hout : truthy (output (inv_result i)) = false).
  { destruct Hres as [Hf|[_ Ho]].
    - now rewrite (failed_no_output _ Hf).
    - now rewrite Ho. }
  clear Hres.
  destruct (is_repository p) eqn:Hrepo.
  2:{ destruct (run_not_repository p e Hrepo) as [_ [Ht _]].
      rewrite Ht in Hin. contradiction. }
  destruct (run_anatomy p e Hrepo) as [notes [HS [_ Hincl]]].
  unfold completes.
  assert (Hst : stage i = 7%nat) by (now apply stage_kind in Hkind).
  destruct (reach_prune _ _ _ _ HS)
    as [b [pre [rest [xp [xr [Hn [Hx [Hpre H7]]]]]]]].
  { exists i. split; auto. lia. }
  rewrite Hn in Hin |- *. subst notes.
  apply in_app_or in Hin. destruct Hin as [Hin|Hin].
  { exfalso. eapply not_before; eauto. lia. }
  destruct H7 as [n7 [x7 [o7 [HP H]]]].
  inversion HP; subst.
  - exfalso. destruct H as [-> _]. destruct Hin as [<-|[]].
    simpl in Hl. congruence.
  - destruct H as [n8 [x8 [-> [-> [-> [-> Ho]]]]]].
    destruct Hin as [<-|[]].
    split; [exact Ho|]. split; [exists pre; reflexivity|]. split.
    + apply Forall_app. split.
      * eapply Forall_impl; [|exact Hpre]. intros j Hj. simpl in Hj.
        unfold stage in Hj. destruct (kind j); simpl in Hj;
          split; try discriminate; lia.
      * repeat constructor; discriminate.
    + apply Hincl. apply in_or_app. right. apply in_or_app. left. now left.
  - exfalso.
    assert (Hi : i = Invoke LIST_BRANCHES p l).
    { destruct H as [n8 [x8 [-> [-> HF]]]]. apply Finished_nil in HF. subst n8.
      rewrite app_nil_r in Hin. destruct Hin as [<-|Hin]; [reflexivity|].
      pose proof (Deletions_kinds _ _ _ _ _ _ H2) as Hk.
      rewrite Forall_forall in Hk. specialize (Hk _ Hin).
      destruct Hk; congruence. }
    subst i. simpl in Hout. rewrite H0 in Hout. simpl in Hout. congruence.
  - exfalso.
    assert (Hi : i = Invoke LIST_BRANCHES p l).
    { destruct H as [-> _]. destruct Hin as [<-|Hin]; [reflexivity|].
      pose proof (Deletions_kinds _ _ _ _ _ _ H2) as Hk.
      rewrite Forall_forall in Hk. specialize (Hk _ Hin).
      destruct Hk; congruence. }
    subst i. simpl in Hout. rewrite H0 in Hout. simpl in Hout. congruence.
Qed.

Lemma Deletions_not_trunk p b bs n x o :
  Deletions p b bs n x o ->
  Forall (fun i => inv_argv i <> FORCE_DELETE b /\ inv_argv i <> SAFE_DELETE b) n.
Proof.
  assert (Hne : forall y r flag,
             y <> b ->
             inv_argv (Invoke (git ["branch"; flag; y]) p r) <> FORCE_DELETE b /\
             inv_argv (Invoke (git ["branch"; flag; y]) p r) <> SAFE_DELETE b).
  { intros y r flag Hy. split; intros Heq; inversion Heq; congruence. }
  induction 1; repeat (apply Forall_cons; [now apply Hne|]); auto.
Qed.

Lemma Deletions_crash p b bs n x c :
  Deletions p b bs n x (SystemExit c) ->
  Exists (fun i => unlaunchable (inv_result i) = true) n.
Proof.
  intros H. remember (SystemExit c) as o eqn:Ho. revert Ho.
  induction H; intros Ho; try discriminate Ho; auto;
    try (destruct o as [[c0 f0]| | |]; simpl in Ho; try discriminate Ho;
         repeat apply Exists_cons_tl; auto).
Qed.

Lemma tally_normal k kept o c f :
  tally k kept o = Normal (c, f) ->
  exists c' f', o = Normal (c', f') /\ c = k + c' /\ f = (kept ++ f')%list.
Proof.
  destruct o as [[c' f']| | |]; simpl; intros H; inversion H; eauto.
Qed.

(** A deletion loop that ran to its end made, for every listed branch other
    than the trunk and in the order of the listing, one forced attempt and,
    exactly when that failed, one lenient attempt. *)
Lemma Deletions_attempts p b bs n x c f :
  Deletions p b bs n x (Normal (c, f)) ->
  exists atts,
    map att_branch atts = other_than b bs /\
    n = flat_map (attempt_calls p) atts /\
    Forall lenient_only_after_failure atts /\
    f = map att_branch (filter (fun a => negb (deleted a)) atts) /\
    c = Z.of_nat (List.length (filter deleted atts)) /\
    x = map MSG_DELETE_FAILED f.
Proof.
  intros H. remember (Normal (c, f)) as o eqn:Ho. revert c f Ho.
  induction H; intros c f Ho.
  - inversion Ho; subst. exists []. simpl. repeat split; auto.
  - destruct (IHDeletions c f Ho) as [atts [Hm [Hn [Hw [Hf [Hc Hx]]]]]].
    exists atts. unfold other_than. simpl. rewrite String.eqb_refl. simpl.
    repeat split; auto.
  - apply tally_normal in Ho. destruct Ho as [c' [f' [-> [-> ->]]]].
    destruct (IHDeletions c' f' eq_refl) as [atts [Hm [Hn [Hw [Hf [Hc Hx]]]]]].
    exists ({| att_branch := x; att_forced := d; att_safe := None |} :: atts).
    unfold other_than, deleted in *. cbn [map filter flat_map attempt_calls
      att_branch att_forced att_safe app].
    apply String.eqb_neq in H. rewrite H, H0. cbn [negb orb List.length].
    rewrite Hm, Hn, Nat2Z.inj_succ. subst c'.
    split; [reflexivity|]. split; [reflexivity|].
    split; [constructor; [exact H0|exact Hw]|].
    split; [exact Hf|]. split; [lia|exact Hx].
  - discriminate Ho.
  - apply tally_normal in Ho. destruct Ho as [c' [f' [-> [-> ->]]]].
    destruct (IHDeletions c' f' eq_refl) as [atts [Hm [Hn [Hw [Hf [Hc Hx]]]]]].
    exists ({| att_branch := x; att_forced := d; att_safe := Some s |} :: atts).
    unfold other_than, deleted in *. cbn [map filter flat_map attempt_calls
      att_branch att_forced att_safe app].
    apply String.eqb_neq in H. rewrite H, H1, orb_true_r.
    cbn [negb List.length].
    rewrite Hm, Hn, Nat2Z.inj_succ. subst c'.
    split; [reflexivity|]. split; [reflexivity|].
    split; [constructor; [split; [exact H0|now apply succeeded_launched]|exact Hw]|].
    split; [exact Hf|]. split; [lia|exact Hx].
  - discriminate Ho.
  - apply tally_normal in Ho. destruct Ho as [c' [f' [-> [-> ->]]]].
    destruct (IHDeletions c' f' eq_refl) as [atts [Hm [Hn [Hw [Hf [Hc Hx]]]]]].
    exists ({| att_branch := x; att_forced := d; att_safe := Some s |} :: atts).
    unfold other_than, deleted in *. cbn [map filter flat_map attempt_calls
      att_branch att_forced att_safe app].
    apply String.eqb_neq in H.
    rewrite H, (failed_not_succeeded _ H0), (failed_not_succeeded _ H1).
    cbn [negb orb map att_branch].
    rewrite Hm, Hn, Hx, Hf. subst c'.
    split; [reflexivity|]. split; [reflexivity|].
    split; [constructor; [split; [exact H0|now apply failed_launched]|exact Hw]|].
    split; [reflexivity|]. split; [lia|reflexivity].
Qed.

(** X15.  Step 7, started in any state of the run, on the names the script
    reads from the listing ([branch_names]).  After the listing, when the
    listing has content and the executable stays startable, the deletion
    commands are, for every such name other than the trunk and in the order
    of the listing: the forced deletion, followed by the lenient deletion
    exactly when the forced one failed.  A name for which both failed gets a
    warning line; the step still ends normally and the later names still
    get their attempts.  No deletion command ever names the trunk.  The
    step ends the process only when the executable cannot be started. *)
Theorem pruner_policy (p b : string) (w : World) :
  exists l n,
    calls (snd (delete_other_branches p b w))
    = (calls w ++ Invoke LIST_BRANCHES p l :: n)%list /\
    Forall (fun i => inv_argv i <> FORCE_DELETE b /\ inv_argv i <> SAFE_DELETE b) n /\
    ((fst (delete_other_branches p b w) = SystemExit 1 /\
      Exists (fun i => unlaunchable (inv_result i) = true)
             (Invoke LIST_BRANCHES p l :: n))
     \/
     (fst (delete_other_branches p b w) = Normal tt /\
      truthy (output l) = false /\ n = [])
     \/
     (exists out atts,
         fst (delete_other_branches p b w) = Normal tt /\
         output l = Some out /\
         map att_branch atts = other_than b (branch_names out) /\
         n = flat_map (attempt_calls p) atts /\
         Forall lenient_only_after_failure atts /\
         Forall (fun a => deleted a = false ->
                          In (MSG_DELETE_FAILED (att_branch a))
                             (console (snd (delete_other_branches p b w)))) atts /\
         In (MSG_DELETED (Z.of_nat (List.length (filter deleted atts))))
            (console (snd (delete_other_branches p b w))))).
Proof.
  pose proof (delete_other_branches_spec p b w) as H. unfold wp in H.
  destruct H as [n0 [notes [Hc [_ [_ [Hi HP]]]]]].
  inversion HP as [l Hl|l Hl Ht|l out n x count kept Ho Ht HD|l out n x code Ho Ht HD];
    subst.
  - exists l, []. split; [exact Hc|]. split; [constructor|].
    left. split; [auto|]. now apply Exists_cons_hd.
  - exists l, []. split; [exact Hc|]. split; [constructor|].
    right. left. auto.
  - exists l, n. split; [exact Hc|].
    split; [eapply Deletions_not_trunk; eauto|].
    right. right.
    destruct (Deletions_attempts _ _ _ _ _ _ _ HD)
      as [atts [Hm [Hn [Hw [Hf [Hcount Hx]]]]]].
    exists out, atts.
    split; [auto|]. split; [exact Ho|]. split; [exact Hm|]. split; [exact Hn|].
    split; [exact Hw|]. split.
    + rewrite Forall_forall. intros a Ha Hd.
      apply Hi. apply in_or_app. left. rewrite Hx, Hf.
      apply in_map. apply in_map. apply filter_In.
      split; [exact Ha|now rewrite Hd].
    + apply Hi. apply in_or_app. right. rewrite Hcount. now left.
  - pose proof (Deletions_outcome _ _ _ _ _ _ HD) as [[c0 [f0 Hx]]|Hx];
      inversion Hx; subst.
    exists l, n. split; [exact Hc|].
    split; [eapply Deletions_not_trunk; eauto|].
    left. split; [auto|]. apply Exists_cons_tl.
    eapply Deletions_crash; eauto.
Qed.

Lemma fatal_succeeded argv p r : succeeded r = true -> fatal (Invoke argv p r) = false.
Proof. destruct r; simpl; intros H; try discriminate; reflexivity. Qed.

Lemma fatal_failed argv p r :
  failed r = true -> kind_of argv <> StashPush -> fatal (Invoke argv p r) = false.
Proof.
  unfold fatal, kind. destruct r; simpl; intros H Hk; try discriminate; auto.
  destruct (kind_of argv); auto. congruence.
Qed.

Lemma fatal_unlaunchable argv p r :
  unlaunchable r = true -> fatal (Invoke argv p r) = true.
Proof. destruct r; simpl; intros H; try discriminate; reflexivity. Qed.

Ltac verdict_tac :=
  intros H; inversion H; subst; unfold verdict;
  repeat first
    [ split; [reflexivity|]
    | apply Forall_nil
    | apply Forall_cons
    | apply Exists_cons_hd; solve [apply fatal_unlaunchable; assumption]
    | apply Exists_cons_tl
    | solve [apply fatal_succeeded; assumption]
    | solve [apply fatal_failed; [assumption|discriminate]] ].

Lemma Resolution_verdict p n x o : Resolution p n x o -> verdict n o.
Proof. verdict_tac. Qed.

Lemma Determined_verdict p n x o : Determined p n x o -> verdict n o.
Proof.
  intros H; inversion H; subst;
    match goal with HR : Resolution _ _ _ _ |- _ =>
      apply Resolution_verdict in HR; exact HR end.
Qed.

Lemma Stashing_verdict p n x o : Stashing p n x o -> verdict n o.
Proof.
  intros H; inversion H; subst; unfold verdict;
    repeat first
      [ split; [reflexivity|]
      | apply Forall_nil
      | apply Forall_cons
      | solve [reflexivity]
      | solve [apply fatal_succeeded; assumption]
      | solve [apply fatal_failed; [assumption|discriminate]]
      | solve [apply Exists_cons_tl, Exists_cons_hd, fatal_unlaunchable; assumption]
      | solve [match goal with
               | Hc : stash_created ?r = true |- fatal (Invoke _ _ ?r) = false =>
                   destruct r; simpl in Hc; try discriminate Hc; reflexivity
               end]
      | solve [match goal with
               | Hc : completed ?r = false |- Exists _ (Invoke _ _ ?r :: _) =>
                   apply Exists_cons_hd;
                   destruct r; simpl in Hc; try discriminate Hc; reflexivity
               end] ].
Qed.

Lemma Switching_verdict p b n x o : Switching p b n x o -> verdict n o.
Proof.
  verdict_tac.
  match goal with
  | Hl : unlaunchable ?v = false |- fatal (Invoke _ _ ?v) = false =>
      destruct v; simpl in Hl; try discriminate Hl; reflexivity
  end.
  match goal with
  | Ho : output ?v = Some _ |- fatal (Invoke _ _ ?v) = false =>
      destruct v; simpl in Ho; try discriminate Ho; reflexivity
  end.
Qed.

Lemma Fetching_verdict p b n x o : Fetching p b n x o -> verdict n o.
Proof. verdict_tac. Qed.

Lemma Resetting_verdict p b t n x o : Resetting p b t n x o -> verdict n o.
Proof. verdict_tac. Qed.

Lemma Cleaning_verdict p n x o : Cleaning p n x o -> verdict n o.
Proof. verdict_tac. Qed.

Lemma tally_verdict n k kept (o : Outcome (Z * list string)) :
  verdict n (tally k kept o) <-> verdict n o.
Proof. destruct o as [[c f]| | |]; simpl; tauto. Qed.

Lemma verdict_cons_ok {A : Type} (i : Invocation) n (o : Outcome A) :
  fatal i = false -> verdict n o -> verdict (i :: n) o.
Proof.
  intros Hi. destruct o; simpl.
  - now constructor.
  - now constructor.
  - intros [-> H]. split; [reflexivity|now apply Exists_cons_tl].
  - intros H. now apply Exists_cons_tl.
Qed.

Lemma Deletions_verdict p b bs n x o : Deletions p b bs n x o -> verdict n o.
Proof.
  induction 1.
  - simpl. constructor.
  - assumption.
  - apply tally_verdict, verdict_cons_ok; [now apply fatal_succeeded|assumption].
  - simpl. split; [reflexivity|]. apply Exists_cons_hd.
    now apply fatal_unlaunchable.
  - apply tally_verdict.
    apply verdict_cons_ok; [apply fatal_failed; [assumption|discriminate]|].
    apply verdict_cons_ok; [now apply fatal_succeeded|assumption].
  - simpl. split; [reflexivity|]. apply Exists_cons_tl, Exists_cons_hd.
    now apply fatal_unlaunchable.
  - apply tally_verdict.
    apply verdict_cons_ok; [apply fatal_failed; [assumption|discriminate]|].
    apply verdict_cons_ok; [apply fatal_failed; [assumption|discriminate]|].
    assumption.
Qed.

Lemma Pruning_verdict p b n x o : Pruning p b n x o -> verdict n o.
Proof.
  intros H.
  inversion H as [l Hl|l Hl Ht|l out n' x' count kept Ho Ht HD|l out n' x' code Ho Ht HD];
    subst.
  - simpl. split; [reflexivity|]. apply Exists_cons_hd. now apply fatal_unlaunchable.
  - simpl. constructor; [|constructor].
    destruct l; simpl in Hl; try discriminate Hl; reflexivity.
  - apply Deletions_verdict in HD. simpl in HD |- *.
    constructor; [|exact HD].
    destruct l; simpl in Ho; try discriminate Ho; reflexivity.
  - apply Deletions_verdict in HD.
    apply (verdict_cons_ok (Invoke LIST_BRANCHES p l)) in HD; [exact HD|].
    destruct l; simpl in Ho; try discriminate Ho; reflexivity.
Qed.

Lemma seq_phase_verdict {A B : Type} (P : Phase A) (K : A -> Phase B) n x o :
  (forall n1 x1 o1, P n1 x1 o1 -> verdict n1 o1) ->
  (forall a n2 x2 o2, K a n2 x2 o2 -> verdict n2 o2) ->
  seq_phase P K n x o -> verdict n o.
Proof.
  intros HP HK [n1 [x1 [o1 [H1 H]]]]. apply HP in H1.
  destruct o1 as [a| |c|ex].
  - destruct H as [n2 [x2 [-> [-> H2]]]]. apply HK in H2.
    simpl in H1. destruct o; simpl in *.
    + apply Forall_app. auto.
    + apply Forall_app. auto.
    + destruct H2 as [-> H2]. split; [reflexivity|].
      apply Exists_app. auto.
    + apply Exists_app. auto.
  - destruct H as [-> [-> Hs]]. destruct o; simpl in Hs; try contradiction.
    exact H1.
  - destruct H as [-> [-> Hs]]. destruct o; simpl in Hs; try contradiction.
    subst. exact H1.
  - destruct H as [-> [-> Hs]]. destruct o; simpl in Hs; try contradiction.
    exact H1.
Qed.

Lemma Steps_verdict p n x o : Steps p n x o -> verdict n o.
Proof.
  revert n x o. unfold Steps.
  intros n x o. apply seq_phase_verdict; [apply Determined_verdict|].
  clear n x o. intros b n x o. unfold From_stash.
  apply seq_phase_verdict; [apply Stashing_verdict|].
  clear n x o. intros _ n x o. unfold From_switch.
  apply seq_phase_verdict; [apply Switching_verdict|].
  clear n x o. intros _ n x o. unfold From_fetch.
  apply seq_phase_verdict; [apply Fetching_verdict|].
  clear n x o. intros t n x o. unfold From_reset.
  apply seq_phase_verdict; [apply Resetting_verdict|].
  clear n x o. intros _ n x o. unfold From_clean.
  apply seq_phase_verdict; [apply Cleaning_verdict|].
  clear n x o. intros _ n x o. unfold From_prune.
  apply seq_phase_verdict; [apply Pruning_verdict|].
  clear n x o. intros _ n x o [-> [_ ->]]. simpl. constructor.
Qed.

Lemma no_fatal (n : list Invocation) :
  Forall (fun i => fatal i = false) n -> existsb fatal n = false.
Proof.
  induction 1 as [|i n Hi _ IH]; simpl; [reflexivity|]. now rewrite Hi, IH.
Qed.

Lemma some_fatal (n : list Invocation) :
  Exists (fun i => fatal i = true) n -> existsb fatal n = true.
Proof.
  intros H. apply existsb_exists. apply Exists_exists in H. exact H.
Qed.

(** The verdict on a whole run of [reset_repository]. *)
Lemma run_verdict (p : string) (e : Env) :
  verdict (trace_of p e) (fst (reset_body p (start e))).
Proof.
  destruct (is_repository p) eqn:Hrepo.
  - destruct (run_anatomy p e Hrepo) as [notes [HS _]].
    eapply Steps_verdict; eauto.
  - destruct (run_not_repository p e Hrepo) as [Hg [Ht _]].
    unfold gives_up in Hg. rewrite Hg, Ht. simpl. constructor.
Qed.

Lemma main_configured (arg : option string) (w : World) :
  configured arg = true -> main arg w = reset_repository (target_path arg) w.
Proof.
  unfold configured, main, target_path. intros H.
  apply andb_true_iff in H. destruct H as [H H3].
  apply andb_true_iff in H. destruct H as [H1 H2].
  rewrite H1, H2, H3. reflexivity.
Qed.

Lemma main_not_configured (arg : option string) (w : World) :
  configured arg = false ->
  fst (main arg w) = SystemExit 1 /\ calls (snd (main arg w)) = calls w.
Proof.
  unfold configured, main, target_path. intros H.
  destruct (os_path_isfile GIT_EXECUTABLE); [|split; reflexivity].
  destruct (os_path_exists _); [|split; reflexivity].
  destruct (os_path_isdir _); [discriminate H|split; reflexivity].
Qed.

(** The terminal status once the command line is parsed: 1 when one of the
    three tests fails or a child process could not be started, else 0. *)
Lemma exit_status_after_parsing (arg : option string) (e : Env) :
  exit_status (fst (main arg (start e)))
  = (if negb (configured arg) || existsb fatal (calls (snd (main arg (start e))))
     then 1 else 0) /\
  (if configured arg then
     match fst (reset_body (target_path arg) (start e)) with
     | Normal _ | Returned => exit_status (fst (main arg (start e))) = 0
     | SystemExit _ | Raised _ => exit_status (fst (main arg (start e))) = 1
     end
   else exit_status (fst (main arg (start e))) = 1).
Proof.
  destruct (configured arg) eqn:Hcfg.
  - rewrite (main_configured arg _ Hcfg). cbn [negb orb].
    pose proof (run_verdict (target_path arg) e) as Hv. unfold trace_of in Hv.
    rewrite reset_repository_body in *. cbn [fst snd] in *.
    destruct (fst (reset_body (target_path arg) (start e))) as [[]| |c|ex];
      simpl in Hv |- *.
    + rewrite (no_fatal _ Hv). auto.
    + rewrite (no_fatal _ Hv). auto.
    + destruct Hv as [-> Hv]. rewrite (some_fatal _ Hv). auto.
    + rewrite (some_fatal _ Hv). auto.
  - destruct (main_not_configured arg (start e) Hcfg) as [Ho Hc].
    rewrite Ho. simpl. auto.
Qed.

Lemma script_parsed (argv : list string) (arg : option string) (w : World) :
  argparse argv = Parsed arg -> script argv w = main arg w.
Proof. intros H. unfold script, parse_args, bind. now rewrite H. Qed.

(** C1, as the script has it.  When [argparse] rejects the command line the
    process ends with status 2, and when it shows the help text with status
    0, in both cases before anything else happens.  For a command line that
    parses, the terminal status is 1 when one of the three tests of
    [__main__] fails (executable file missing, path missing, path not a
    directory) or when a child process could not be started during the run;
    in every other case it is 0.  In particular the status is 0 both when
    the run reaches its last statement and when it gives up at one of the
    bare [return]s of [reset_repository]. *)
Theorem exit_status_of_main (argv : list string) (e : Env) :
  let status := exit_status (fst (script argv (start e))) in
  let started := calls (snd (script argv (start e))) in
  match argparse argv with
  | UsageError message =>
      status = 2 /\ started = [] /\
      console (snd (script argv (start e))) = [(Stderr, message)]
  | HelpShown text =>
      status = 0 /\ started = [] /\
      console (snd (script argv (start e))) = [(Stdout, text)]
  | Parsed arg =>
      status = (if negb (configured arg) || existsb fatal started then 1 else 0) /\
      (if configured arg then
         match fst (reset_body (target_path arg) (start e)) with
         | Normal _ | Returned => status = 0
         | SystemExit _ | Raised _ => status = 1
         end
       else status = 1)
  end.
Proof.
  intros status started. subst status started.
  destruct (argparse argv) as [arg|message|text] eqn:Hparse.
  - rewrite (script_parsed argv arg _ Hparse).
    exact (exit_status_after_parsing arg e).
  - unfold script, parse_args, bind. rewrite Hparse.
    repeat split; reflexivity.
  - unfold script, parse_args, bind. rewrite Hparse.
    repeat split; reflexivity.
Qed.

(** ** Further properties of a run *)

Lemma no_late_invocation (k : nat) (pre n : list Invocation) (j : nat) :
  Forall (fun i => (stage i < k)%nat) pre ->
  Forall (fun i => stage i = j) n -> (j < k)%nat ->
  ~ (exists i, In i (pre ++ n) /\ (k <= stage i)%nat).
Proof.
  intros Hpre Hn Hjk [i [Hi Hk]]. apply in_app_or in Hi.
  rewrite Forall_forall in Hpre, Hn. destruct Hi as [Hi|Hi].
  - specialize (Hpre _ Hi). lia.
  - specialize (Hn _ Hi). lia.
Qed.

(** A run with an invocation of step 4 or later went through a successful
    checkout and a confirmation that names the trunk. *)
Lemma Steps_past_switch p n x o :
  Steps p n x o -> (exists i, In i n /\ (4 <= stage i)%nat) ->
  exists b pre c v rest xp xr,
    (b = "main" \/ b = "master") /\
    n = (pre ++ Invoke (CHECKOUT b) p c :: Invoke SHOW_CURRENT p v :: rest)%list /\
    x = (xp ++ xr)%list /\
    succeeded c = true /\ output v = Some b /\
    Forall (fun i => (stage i < 3)%nat) pre /\
    From_fetch p b rest xr o.
Proof.
  intros HS Hi.
  destruct (reach_switch p n x o HS (exists_stage_weaken 3 4 n ltac:(lia) Hi))
    as [b [pre [rest [xp [xr [-> [-> [Hpre [H3 Hb]]]]]]]]].
  destruct H3 as [n3 [x3 [o3 [HW H]]]].
  assert (Hstop : n3 = rest -> ~ (exists i : Invocation,
                      In i (pre ++ rest) /\ (4 <= stage i)%nat)).
  { intros <-. eapply no_late_invocation;
      [eapply Forall_stage_weaken; [|exact Hpre]; lia
      |eapply Switching_stage; eauto|lia]. }
  inversion HW as [c Hc|c Hc|c v Hc Hv|c v Hc Hv Hd|c v Hc Hv]; subst;
    try (destruct H as [Hrest _]; exfalso; apply Hstop;
         [symmetry; exact Hrest|exact Hi]).
  destruct H as [n4 [x4 [-> [-> H4]]]].
  exists b, pre, c, v, n4, xp, x4. cbn [app]. repeat (split; auto).
Qed.

(** A run with an invocation of step 6 or later went through a successful
    hard reset. *)
Lemma Steps_past_reset p n x o :
  Steps p n x o -> (exists i, In i n /\ (6 <= stage i)%nat) ->
  exists b target pre r rest xp xr,
    n = (pre ++ Invoke (RESET_HARD target) p r :: rest)%list /\
    x = (xp ++ xr)%list /\
    succeeded r = true /\
    Forall (fun i => (stage i < 5)%nat) pre /\
    From_clean p b rest xr o.
Proof.
  intros HS Hi.
  destruct (reach_reset p n x o HS (exists_stage_weaken 5 6 n ltac:(lia) Hi))
    as [b [t [pre [rest [xp [xr [-> [-> [Hpre H5]]]]]]]]].
  destruct H5 as [n5 [x5 [o5 [HR H]]]].
  assert (Hstop : n5 = rest -> ~ (exists i : Invocation,
                      In i (pre ++ rest) /\ (6 <= stage i)%nat)).
  { intros <-. eapply no_late_invocation;
      [eapply Forall_stage_weaken; [|exact Hpre]; lia
      |eapply Resetting_stage; eauto|lia]. }
  inversion HR as [r Hr|r Hr|r Hr]; subst;
    try (destruct H as [Hrest _]; exfalso; apply Hstop;
         [symmetry; exact Hrest|exact Hi]).
  destruct H as [n6 [x6 [-> [-> H6]]]].
  exists b, t, pre, r, n6, xp, x6. cbn [app]. repeat (split; auto).
Qed.

Lemma From_prune_head p b n x o :
  From_prune p b n x o ->
  exists l post, n = Invoke LIST_BRANCHES p l :: post.
Proof.
  intros [n7 [x7 [o7 [HP H]]]].
  inversion HP; subst;
    try (destruct H as [n8 [x8 [-> _]]]; simpl; eauto);
    destruct H as [-> _]; eauto.
Qed.

(** X1.  A checkout that fails is the last child process of its run: the
    run stops at the bare [return] of step 3 with an error line, so no
    confirmation, fetch, reset, clean or pruning is issued. *)
Theorem checkout_failure_is_final (p : string) (e : Env) (i : Invocation) :
  In i (trace_of p e) -> kind i = Checkout -> failed (inv_result i) = true ->
  gives_up p e /\
  (exists pre, trace_of p e = (pre ++ [i])%list) /\
  exists b, (b = "main" \/ b = "master") /\
            i = Invoke (CHECKOUT b) p (inv_result i) /\
            In (MSG_CHECKOUT_FAILED b) (printed p e).
Proof.
  intros Hin Hkind Hfail.
  destruct (is_repository p) eqn:Hrepo.
  2:{ destruct (run_not_repository p e Hrepo) as [_ [Ht _]].
      rewrite Ht in Hin. contradiction. }
  destruct (run_anatomy p e Hrepo) as [notes [HS [_ Hincl]]].
  unfold gives_up.
  assert (Hst : stage i = 3%nat) by (now apply stage_kind in Hkind).
  destruct (reach_switch _ _ _ _ HS)
    as [b [pre [rest [xp [xr [Hn [Hx [Hpre [H3 Hb]]]]]]]]].
  { exists i. split; auto. lia. }
  rewrite Hn in Hin |- *. subst notes.
  apply in_app_or in Hin. destruct Hin as [Hin|Hin].
  { exfalso. eapply not_before; eauto. lia. }
  destruct H3 as [n3 [x3 [o3 [HW H]]]].
  inversion HW as [c Hc|c Hc|c v Hc Hv|c v Hc Hv Hd|c v Hc Hv]; subst.
  - exfalso. destruct H as [-> _]. destruct Hin as [<-|[]].
    apply failed_launched in Hfail. simpl in Hfail. congruence.
  - destruct H as [-> [-> Hstop]]. destruct Hin as [<-|[]].
    destruct (fst (reset_body p (start e))); simpl in Hstop; try contradiction.
    split; [reflexivity|]. split; [eauto|].
    exists b. split; [exact Hb|]. split; [reflexivity|].
    apply Hincl. apply in_or_app. right. now left.
  - exfalso. destruct H as [-> _].
    destruct Hin as [<-|[<-|[]]]; [|discriminate Hkind].
    apply failed_not_succeeded in Hfail. simpl in Hfail. congruence.
  - exfalso. destruct H as [-> _].
    destruct Hin as [<-|[<-|[]]]; [|discriminate Hkind].
    apply failed_not_succeeded in Hfail. simpl in Hfail. congruence.
  - exfalso. destruct H as [n4 [x4 [-> [-> H4]]]].
    apply in_app_or in Hin. destruct Hin as [[<-|[<-|[]]]|Hin];
      [|discriminate Hkind|].
    + apply failed_not_succeeded in Hfail. simpl in Hfail. congruence.
    + eapply not_after; [eapply From_fetch_stage; eauto| |exact Hin]. lia.
Qed.

(** X2.  The clean step never stops the run.  A [git clean] is issued only
    directly after a successful hard reset; whether it succeeds or fails,
    the next child process is the branch listing, and a failure leaves only
    a warning line. *)
Theorem clean_failure_is_not_fatal (p : string) (e : Env) (i : Invocation) :
  In i (trace_of p e) -> kind i = Clean ->
  exists pre target r rest,
    trace_of p e = (pre ++ Invoke (RESET_HARD target) p r :: i :: rest)%list /\
    succeeded r = true /\
    i = Invoke CLEAN p (inv_result i) /\
    (unlaunchable (inv_result i) = false ->
     exists l post, rest = Invoke LIST_BRANCHES p l :: post) /\
    (failed (inv_result i) = true -> In MSG_CLEAN_FAILED (printed p e)).
Proof.
  intros Hin Hkind.
  destruct (is_repository p) eqn:Hrepo.
  2:{ destruct (run_not_repository p e Hrepo) as [_ [Ht _]].
      rewrite Ht in Hin. contradiction. }
  destruct (run_anatomy p e Hrepo) as [notes [HS [_ Hincl]]].
  assert (Hst : stage i = 6%nat) by (now apply stage_kind in Hkind).
  destruct (Steps_past_reset _ _ _ _ HS)
    as [b [t [pre [r [rest [xp [xr [Hn [Hx [Hr [Hpre H6]]]]]]]]]]].
  { exists i. split; auto. lia. }
  rewrite Hn in Hin |- *. subst notes.
  apply in_app_or in Hin. destruct Hin as [Hin|[Hin|Hin]].
  { exfalso. eapply not_before; eauto. lia. }
  { subst i. discriminate Hkind. }
  destruct H6 as [n6 [x6 [o6 [HC H]]]].
  exists pre, t, r.
  inversion HC as [k Hk|k Hk|k Hk]; subst.
  - destruct H as [n7 [x7 [-> [-> H7]]]].
    apply in_app_or in Hin. destruct Hin as [[<-|[]]|Hin].
    2:{ exfalso. eapply not_after;
          [eapply Forall_stage_ge; [|eapply From_prune_stage; eauto];
           instantiate (1 := 7%nat); lia| |exact Hin]. lia. }
    exists n7. cbn [inv_result app].
    split; [reflexivity|]. split; [exact Hr|]. split; [reflexivity|]. split.
    + intros _. eapply From_prune_head; eauto.
    + intros Hf. apply failed_not_succeeded in Hf. congruence.
  - destruct H as [n7 [x7 [-> [-> H7]]]].
    apply in_app_or in Hin. destruct Hin as [[<-|[]]|Hin].
    2:{ exfalso. eapply not_after;
          [eapply Forall_stage_ge; [|eapply From_prune_stage; eauto];
           instantiate (1 := 7%nat); lia| |exact Hin]. lia. }
    exists n7. cbn [inv_result app].
    split; [reflexivity|]. split; [exact Hr|]. split; [reflexivity|]. split.
    + intros _. eapply From_prune_head; eauto.
    + intros _. apply Hincl. apply in_or_app. right. apply in_or_app. left. now left.
  - destruct H as [-> [-> _]]. destruct Hin as [<-|[]].
    exists []. cbn [inv_result].
    split; [reflexivity|]. split; [exact Hr|]. split; [reflexivity|]. split.
    + intros Hl. congruence.
    + intros Hf. apply failed_launched in Hf. congruence.
Qed.

(** X3.  Nothing that touches the working tree or the branches is issued on
    an unconfirmed checkout: every fetch, hard reset, clean, branch listing
    and branch deletion of a run comes after a checkout of the trunk that
    succeeded and a query of the current branch that answered with the
    trunk's name. *)
Theorem destructive_steps_need_confirmed_trunk
        (p : string) (e : Env) (i : Invocation) :
  In i (trace_of p e) ->
  In (kind i) [Fetch; HardReset; Clean; ListBranches; ForceDelete; SafeDelete] ->
  exists b pre c v rest,
    (b = "main" \/ b = "master") /\
    trace_of p e
    = (pre ++ Invoke (CHECKOUT b) p c :: Invoke SHOW_CURRENT p v :: rest)%list /\
    succeeded c = true /\ output v = Some b /\ In i rest.
Proof.
  intros Hin Hkind.
  destruct (is_repository p) eqn:Hrepo.
  2:{ destruct (run_not_repository p e Hrepo) as [_ [Ht _]].
      rewrite Ht in Hin. contradiction. }
  destruct (run_anatomy p e Hrepo) as [notes [HS _]].
  assert (Hst : (4 <= stage i)%nat).
  { unfold stage. simpl in Hkind.
    destruct Hkind as [<-|[<-|[<-|[<-|[<-|[<-|[]]]]]]]; simpl; lia. }
  destruct (Steps_past_switch _ _ _ _ HS)
    as [b [pre [c [v [rest [xp [xr [Hb [Hn [_ [Hc [Hv [Hpre _]]]]]]]]]]]]].
  { exists i. split; auto. }
  exists b, pre, c, v, rest. repeat (split; auto).
  rewrite Hn in Hin. apply in_app_or in Hin.
  destruct Hin as [Hin|[Hin|[Hin|Hin]]]; auto; exfalso.
  - eapply not_before; eauto. lia.
  - subst i. unfold stage in Hst. simpl in Hst. lia.
  - subst i. unfold stage in Hst. simpl in Hst. lia.
Qed.

(** X4.  The script drops only a stash entry it has just made: every
    [git stash drop] of a run comes directly after the run's own stash
    push, and that push ended with status 0 without reporting
    [No local changes]. *)
Theorem stash_drop_only_after_created_stash (p : string) (e : Env) (i : Invocation) :
  In i (trace_of p e) -> kind i = StashDrop ->
  exists pre push rest,
    trace_of p e = (pre ++ Invoke STASH_PUSH p push :: i :: rest)%list /\
    stash_created push = true /\
    i = Invoke STASH_DROP p (inv_result i).
Proof.
  intros Hin Hkind.
  destruct (is_repository p) eqn:Hrepo.
  2:{ destruct (run_not_repository p e Hrepo) as [_ [Ht _]].
      rewrite Ht in Hin. contradiction. }
  destruct (run_anatomy p e Hrepo) as [notes [HS _]].
  assert (Hst : stage i = 2%nat) by (now apply stage_kind in Hkind).
  destruct (reach_stash _ _ _ _ HS)
    as [b [pre [rest [xp [xr [Hn [Hx [Hpre [H2 Hb]]]]]]]]].
  { exists i. split; auto. lia. }
  rewrite Hn in Hin |- *.
  apply in_app_or in Hin. destruct Hin as [Hin|Hin].
  { exfalso. eapply not_before; eauto. lia. }
  destruct H2 as [n2 [x2 [o2 [HT H]]]].
  exists pre.
  assert (Hlate : forall n3 x3, From_switch p b n3 x3
                                  (fst (reset_body p (start e))) -> ~ In i n3).
  { intros n3 x3 H3. eapply not_after; [eapply From_switch_stage; eauto|]. lia. }
  inversion HT as [r Hr|rc out err Hrc|out err Hno|r d Hc Hd|r d Hc Hd|r d Hc Hd];
    subst.
  - exfalso. destruct H as [-> _]. destruct Hin as [<-|[]]. discriminate Hkind.
  - exfalso. destruct H as [n3 [x3 [-> [_ H3]]]].
    apply in_app_or in Hin. destruct Hin as [[<-|[]]|Hin];
      [discriminate Hkind|eapply Hlate; eauto].
  - exfalso. destruct H as [n3 [x3 [-> [_ H3]]]].
    apply in_app_or in Hin. destruct Hin as [[<-|[]]|Hin];
      [discriminate Hkind|eapply Hlate; eauto].
  - destruct H as [n3 [x3 [-> [_ H3]]]].
    apply in_app_or in Hin. destruct Hin as [[<-|[<-|[]]]|Hin];
      [discriminate Hkind| |exfalso; eapply Hlate; eauto].
    exists r, n3. cbn [app inv_result]. auto.
  - destruct H as [n3 [x3 [-> [_ H3]]]].
    apply in_app_or in Hin. destruct Hin as [[<-|[<-|[]]]|Hin];
      [discriminate Hkind| |exfalso; eapply Hlate; eauto].
    exists r, n3. cbn [app inv_result]. auto.
  - destruct H as [-> _].
    destruct Hin as [<-|[<-|[]]]; [discriminate Hkind|].
    exists r, []. cbn [inv_result]. auto.
Qed.

(** X5.  A path that passes the tests of [__main__] but is not a repository
    (it has no [.git] directory) is left alone: no child process is
    started, the outside world is untouched, one line is printed to the
    error stream, and the process still ends with status 0. *)
Theorem not_a_repository_starts_nothing (arg : option string) (e : Env) :
  configured arg = true -> is_repository (target_path arg) = false ->
  calls (snd (main arg (start e))) = [] /\
  env (snd (main arg (start e))) = e /\
  console (snd (main arg (start e))) = [MSG_NOT_REPO (target_path arg)] /\
  exit_status (fst (main arg (start e))) = 0.
Proof.
  intros Hcfg Hrepo. rewrite (main_configured arg _ Hcfg).
  unfold reset_repository, def_, reset_body. cbv zeta.
  rewrite repository_test, Hrepo. cbn. auto.
Qed.

(** X6.  [__main__] tests the executable first, then that the path exists,
    then that it is a directory.  At the first test that fails it prints
    the lines of that test to the error stream and ends the process with
    status 1, before [reset_repository] is entered: the later tests are not
    reported and no child process is started. *)
Theorem configuration_errors_exit_early (arg : option string) (e : Env) :
  configured arg = false ->
  fst (main arg (start e)) = SystemExit 1 /\
  calls (snd (main arg (start e))) = [] /\
  env (snd (main arg (start e))) = e /\
  console (snd (main arg (start e)))
  = (if negb (os_path_isfile GIT_EXECUTABLE) then
       [(Stderr, "FATAL ERROR: Git executable not found at the specified path: "
                 ++ GIT_EXECUTABLE);
        (Stderr, "Please correct the GIT_EXECUTABLE variable in the script.")]
     else if negb (os_path_exists (target_path arg)) then
       [(Stderr, "Error: Provided path '" ++ target_path arg ++ "' does not exist.")]
     else
       [(Stderr, "Error: Provided path '" ++ target_path arg
                 ++ "' is not a valid directory.")]).
Proof.
  unfold configured, main, target_path. intros H.
  destruct (os_path_isfile GIT_EXECUTABLE); [|cbn; auto].
  destruct (os_path_exists _); [|cbn; auto].
  destruct (os_path_isdir _); [discriminate H|cbn; auto].
Qed.

Lemma seq_phase_Forall_dep {A B : Type} (P : Phase A) (K : A -> Phase B)
      (phi : Invocation -> Prop) n x o :
  (forall n1 x1 o1, P n1 x1 o1 -> Forall phi n1) ->
  (forall a n1 x1 n2 x2 o2,
      P n1 x1 (Normal a) -> K a n2 x2 o2 -> Forall phi n2) ->
  seq_phase P K n x o -> Forall phi n.
Proof.
  intros HP HK [n1 [x1 [o1 [H1 H]]]].
  destruct o1 as [a| |c|ex].
  - destruct H as [n2 [x2 [-> [-> H2]]]]. apply Forall_app. eauto.
  - destruct H as [-> _]. eauto.
  - destruct H as [-> _]. eauto.
  - destruct H as [-> _]. eauto.
Qed.

Ltac listed := repeat first [left; reflexivity | right].

Ltac permitted_tac :=
  intros H; inversion H; subst;
  repeat (apply Forall_cons; [split; [reflexivity|left; listed]|]);
  apply Forall_nil.

Lemma Resolution_permitted p b n x o :
  Resolution p n x o -> Forall (permitted p b) n.
Proof. permitted_tac. Qed.

Lemma Determined_permitted p b n x o :
  Determined p n x o -> Forall (permitted p b) n.
Proof.
  intros H; inversion H; subst; eapply Resolution_permitted; eauto.
Qed.

Lemma Stashing_permitted p b n x o :
  Stashing p n x o -> Forall (permitted p b) n.
Proof. permitted_tac. Qed.

Lemma Switching_permitted p b n x o :
  Switching p b n x o -> Forall (permitted p b) n.
Proof. permitted_tac. Qed.

Lemma Fetching_permitted p b n x o :
  Fetching p b n x o -> Forall (permitted p b) n.
Proof. permitted_tac. Qed.

Lemma Fetching_target p b n x t :
  Fetching p b n x (Normal t) -> t = "origin/" ++ b \/ t = "HEAD".
Proof. intros H; inversion H; auto. Qed.

Lemma Resetting_permitted p b t n x o :
  t = "origin/" ++ b \/ t = "HEAD" ->
  Resetting p b t n x o -> Forall (permitted p b) n.
Proof. intros [->| ->]; permitted_tac. Qed.

Lemma Cleaning_permitted p b n x o :
  Cleaning p n x o -> Forall (permitted p b) n.
Proof. permitted_tac. Qed.

Lemma Deletions_permitted p b bs n x o :
  Deletions p b bs n x o -> Forall (permitted p b) n.
Proof.
  induction 1;
    repeat (apply Forall_cons; [split; [reflexivity|right; eauto]|]);
    auto.
Qed.

Lemma Pruning_permitted p b n x o :
  Pruning p b n x o -> Forall (permitted p b) n.
Proof.
  intros H.
  inversion H as [l Hl|l Hl Ht|l out n' x' count kept Ho Ht HD|l out n' x' code Ho Ht HD];
    subst;
    (apply Forall_cons; [split; [reflexivity|left; listed]|]);
    try apply Forall_nil; eapply Deletions_permitted; eauto.
Qed.

Lemma From_stash_permitted p b n x o :
  From_stash p b n x o -> Forall (permitted p b) n.
Proof.
  revert n x o. unfold From_stash.
  intros n x o. apply seq_phase_Forall; [apply Stashing_permitted|].
  clear n x o. intros _ n x o. unfold From_switch.
  apply seq_phase_Forall; [apply Switching_permitted|].
  clear n x o. intros _ n x o. unfold From_fetch.
  apply seq_phase_Forall_dep; [apply Fetching_permitted|].
  clear n x o. intros t n1 x1 n x o HF. apply Fetching_target in HF.
  unfold From_reset.
  apply seq_phase_Forall; [intros; eapply Resetting_permitted; eauto|].
  clear n x o. intros _ n x o. unfold From_clean.
  apply seq_phase_Forall; [apply Cleaning_permitted|].
  clear n x o. intros _ n x o. unfold From_prune.
  apply seq_phase_Forall; [apply Pruning_permitted|].
  clear n x o. intros _ n x o H. apply Finished_nil in H. subst. constructor.
Qed.

Lemma trace_permitted (p : string) (e : Env) :
  exists b, (b = "main" \/ b = "master") /\
            Forall (permitted p b) (trace_of p e).
Proof.
  destruct (is_repository p) eqn:Hrepo.
  2:{ destruct (run_not_repository p e Hrepo) as [_ [Ht _]].
      rewrite Ht. exists "main". split; [auto|constructor]. }
  destruct (run_anatomy p e Hrepo) as [notes [HS _]].
  destruct HS as [n1 [x1 [o1 [H1 H]]]].
  destruct o1 as [b| |c|ex].
  - destruct H as [n2 [x2 [-> [_ H2]]]].
    exists b. split; [eapply Determined_trunk; eauto|].
    apply Forall_app. split.
    + eapply Determined_permitted; eauto.
    + eapply From_stash_permitted; eauto.
  - destruct H as [-> _]. exists "main". split; [auto|].
    eapply Determined_permitted; eauto.
  - destruct H as [-> _]. exists "main". split; [auto|].
    eapply Determined_permitted; eauto.
  - destruct H as [-> _]. exists "main". split; [auto|].
    eapply Determined_permitted; eauto.
Qed.

(** X7.  A run starts nothing but the configured git executable, always in
    the repository directory, and only with the command lines of the
    script: the two reference queries, the stash push and drop, the
    checkout and the fetch of the trunk, the query of the current branch,
    the hard reset to [origin/<trunk>] or [HEAD], the clean, the branch
    listing, and deletions of branches other than the trunk, where the
    trunk is [main] or [master] throughout the run. *)
Theorem only_permitted_commands (p : string) (e : Env) :
  exists b, (b = "main" \/ b = "master") /\
            Forall (permitted p b) (trace_of p e).
Proof. exact (trace_permitted p e). Qed.

Lemma same_stage_in_order (k : nat) (n : list Invocation) :
  Forall (fun i => stage i = k) n -> in_step_order n.
Proof.
  unfold in_step_order. induction 1 as [|i n Hi Hn IH]; constructor; auto.
  eapply Forall_impl; [|exact Hn]. simpl. intros j Hj. lia.
Qed.

Lemma in_step_order_app (k : nat) (n1 n2 : list Invocation) :
  Forall (fun i => stage i = k) n1 ->
  Forall (fun i => (k <= stage i)%nat) n2 ->
  in_step_order n2 -> in_step_order (n1 ++ n2).
Proof.
  unfold in_step_order. intros H1 H2 Hs.
  induction H1 as [|i n Hi Hn IH]; simpl; auto.
  constructor; auto. apply Forall_app. split.
  - eapply Forall_impl; [|exact Hn]. simpl. intros j Hj. lia.
  - eapply Forall_impl; [|exact H2]. simpl. intros j Hj. lia.
Qed.

Lemma seq_phase_in_order {A B : Type} (P : Phase A) (K : A -> Phase B)
      (k : nat) n x o :
  (forall n1 x1 o1, P n1 x1 o1 -> Forall (fun i => stage i = k) n1) ->
  (forall a n2 x2 o2, K a n2 x2 o2 ->
                      Forall (fun i => (k <= stage i)%nat) n2 /\ in_step_order n2) ->
  seq_phase P K n x o -> in_step_order n.
Proof.
  intros HP HK [n1 [x1 [o1 [H1 H]]]]. apply HP in H1.
  destruct o1 as [a| |c|ex].
  - destruct H as [n2 [x2 [-> [-> H2]]]]. apply HK in H2.
    destruct H2 as [Hge Hs]. eapply in_step_order_app; eauto.
  - destruct H as [-> _]. eapply same_stage_in_order; eauto.
  - destruct H as [-> _]. eapply same_stage_in_order; eauto.
  - destruct H as [-> _]. eapply same_stage_in_order; eauto.
Qed.

Lemma From_stash_stage p b n x o :
  From_stash p b n x o -> Forall (fun i => (2 <= stage i)%nat) n.
Proof.
  apply seq_phase_Forall.
  - intros. eapply Forall_stage_ge; [|eapply Stashing_stage; eauto]. lia.
  - intros. eapply Forall_impl; [|eapply From_switch_stage; eauto].
    simpl. intros. lia.
Qed.

Ltac weaker_bound H :=
  eapply Forall_impl; [|eapply H; eauto]; simpl; intros; lia.

Lemma Steps_in_order p n x o : Steps p n x o -> in_step_order n.
Proof.
  revert n x o. unfold Steps.
  intros n x o. apply (seq_phase_in_order _ _ 1); [apply Determined_stage|].
  clear n x o. intros b n x o H. split; [weaker_bound From_stash_stage|].
  revert H. unfold From_stash.
  apply (seq_phase_in_order _ _ 2); [apply Stashing_stage|].
  clear n x o. intros _ n x o H. split; [weaker_bound From_switch_stage|].
  revert H. unfold From_switch.
  apply (seq_phase_in_order _ _ 3); [apply Switching_stage|].
  clear n x o. intros _ n x o H. split; [weaker_bound From_fetch_stage|].
  revert H. unfold From_fetch.
  apply (seq_phase_in_order _ _ 4); [apply Fetching_stage|].
  clear n x o. intros t n x o H. split; [weaker_bound From_reset_stage|].
  revert H. unfold From_reset.
  apply (seq_phase_in_order _ _ 5); [apply Resetting_stage|].
  clear n x o. intros _ n x o H. split; [weaker_bound From_clean_stage|].
  revert H. unfold From_clean.
  apply (seq_phase_in_order _ _ 6); [apply Cleaning_stage|].
  clear n x o. intros _ n x o H. split; [weaker_bound From_prune_stage|].
  revert H. unfold From_prune.
  apply (seq_phase_in_order _ _ 7); [apply Pruning_stage|].
  clear n x o. intros _ n x o H. apply Finished_nil in H. subst.
  split; constructor.
Qed.

Lemma permitted_stage p b i : permitted p b i -> (1 <= stage i <= 7)%nat.
Proof.
  intros [_ [Hin|[y [_ [Hd|Hd]]]]].
  - unfold stage, kind. simpl in Hin.
    repeat (destruct Hin as [<-|Hin]; [simpl; lia|]). contradiction.
  - unfold stage, kind. rewrite Hd. simpl. lia.
  - unfold stage, kind. rewrite Hd. simpl. lia.
Qed.

(** X8.  The child processes of a run come in the order of the script's
    steps (reference queries, stash, checkout and confirmation, fetch, hard
    reset, clean, listing and deletions): once a command of a later step
    has been issued, no command of an earlier step is issued again, and
    every command belongs to one of the seven steps. *)
Theorem run_is_in_step_order (p : string) (e : Env) :
  in_step_order (trace_of p e) /\
  Forall (fun i => (1 <= stage i <= 7)%nat) (trace_of p e).
Proof.
  destruct (is_repository p) eqn:Hrepo.
  2:{ destruct (run_not_repository p e Hrepo) as [_ [Ht _]].
      rewrite Ht. split; constructor. }
  destruct (run_anatomy p e Hrepo) as [notes [HS _]].
  split; [eapply Steps_in_order; eauto|].
  destruct (trace_permitted p e) as [b [_ Hb]].
  eapply Forall_impl; [|exact Hb]. apply permitted_stage.
Qed.

(** X9.  A run reaches its last statement only along one path: a checkout
    of the trunk that succeeded, a confirmation that answered with the
    trunk's name, the fetch, a hard reset that succeeded on the target the
    fetch decided ([origin/<trunk>] after a successful fetch, [HEAD]
    otherwise), the clean and the branch listing, in this order and with
    nothing in between; before them come only reference queries and the
    stash, after them only branch deletions. *)
Theorem completed_run_anatomy (p : string) (e : Env) :
  completes p e ->
  exists b pre c v f target r k l rest,
    (b = "main" \/ b = "master") /\
    trace_of p e
    = (pre ++ [Invoke (CHECKOUT b) p c; Invoke SHOW_CURRENT p v;
               Invoke (FETCH b) p f; Invoke (RESET_HARD target) p r;
               Invoke CLEAN p k; Invoke LIST_BRANCHES p l] ++ rest)%list /\
    succeeded c = true /\ output v = Some b /\
    target = (if succeeded f then "origin/" ++ b else "HEAD") /\
    succeeded r = true /\
    Forall (fun i => kind i = ShowRef \/ kind i = StashPush \/ kind i = StashDrop) pre /\
    Forall (fun i => kind i = ForceDelete \/ kind i = SafeDelete) rest /\
    In MSG_COMPLETE (printed p e).
Proof.
  intros Hdone. unfold completes in Hdone.
  destruct (is_repository p) eqn:Hrepo.
  2:{ destruct (run_not_repository p e Hrepo) as [Hg _].
      unfold gives_up in Hg. congruence. }
  destruct (run_anatomy p e Hrepo) as [notes [HS [_ Hincl]]].
  rewrite Hdone in HS.
  destruct HS as [n1 [x1 [o1 [H1 H]]]].
  destruct o1 as [b| | |]; try (destruct H as [_ [_ []]]).
  destruct H as [r1 [y1 [Hn [Hx H]]]].
  destruct H as [n2 [x2 [o2 [H2 H]]]].
  destruct o2 as [[]| | |]; try (destruct H as [_ [_ []]]).
  destruct H as [r2 [y2 [-> [-> H]]]].
  destruct H as [n3 [x3 [o3 [H3 H]]]].
  destruct o3 as [[]| | |]; try (destruct H as [_ [_ []]]).
  destruct H as [r3 [y3 [-> [-> H]]]].
  destruct H as [n4 [x4 [o4 [H4 H]]]].
  destruct o4 as [t| | |]; try (destruct H as [_ [_ []]]).
  destruct H as [r4 [y4 [-> [-> H]]]].
  destruct H as [n5 [x5 [o5 [H5 H]]]].
  destruct o5 as [[]| | |]; try (destruct H as [_ [_ []]]).
  destruct H as [r5 [y5 [-> [-> H]]]].
  destruct H as [n6 [x6 [o6 [H6 H]]]].
  destruct o6 as [[]| | |]; try (destruct H as [_ [_ []]]).
  destruct H as [r6 [y6 [-> [-> H]]]].
  destruct H as [n7 [x7 [o7 [H7 H]]]].
  destruct o7 as [[]| | |]; try (destruct H as [_ [_ []]]).
  destruct H as [r7 [y7 [-> [-> [-> [-> _]]]]]].
  inversion H3 as [| | | |c v Hc Hv]; subst n3 x3.
  assert (Hf : exists f, n4 = [Invoke (FETCH b) p f] /\
                         t = (if succeeded f then "origin/" ++ b else "HEAD")).
  { inversion H4 as [f Hf|f Hf|]; subst; exists f; split; auto.
    - now rewrite Hf.
    - now rewrite (failed_not_succeeded _ Hf). }
  destruct Hf as [f [-> Ht]].
  inversion H5 as [r Hr| |]; subst n5 x5.
  assert (Hk : exists k, n6 = [Invoke CLEAN p k]).
  { inversion H6; subst; eauto. }
  destruct Hk as [k ->].
  assert (Hl : exists l rest, n7 = Invoke LIST_BRANCHES p l :: rest /\
                 Forall (fun i => kind i = ForceDelete \/ kind i = SafeDelete) rest).
  { inversion H7 as [|l Hl Hno|l out n' x' count kept Ho Hy HD|]; subst.
    - exists l, []. split; [reflexivity|constructor].
    - exists l, n'. split; [reflexivity|]. eapply Deletions_kinds; eauto. }
  destruct Hl as [l [rest [-> Hrest]]].
  exists b, (n1 ++ n2)%list, c, v, f, t, r, k, l, rest.
  split; [eapply Determined_trunk; eauto|].
  split; [rewrite Hn; cbn [app]; rewrite <- !app_assoc, app_nil_r; reflexivity|].
  split; [exact Hc|]. split; [exact Hv|]. split; [exact Ht|]. split; [exact Hr|].
  split.
  { apply Forall_app. split.
    - apply Determined_stage in H1. eapply Forall_impl; [|exact H1].
      intros i Hi. unfold stage in Hi. destruct (kind i); simpl in Hi;
        try discriminate; auto.
    - apply Stashing_stage in H2. eapply Forall_impl; [|exact H2].
      intros i Hi. unfold stage in Hi. destruct (kind i); simpl in Hi;
        try discriminate; auto. }
  split; [exact Hrest|].
  apply Hincl. rewrite Hx. repeat (apply in_or_app; right). now left.
Qed.

(** X10.  [master] is the fallback of the resolver: when the reference
    query for [main] fails and the one for [master] succeeds, the resolver
    returns ["master"] after exactly these two queries. *)
Theorem master_is_the_fallback
        (p : string) (w : World) (r1 r2 : ProcResult) (e1 e2 : Env) :
  spawn (env w) SHOW_REF_MAIN p = (r1, e1) -> failed r1 = true ->
  spawn e1 SHOW_REF_MASTER p = (r2, e2) -> succeeded r2 = true ->
  fst (get_main_branch_name p w) = Normal (Some "master") /\
  calls (snd (get_main_branch_name p w))
  = (calls w ++ [Invoke SHOW_REF_MAIN p r1; Invoke SHOW_REF_MASTER p r2])%list /\
  env (snd (get_main_branch_name p w)) = e2.
Proof.
  intros Hs1 Hf1 Hs2 Hok2.
  pose proof (get_main_branch_name_spec p w) as H. unfold wp in H.
  destruct H as [n0 [notes [Hc [Ha [_ [_ HR]]]]]].
  inversion HR; subst; rewrite Hc;
    apply Answers_head in Ha; destruct Ha as [e' [Hs' Ha]];
    rewrite Hs1 in Hs'; inversion Hs'; subst;
    try (apply failed_not_succeeded in Hf1; congruence);
    try (apply failed_launched in Hf1; congruence);
    apply Answers_head in Ha; destruct Ha as [e'' [Hs'' Ha]];
    rewrite Hs2 in Hs''; inversion Hs''; subst;
    try (apply succeeded_launched in Hok2; congruence);
    try (match goal with Hf : failed _ = true |- _ =>
           apply failed_not_succeeded in Hf; congruence end).
  apply Answers_nil_inv in Ha. auto.
Qed.

(** X11.  The deletion loop accounts for every listed branch other than the
    trunk exactly once.  Started with the tally [(dc, fd)], a loop that
    runs to its end returns [dc] plus the number of deleted branches and
    [fd] followed by the branches that could not be deleted, in the order
    of the listing; the two together are as many as the listed branches
    other than the trunk, and the trunk is never among the failures.  The
    loop ends otherwise only through [sys.exit(1)]. *)
Theorem deletion_tally_accounts_for_every_branch
        (p b : string) (bs : list string) (dc : Z) (fd : list string) (w : World) :
  match fst (for_each bs (delete_branch p b) (dc, fd) w) with
  | Normal (count, failures) =>
      exists kept,
        failures = (fd ++ kept)%list /\
        (count - dc) + Z.of_nat (List.length kept)
        = Z.of_nat (List.length (other_than b bs)) /\
        0 <= count - dc /\
        incl kept (other_than b bs)
  | SystemExit code => code = 1
  | Returned | Raised _ => False
  end.
Proof.
  pose proof (delete_loop_spec p b bs dc fd w) as H. unfold wp in H.
  destruct H as [o0 [[n [notes [_ [_ [_ [_ HD]]]]]] Ho]].
  rewrite Ho.
  destruct (Deletions_outcome _ _ _ _ _ _ HD) as [[c [f ->]]| ->];
    [|reflexivity].
  destruct (Deletions_attempts _ _ _ _ _ _ _ HD)
    as [atts [Hm [_ [_ [Hf [Hc _]]]]]].
  simpl. exists f. split; [reflexivity|].
  assert (Hlen : (List.length (filter deleted atts)
                  + List.length (filter (fun a => negb (deleted a)) atts)
                  = List.length atts)%nat).
  { clear. induction atts as [|a atts IH]; simpl; [reflexivity|].
    destruct (deleted a); simpl; lia. }
  assert (Hsub : incl f (other_than b bs)).
  { rewrite Hf, <- Hm. intros y Hy. apply in_map_iff in Hy.
    destruct Hy as [a [<- Ha]]. apply in_map. apply filter_In in Ha. tauto. }
  split; [|split; [lia|exact Hsub]].
  rewrite <- Hm, length_map. rewrite Hf at 1. rewrite length_map. lia.
Qed.

Lemma print_lines_console (lines : list string) (w : World) :
  for_each lines (fun line _ => print line) tt w
  = (Normal tt,
     {| env := env w; calls := calls w;
        console := (console w ++ map (pair Stdout) lines)%list |}).
Proof.
  revert w. induction lines as [|l lines IH]; intros w.
  - simpl. unfold ret. rewrite app_nil_r. now destruct w.
  - simpl. unfold bind, print, emit. rewrite IH. cbn [env calls console].
    now rewrite <- app_assoc.
Qed.

(** X12.  What [run_command] prints.  It first announces the resolved
    command line on standard output.  After exit status 0 it echoes the
    child's standard output line by line, and nothing goes to the error
    stream.  After a non-zero exit status it prints to the error stream the
    command as the caller wrote it, the resolved command line, the exit
    status and the two captured streams; the child's output is not echoed.
    A missing executable and any other exception get their own lines on the
    error stream. *)
Theorem run_command_log (cmd0 : string) (args : list string) (cwd : string) (w : World) :
  let cmd := resolved cmd0 args in
  let original := PyStr.join " " (cmd0 :: args) in
  let attempted := PyStr.join " " cmd in
  let announced := (Stdout, "Running in " ++ cwd ++ ": " ++ attempted) in
  let report : list (Stream * string) :=
    match fst (spawn (env w) cmd cwd) with
    | Completed rc out err =>
        if rc =? 0 then map (pair Stdout) (PyStr.splitlines out)
        else [(Stderr, "Error running command: " ++ original);
              (Stderr, "Full command attempted: " ++ attempted);
              (Stderr, "Return code: " ++ PyStr.of_int rc);
              (Stderr, "Stderr: " ++ err);
              (Stderr, "Stdout: " ++ out)]
    | NotFound =>
        [(Stderr, "Error: Command '" ++ hd "" cmd
                  ++ "' not found. Is the GIT_EXECUTABLE path correct?");
         (Stderr, "Path used: " ++ GIT_EXECUTABLE)]
    | Broken msg =>
        [(Stderr, "An unexpected error occurred running " ++ original
                  ++ ": " ++ msg)]
    end in
  console (snd (run_command (cmd0 :: args) cwd w))
  = (console w ++ announced :: report)%list.
Proof.
  cbv zeta. unfold run_command, resolved, git.
  set (cmd := if String.eqb cmd0 "git" then GIT_EXECUTABLE :: args else cmd0 :: args).
  unfold bind at 1, print at 1, emit at 1, try_except, bind at 1, subprocess_run.
  cbn [env calls console].
  destruct (spawn (env w) cmd cwd) as [r e'] eqn:Hs.
  destruct r as [rc out err| |msg]; cbn [andb fst].
  - destruct (rc =? 0) eqn:Hrc; cbn [negb].
    + unfold bind at 1. cbn [stdout]. rewrite print_lines_console.
      unfold ret. cbn [snd env calls console].
      rewrite <- app_assoc. reflexivity.
    + unfold bind, eprint, emit, ret. cbn [snd env calls console].
      repeat rewrite <- app_assoc. reflexivity.
  - unfold bind, eprint, emit, sys_exit. cbn [snd env calls console].
    repeat rewrite <- app_assoc. reflexivity.
  - unfold bind, eprint, emit, ret. cbn [snd env calls console exception_text].
    repeat rewrite <- app_assoc. reflexivity.
Qed.

(** Strings *)

Lemma string_app_nil (s : string) : s ++ "" = s.
Proof. induction s; simpl; congruence. Qed.

Lemma string_app_assoc (a b c : string) : (a ++ b) ++ c = a ++ b ++ c.
Proof. induction a; simpl; congruence. Qed.

Lemma concat_nosep (x : string) (xs : list string) :
  String.concat "" (x :: xs) = x ++ String.concat "" xs.
Proof.
  destruct xs as [|y ys]; simpl; [now rewrite string_app_nil|reflexivity].
Qed.

Lemma linebreak_is_space (c : ascii) :
  PyStr.is_linebreak c = true -> PyStr.is_space c = true.
Proof.
  unfold PyStr.is_linebreak, PyStr.is_space. cbv zeta.
  generalize (nat_of_ascii c). intros n H.
  repeat rewrite orb_true_iff in *. repeat rewrite andb_true_iff in *.
  repeat rewrite Nat.leb_le in *. repeat rewrite Nat.eqb_eq in *. lia.
Qed.

Lemma lf_is_space (c : ascii) : PyStr.is_lf c = true -> PyStr.is_space c = true.
Proof.
  unfold PyStr.is_lf, PyStr.is_space. cbv zeta.
  generalize (nat_of_ascii c). intros n H.
  repeat rewrite orb_true_iff in *. repeat rewrite andb_true_iff in *.
  repeat rewrite Nat.leb_le in *. repeat rewrite Nat.eqb_eq in *. lia.
Qed.

(** One line without white space inside its text, ended by a line feed. *)
Lemma splitlines_one_line (body rest cur : string) :
  spaceless body = true ->
  PyStr.splitlines_from false cur (body ++ ToyGit.nl ++ rest)
  = (cur ++ body) :: PyStr.splitlines_from false "" rest.
Proof.
  revert cur. induction body as [|c body IH]; intros cur Hb.
  - simpl. now rewrite string_app_nil.
  - simpl in Hb. apply andb_true_iff in Hb. destruct Hb as [Hc Hb].
    apply negb_true_iff in Hc.
    cbn [append PyStr.splitlines_from andb].
    destruct (PyStr.is_linebreak c) eqn:Hlb.
    { apply linebreak_is_space in Hlb. congruence. }
    rewrite IH by exact Hb. now rewrite string_app_assoc.
Qed.

Lemma rstrip_spaceless (s : string) : spaceless s = true -> PyStr.rstrip s = s.
Proof.
  induction s as [|c s IH]; simpl; [reflexivity|]. intros H.
  apply andb_true_iff in H. destruct H as [Hc Hs].
  apply negb_true_iff in Hc. rewrite (IH Hs), Hc. now destruct s.
Qed.

Lemma lstrip_plain (s : string) : plain_name s -> PyStr.lstrip s = s.
Proof.
  intros [Hne Hs]. destruct s as [|c s]; [contradiction|]. simpl in *.
  apply andb_true_iff in Hs. destruct Hs as [Hc _].
  apply negb_true_iff in Hc. now rewrite Hc.
Qed.

Lemma strip_indented (s : string) : plain_name s -> PyStr.strip ("  " ++ s) = s.
Proof.
  intros H. unfold PyStr.strip.
  change (PyStr.lstrip ("  " ++ s)) with (PyStr.lstrip s).
  rewrite (lstrip_plain _ H). apply rstrip_spaceless, H.
Qed.

Lemma strip_marked (s : string) : plain_name s -> PyStr.strip ("* " ++ s) = "* " ++ s.
Proof.
  intros [Hne Hs]. unfold PyStr.strip.
  change (PyStr.lstrip ("* " ++ s)) with ("* " ++ s).
  cbn [append PyStr.rstrip]. rewrite (rstrip_spaceless _ Hs).
  destruct s as [|c s]; [contradiction|]. reflexivity.
Qed.

Lemma replace_spaceless (s : string) :
  spaceless s = true -> PyStr.replace_from "* " "" O s = s.
Proof.
  induction s as [|c s IH]; [reflexivity|]. intros H.
  simpl in H. apply andb_true_iff in H. destruct H as [Hc Hs].
  cbn [PyStr.replace_from].
  assert (Hp : prefix "* " (String c s) = false).
  { cbn [prefix]. destruct (ascii_dec "*" c); [|reflexivity].
    destruct s as [|c' s]; [reflexivity|]. cbn [prefix].
    destruct (ascii_dec " " c') as [<-|]; [|reflexivity].
    simpl in Hs. discriminate Hs. }
  rewrite Hp, (IH Hs). reflexivity.
Qed.

Lemma parse_indented (s : string) :
  plain_name s -> PyStr.replace "* " "" (PyStr.strip ("  " ++ s)) = s.
Proof.
  intros H. rewrite (strip_indented _ H). apply replace_spaceless, H.
Qed.

Lemma parse_marked (s : string) :
  plain_name s -> PyStr.replace "* " "" (PyStr.strip ("* " ++ s)) = s.
Proof.
  intros H. rewrite (strip_marked _ H). destruct H as [_ Hs].
  assert (Hp : prefix "* " (String "*" (String " " s)) = true).
  { cbn [prefix].
    destruct (ascii_dec "*" "*") as [_|Hn]; [|now contradiction Hn].
    destruct (ascii_dec " " " ") as [_|Hn]; [now destruct s|now contradiction Hn]. }
  unfold PyStr.replace. change ("* " ++ s) with (String "*" (String " " s)).
  cbn [PyStr.replace_from]. rewrite Hp.
  cbn [String.length Nat.pred append PyStr.replace_from].
  apply replace_spaceless, Hs.
Qed.

Lemma marker_spaceless_line (mark s : string) :
  mark = "* " \/ mark = "  " -> plain_name s ->
  PyStr.truthy (PyStr.strip (mark ++ s)) = true /\
  PyStr.replace "* " "" (PyStr.strip (mark ++ s)) = s.
Proof.
  intros [->| ->] H.
  - split; [|now apply parse_marked]. rewrite (strip_marked _ H). reflexivity.
  - split; [|now apply parse_indented]. rewrite (strip_indented _ H).
    destruct H as [Hne _]. destruct s; [contradiction|reflexivity].
Qed.

(** git's listing, line by line: with the lines already read in [cur]... *)
Lemma splitlines_marked_lines (h : string) (names : list string) :
  Forall plain_name names ->
  PyStr.splitlines
    (String.concat ""
       (map (fun b => (if String.eqb b h then "* " else "  ") ++ b ++ ToyGit.nl)
            names))
  = map (fun b => (if String.eqb b h then "* " else "  ") ++ b) names.
Proof.
  unfold PyStr.splitlines.
  induction 1 as [|b names Hb Hn IH]; [reflexivity|].
  cbn [map]. rewrite concat_nosep.
  assert (Hline : spaceless b = true) by apply Hb.
  destruct (String.eqb b h).
  - change (("* " ++ b ++ ToyGit.nl) ++ ?r) with ("* " ++ (b ++ ToyGit.nl) ++ r).
    rewrite string_app_assoc.
    change (PyStr.splitlines_from false "" ("* " ++ b ++ ToyGit.nl ++ ?r))
      with (PyStr.splitlines_from false "* " (b ++ ToyGit.nl ++ r)).
    rewrite splitlines_one_line; [|exact Hline].
    now rewrite IH.
  - change (("  " ++ b ++ ToyGit.nl) ++ ?r) with ("  " ++ (b ++ ToyGit.nl) ++ r).
    rewrite string_app_assoc.
    change (PyStr.splitlines_from false "" ("  " ++ b ++ ToyGit.nl ++ ?r))
      with (PyStr.splitlines_from false "  " (b ++ ToyGit.nl ++ r)).
    rewrite splitlines_one_line; [|exact Hline].
    now rewrite IH.
Qed.

(** X13.  The list comprehension of step 7 reads git's branch listing
    back: for branch names that are not empty and contain no white space,
    parsing the listing (one branch per line, the current one marked with
    an asterisk, the others indented by two blanks) gives exactly the
    branch names, in order and without the marker. *)
Theorem branch_names_reads_listing (r : ToyGit.Repo) :
  Forall plain_name (ToyGit.branches r) ->
  branch_names (ToyGit.listing r) = ToyGit.branches r.
Proof.
  intros Hnames. unfold branch_names, ToyGit.listing.
  rewrite (splitlines_marked_lines _ _ Hnames).
  induction Hnames as [|b names Hb Hn IH]; [reflexivity|].
  cbn [map filter].
  destruct (marker_spaceless_line (if String.eqb b (ToyGit.head r) then "* " else "  ")
              b) as [Ht Hp]; [destruct (String.eqb b (ToyGit.head r)); auto|exact Hb|].
  rewrite Ht. cbn [map]. rewrite Hp. f_equal. exact IH.
Qed.

Lemma single_shot_stage (k : nat) (n : list Invocation) (a : Kind) :
  Forall (fun i => stage i = k) n ->
  In a (filter single_shot (map kind n)) -> stage_of a = k.
Proof.
  intros Hn Ha. apply filter_In in Ha. destruct Ha as [Ha _].
  apply in_map_iff in Ha. destruct Ha as [i [<- Hi]].
  rewrite Forall_forall in Hn. exact (Hn i Hi).
Qed.

Lemma single_shot_later (k : nat) (n : list Invocation) (a : Kind) :
  Forall (fun i => (S k <= stage i)%nat) n ->
  In a (filter single_shot (map kind n)) -> (S k <= stage_of a)%nat.
Proof.
  intros Hn Ha. apply filter_In in Ha. destruct Ha as [Ha _].
  apply in_map_iff in Ha. destruct Ha as [i [<- Hi]].
  rewrite Forall_forall in Hn. exact (Hn i Hi).
Qed.

Lemma never_repeated_app (k : nat) (n1 n2 : list Invocation) :
  Forall (fun i => stage i = k) n1 ->
  Forall (fun i => (S k <= stage i)%nat) n2 ->
  never_repeated n1 -> never_repeated n2 -> never_repeated (n1 ++ n2).
Proof.
  unfold never_repeated. intros H1 H2 N1 N2.
  rewrite map_app, filter_app. apply NoDup_app; auto.
  intros a Ha Hb.
  apply (single_shot_stage k) in Ha; auto.
  apply (single_shot_later k) in Hb; auto. lia.
Qed.

Lemma seq_phase_never_repeated {A B : Type} (P : Phase A) (K : A -> Phase B)
      (k : nat) n x o :
  (forall n1 x1 o1, P n1 x1 o1 ->
                    Forall (fun i => stage i = k) n1 /\ never_repeated n1) ->
  (forall a n2 x2 o2, K a n2 x2 o2 ->
                      Forall (fun i => (S k <= stage i)%nat) n2 /\
                      never_repeated n2) ->
  seq_phase P K n x o -> never_repeated n.
Proof.
  intros HP HK [n1 [x1 [o1 [H1 H]]]]. apply HP in H1. destruct H1 as [Hk N1].
  destruct o1 as [a| |c|ex].
  - destruct H as [n2 [x2 [-> [-> H2]]]]. apply HK in H2.
    destruct H2 as [Hge N2]. eapply never_repeated_app; eauto.
  - destruct H as [-> _]. exact N1.
  - destruct H as [-> _]. exact N1.
  - destruct H as [-> _]. exact N1.
Qed.

Ltac distinct_kinds :=
  unfold never_repeated; simpl;
  repeat (constructor; [simpl; intuition discriminate|]); constructor.

Lemma Determined_never_repeated p n x o :
  Determined p n x o -> never_repeated n.
Proof.
  intros H; inversion H as [? ? ? HR|? ? ? HR|? ? HR]; subst;
    inversion HR; subst; distinct_kinds.
Qed.

Lemma Stashing_never_repeated p n x o : Stashing p n x o -> never_repeated n.
Proof. intros H; inversion H; subst; distinct_kinds. Qed.

Lemma Switching_never_repeated p b n x o :
  Switching p b n x o -> never_repeated n.
Proof. intros H; inversion H; subst; distinct_kinds. Qed.

Lemma Fetching_never_repeated p b n x o :
  Fetching p b n x o -> never_repeated n.
Proof. intros H; inversion H; subst; distinct_kinds. Qed.

Lemma Resetting_never_repeated p b t n x o :
  Resetting p b t n x o -> never_repeated n.
Proof. intros H; inversion H; subst; distinct_kinds. Qed.

Lemma Cleaning_never_repeated p n x o : Cleaning p n x o -> never_repeated n.
Proof. intros H; inversion H; subst; distinct_kinds. Qed.

Lemma deletions_not_single_shot (n : list Invocation) :
  Forall (fun i => kind i = ForceDelete \/ kind i = SafeDelete) n ->
  filter single_shot (map kind n) = [].
Proof.
  induction 1 as [|i n [Hi|Hi] Hn IH]; simpl; auto; rewrite Hi; simpl; exact IH.
Qed.

Lemma Pruning_never_repeated p b n x o : Pruning p b n x o -> never_repeated n.
Proof.
  intros H; inversion H as [| |? ? ? ? ? ? ? ? HD|? ? ? ? ? ? ? HD]; subst.
  - distinct_kinds.
  - distinct_kinds.
  - apply Deletions_kinds in HD. apply deletions_not_single_shot in HD.
    unfold never_repeated. simpl. rewrite HD.
    constructor; [simpl; tauto|constructor].
  - apply Deletions_kinds in HD. apply deletions_not_single_shot in HD.
    unfold never_repeated. simpl. rewrite HD.
    constructor; [simpl; tauto|constructor].
Qed.

Lemma From_prune_never_repeated p b n x o :
  From_prune p b n x o -> never_repeated n.
Proof.
  intros [n1 [x1 [o1 [H1 H]]]]. apply Pruning_never_repeated in H1.
  destruct o1 as [a| |c|ex].
  - destruct H as [n2 [x2 [-> [-> H2]]]]. apply Finished_nil in H2. subst.
    now rewrite app_nil_r.
  - destruct H as [-> _]. exact H1.
  - destruct H as [-> _]. exact H1.
  - destruct H as [-> _]. exact H1.
Qed.

Lemma Steps_never_repeated p n x o : Steps p n x o -> never_repeated n.
Proof.
  revert n x o. unfold Steps.
  intros n x o. apply (seq_phase_never_repeated _ _ 1).
  { intros n1 x1 o1 H. split;
      [eapply Determined_stage; eauto|eapply Determined_never_repeated; eauto]. }
  clear n x o. intros b n x o H. split; [weaker_bound From_stash_stage|].
  revert H. unfold From_stash.
  apply (seq_phase_never_repeated _ _ 2).
  { intros n1 x1 o1 H. split;
      [eapply Stashing_stage; eauto|eapply Stashing_never_repeated; eauto]. }
  clear n x o. intros _ n x o H. split; [weaker_bound From_switch_stage|].
  revert H. unfold From_switch.
  apply (seq_phase_never_repeated _ _ 3).
  { intros n1 x1 o1 H. split;
      [eapply Switching_stage; eauto|eapply Switching_never_repeated; eauto]. }
  clear n x o. intros _ n x o H. split; [weaker_bound From_fetch_stage|].
  revert H. unfold From_fetch.
  apply (seq_phase_never_repeated _ _ 4).
  { intros n1 x1 o1 H. split;
      [eapply Fetching_stage; eauto|eapply Fetching_never_repeated; eauto]. }
  clear n x o. intros t n x o H. split; [weaker_bound From_reset_stage|].
  revert H. unfold From_reset.
  apply (seq_phase_never_repeated _ _ 5).
  { intros n1 x1 o1 H. split;
      [eapply Resetting_stage; eauto|eapply Resetting_never_repeated; eauto]. }
  clear n x o. intros _ n x o H. split; [weaker_bound From_clean_stage|].
  revert H. unfold From_clean.
  apply (seq_phase_never_repeated _ _ 6).
  { intros n1 x1 o1 H. split;
      [eapply Cleaning_stage; eauto|eapply Cleaning_never_repeated; eauto]. }
  clear n x o. intros _ n x o H. split; [weaker_bound From_prune_stage|].
  eapply From_prune_never_repeated; eauto.
Qed.

(** X14.  A run never retries.  The stash push, the stash drop, the
    checkout of the trunk, the query of the current branch, the fetch, the
    hard reset, the clean and the branch listing are each issued at most
    once in a run, whatever the answers of git: among the operations of a
    run, those other than reference queries and branch deletions are
    pairwise different. *)
Theorem run_never_retries (p : string) (e : Env) :
  never_repeated (trace_of p e).
Proof.
  destruct (is_repository p) eqn:Hrepo.
  2:{ destruct (run_not_repository p e Hrepo) as [_ [Ht _]].
      rewrite Ht. constructor. }
  destruct (run_anatomy p e Hrepo) as [notes [HS _]].
  eapply Steps_never_repeated; eauto.
Qed.

End Script.

(** ** The script on concrete repositories *)

Abbreviation toy_trace :=
  (trace_of ToyGit.Repo ToyGit.spawn ToyGit.present ToyGit.join).
Abbreviation toy_printed :=
  (printed ToyGit.Repo ToyGit.spawn ToyGit.present ToyGit.join).
Abbreviation toy_gives_up :=
  (gives_up ToyGit.Repo ToyGit.spawn ToyGit.present ToyGit.join).
Abbreviation toy_completes :=
  (completes ToyGit.Repo ToyGit.spawn ToyGit.present ToyGit.join).

Abbreviation toy_main :=
  (main ToyGit.Repo ToyGit.spawn ToyGit.present ToyGit.present ToyGit.present
        ToyGit.join ToyGit.abspath).

Abbreviation toy_script :=
  (script ToyGit.Repo ToyGit.spawn ToyGit.present ToyGit.present ToyGit.present
          ToyGit.join ToyGit.abspath ToyArgparse.parse).

Ltac pick := repeat first [left; reflexivity | right].

Lemma hard_reset_failure_is_final_witness :
  let i := Invoke (RESET_HARD "HEAD") Scenario.WORK
             (Completed 128 "" "fatal: Unable to create index.lock") in
  In i (toy_trace Scenario.WORK Scenario.locked) /\
  kind i = HardReset /\ failed (inv_result i) = true /\
  toy_gives_up Scenario.WORK Scenario.locked /\
  (exists pre, toy_trace Scenario.WORK Scenario.locked = (pre ++ [i])%list).
Proof.
  intros i.
  assert (Hin : In i (toy_trace Scenario.WORK Scenario.locked))
    by (vm_compute; pick).
  assert (Hk : kind i = HardReset) by reflexivity.
  assert (Hf : failed (inv_result i) = true) by reflexivity.
  destruct (hard_reset_failure_is_final _ _ _ _ _ _ i Hin Hk Hf) as [H1 [H2 _]].
  split; [exact Hin|]. split; [exact Hk|]. split; [exact Hf|].
  split; [exact H1|exact H2].
Defined.

Lemma main_is_preferred_witness :
  let w := start ToyGit.Repo Scenario.busy in
  ToyGit.spawn (env _ w) SHOW_REF_MAIN Scenario.WORK
  = (Completed 0 "" "", Scenario.busy) /\
  succeeded (Completed 0 "" "") = true /\
  fst (get_main_branch_name ToyGit.Repo ToyGit.spawn Scenario.WORK w)
  = Normal (Some "main") /\
  calls _ (snd (get_main_branch_name ToyGit.Repo ToyGit.spawn Scenario.WORK w))
  = [Invoke SHOW_REF_MAIN Scenario.WORK (Completed 0 "" "")].
Proof.
  intros w.
  assert (Hs : ToyGit.spawn (env _ w) SHOW_REF_MAIN Scenario.WORK
               = (Completed 0 "" "", Scenario.busy)) by reflexivity.
  assert (Hok : succeeded (Completed 0 "" "") = true) by reflexivity.
  destruct (main_is_preferred _ _ Scenario.WORK w _ _ Hs) as [H _].
  destruct (H Hok) as [H1 H2].
  split; [exact Hs|]. split; [exact Hok|]. split; [exact H1|exact H2].
Defined.

Lemma no_trunk_no_state_change_witness :
  let r := Completed 1 "" "" in
  is_repository ToyGit.present ToyGit.join Scenario.WORK = true /\
  ToyGit.spawn Scenario.trunkless SHOW_REF_MAIN Scenario.WORK
  = (r, Scenario.trunkless) /\
  failed r = true /\
  ToyGit.spawn Scenario.trunkless SHOW_REF_MASTER Scenario.WORK
  = (r, Scenario.trunkless) /\
  toy_gives_up Scenario.WORK Scenario.trunkless /\
  toy_trace Scenario.WORK Scenario.trunkless
  = [Invoke SHOW_REF_MAIN Scenario.WORK r; Invoke SHOW_REF_MASTER Scenario.WORK r].
Proof.
  intros r.
  assert (Hrepo : is_repository ToyGit.present ToyGit.join Scenario.WORK = true) by reflexivity.
  assert (Hs1 : ToyGit.spawn Scenario.trunkless SHOW_REF_MAIN Scenario.WORK
                = (r, Scenario.trunkless)) by reflexivity.
  assert (Hf : failed r = true) by reflexivity.
  assert (Hs2 : ToyGit.spawn Scenario.trunkless SHOW_REF_MASTER Scenario.WORK
                = (r, Scenario.trunkless)) by reflexivity.
  destruct (no_trunk_no_state_change _ _ _ _ Scenario.WORK _ _ _ _ _
              Hrepo Hs1 Hf Hs2 Hf) as [H1 [H2 _]].
  split; [exact Hrepo|]. split; [exact Hs1|]. split; [exact Hf|].
  split; [exact Hs2|]. split; [exact H1|exact H2].
Defined.

Lemma fetch_outcome_selects_reset_target_witness :
  let i := Invoke (FETCH "master") Scenario.WORK
             (Completed 128 ""
                ("fatal: 'origin' does not appear to be a git repository" ++ ToyGit.nl)) in
  In i (toy_trace Scenario.WORK Scenario.offline) /\
  kind i = Fetch /\
  exists b pre rest,
    toy_trace Scenario.WORK Scenario.offline = (pre ++ i :: rest)%list /\
    (failed (inv_result i) = true ->
     exists r post, rest = Invoke (RESET_HARD "HEAD") Scenario.WORK r :: post) /\
    (succeeded (inv_result i) = true ->
     exists r post, rest = Invoke (RESET_HARD ("origin/" ++ b)) Scenario.WORK r :: post).
Proof.
  intros i.
  assert (Hin : In i (toy_trace Scenario.WORK Scenario.offline))
    by (vm_compute; pick).
  assert (Hk : kind i = Fetch) by reflexivity.
  destruct (fetch_outcome_selects_reset_target _ _ _ _ _ _ i Hin Hk)
    as [b [pre [rest [_ [_ [Ht [Hok Hfail]]]]]]].
  split; [exact Hin|]. split; [exact Hk|].
  exists b, pre, rest. split; [exact Ht|]. split; [|exact Hok].
  intros Hf. destruct (Hfail Hf) as [H _]. exact H.
Defined.



Lemma empty_listing_is_skipped_like_failed_listing_witness :
  let i := Invoke LIST_BRANCHES Scenario.WORK (Completed 0 "" "") in
  In i (toy_trace Scenario.WORK Scenario.silent) /\
  kind i = ListBranches /\
  (succeeded (inv_result i) = true /\ output (inv_result i) = Some "") /\
  toy_completes Scenario.WORK Scenario.silent /\
  (exists pre, toy_trace Scenario.WORK Scenario.silent = (pre ++ [i])%list) /\
  In MSG_NO_LISTING (toy_printed Scenario.WORK Scenario.silent).
Proof.
  intros i.
  assert (Hin : In i (toy_trace Scenario.WORK Scenario.silent))
    by (vm_compute; pick).
  assert (Hk : kind i = ListBranches) by reflexivity.
  assert (Hres : succeeded (inv_result i) = true /\ output (inv_result i) = Some "")
    by (split; reflexivity).
  destruct (empty_listing_is_skipped_like_failed_listing _ _ _ _ _ _ i Hin Hk
              (or_intror Hres)) as [H1 [H2 [_ H4]]].
  split; [exact Hin|]. split; [exact Hk|]. split; [exact Hres|].
  split; [exact H1|]. split; [exact H2|exact H4].
Defined.


(** C6.  The pruner misses a branch that is checked out in a linked
    worktree.  [git branch] marks the line of such a branch with a plus
    sign, and the list comprehension of step 7 removes only the asterisk of
    the current branch.  On the listing of [main], [side] (in a worktree)
    and [wip], the run issues the forced and the lenient deletion for the
    name [+ side], which is no branch, records a warning for it, and never
    issues a deletion for [side]; the run completes all the same. *)
Theorem worktree_branch_is_not_attempted :
  let trace := toy_trace Scenario.WORK Scenario.shared in
  In (Invoke LIST_BRANCHES Scenario.WORK (Completed 0 Scenario.SHARED_LISTING ""))
     trace /\
  branch_names (PyStr.strip Scenario.SHARED_LISTING) = ["main"; "+ side"; "wip"] /\
  map inv_argv trace
  = [SHOW_REF_MAIN; STASH_PUSH; CHECKOUT "main"; SHOW_CURRENT; FETCH "main";
     RESET_HARD "origin/main"; CLEAN; LIST_BRANCHES;
     FORCE_DELETE "+ side"; SAFE_DELETE "+ side"; FORCE_DELETE "wip"] /\
  ~ In (FORCE_DELETE "side") (map inv_argv trace) /\
  ~ In (SAFE_DELETE "side") (map inv_argv trace) /\
  In (MSG_DELETE_FAILED "+ side") (toy_printed Scenario.WORK Scenario.shared) /\
  toy_completes Scenario.WORK Scenario.shared.
Proof.
  intros trace. subst trace.
  split; [vm_compute; pick|].
  split; [vm_compute; reflexivity|].
  split; [vm_compute; reflexivity|].
  split.
  { intros H. vm_compute in H.
    repeat (destruct H as [H|H]; [discriminate H|]). exact H. }
  split.
  { intros H. vm_compute in H.
    repeat (destruct H as [H|H]; [discriminate H|]). exact H. }
  split; [vm_compute; pick|vm_compute; reflexivity].
Qed.

(** C1 as the specification states it fails on a repository without trunk
    branch: the run gives up, and the terminal status is 0 all the same. *)
Lemma exit_status_zero_after_giving_up :
  ~ status_tracks_completion ToyGit.Repo ToyGit.spawn ToyGit.present
      ToyGit.present ToyGit.present ToyGit.join ToyGit.abspath
      ToyArgparse.parse [Scenario.WORK] Scenario.trunkless.
Proof.
  unfold status_tracks_completion. intros [H _].
  assert (H0 : exit_status
                 (fst (toy_script [Scenario.WORK]
                                  (start ToyGit.Repo Scenario.trunkless))) = 0)
    by (vm_compute; reflexivity).
  destruct (H H0) as [arg [Hparse [_ Hdone]]].
  assert (Harg : arg = Some Scenario.WORK)
    by (vm_compute in Hparse; inversion Hparse; reflexivity).
  subst arg. vm_compute in Hdone. discriminate Hdone.
Qed.

(** ** Further properties, on concrete repositories *)

Lemma checkout_failure_is_final_witness :
  let i := Invoke (CHECKOUT "main") Scenario.WORK
             (Completed 1 "" "error: Your local changes would be overwritten") in
  In i (toy_trace Scenario.WORK Scenario.blocked) /\
  kind i = Checkout /\ failed (inv_result i) = true /\
  toy_gives_up Scenario.WORK Scenario.blocked /\
  (exists pre, toy_trace Scenario.WORK Scenario.blocked = (pre ++ [i])%list).
Proof.
  intros i.
  assert (Hin : In i (toy_trace Scenario.WORK Scenario.blocked))
    by (vm_compute; pick).
  assert (Hk : kind i = Checkout) by reflexivity.
  assert (Hf : failed (inv_result i) = true) by reflexivity.
  destruct (checkout_failure_is_final _ _ _ _ _ _ i Hin Hk Hf) as [H1 [H2 _]].
  split; [exact Hin|]. split; [exact Hk|]. split; [exact Hf|].
  split; [exact H1|exact H2].
Defined.

Lemma clean_failure_is_not_fatal_witness :
  let i := Invoke CLEAN Scenario.WORK
             (Completed 1 "" "warning: failed to remove build/") in
  In i (toy_trace Scenario.WORK Scenario.sticky) /\
  kind i = Clean /\
  exists pre target r rest,
    toy_trace Scenario.WORK Scenario.sticky
    = (pre ++ Invoke (RESET_HARD target) Scenario.WORK r :: i :: rest)%list /\
    succeeded r = true /\
    (unlaunchable (inv_result i) = false ->
     exists l post, rest = Invoke LIST_BRANCHES Scenario.WORK l :: post) /\
    (failed (inv_result i) = true ->
     In MSG_CLEAN_FAILED (toy_printed Scenario.WORK Scenario.sticky)).
Proof.
  intros i.
  assert (Hin : In i (toy_trace Scenario.WORK Scenario.sticky))
    by (vm_compute; pick).
  assert (Hk : kind i = Clean) by reflexivity.
  destruct (clean_failure_is_not_fatal _ _ _ _ _ _ i Hin Hk)
    as [pre [t [r [rest [Ht [Hr [_ [Hl Hw]]]]]]]].
  split; [exact Hin|]. split; [exact Hk|].
  exists pre, t, r, rest.
  split; [exact Ht|]. split; [exact Hr|]. split; [exact Hl|exact Hw].
Defined.

Lemma destructive_steps_need_confirmed_trunk_witness :
  let i := Invoke (FORCE_DELETE "feature/b") Scenario.WORK
             (Completed 0 ("Deleted branch feature/b." ++ ToyGit.nl) "") in
  In i (toy_trace Scenario.WORK Scenario.busy) /\
  In (kind i) [Fetch; HardReset; Clean; ListBranches; ForceDelete; SafeDelete] /\
  exists b pre c v rest,
    toy_trace Scenario.WORK Scenario.busy
    = (pre ++ Invoke (CHECKOUT b) Scenario.WORK c
           :: Invoke SHOW_CURRENT Scenario.WORK v :: rest)%list /\
    succeeded c = true /\ output v = Some b /\ In i rest.
Proof.
  intros i.
  assert (Hin : In i (toy_trace Scenario.WORK Scenario.busy))
    by (vm_compute; pick).
  assert (Hk : In (kind i)
                 [Fetch; HardReset; Clean; ListBranches; ForceDelete; SafeDelete])
    by (vm_compute; pick).
  destruct (destructive_steps_need_confirmed_trunk _ _ _ _ _ _ i Hin Hk)
    as [b [pre [c [v [rest [_ [Ht [Hc [Hv Hi]]]]]]]]].
  split; [exact Hin|]. split; [exact Hk|].
  exists b, pre, c, v, rest.
  split; [exact Ht|]. split; [exact Hc|]. split; [exact Hv|exact Hi].
Defined.

Lemma stash_drop_only_after_created_stash_witness :
  let i := Invoke STASH_DROP Scenario.WORK
             (Completed 0 ("Dropped refs/stash@{0}" ++ ToyGit.nl) "") in
  In i (toy_trace Scenario.WORK Scenario.busy) /\
  kind i = StashDrop /\
  exists pre push rest,
    toy_trace Scenario.WORK Scenario.busy
    = (pre ++ Invoke STASH_PUSH Scenario.WORK push :: i :: rest)%list /\
    stash_created push = true.
Proof.
  intros i.
  assert (Hin : In i (toy_trace Scenario.WORK Scenario.busy))
    by (vm_compute; pick).
  assert (Hk : kind i = StashDrop) by reflexivity.
  destruct (stash_drop_only_after_created_stash _ _ _ _ _ _ i Hin Hk)
    as [pre [push [rest [Ht [Hc _]]]]].
  split; [exact Hin|]. split; [exact Hk|].
  exists pre, push, rest. split; [exact Ht|exact Hc].
Defined.

Lemma not_a_repository_starts_nothing_witness :
  let run := main ToyGit.Repo ToyGit.spawn ToyGit.present ToyGit.present
                  Scenario.only_work ToyGit.join ToyGit.abspath
                  (Some Scenario.WORK) (start ToyGit.Repo Scenario.busy) in
  configured ToyGit.present ToyGit.present Scenario.only_work ToyGit.abspath
             (Some Scenario.WORK) = true /\
  is_repository Scenario.only_work ToyGit.join
                (target_path ToyGit.abspath (Some Scenario.WORK)) = false /\
  calls _ (snd run) = [] /\
  exit_status (fst run) = 0.
Proof.
  intros run.
  assert (Hcfg : configured ToyGit.present ToyGit.present Scenario.only_work
                            ToyGit.abspath (Some Scenario.WORK) = true)
    by reflexivity.
  assert (Hrepo : is_repository Scenario.only_work ToyGit.join
                    (target_path ToyGit.abspath (Some Scenario.WORK)) = false)
    by reflexivity.
  destruct (not_a_repository_starts_nothing ToyGit.Repo ToyGit.spawn
              ToyGit.present ToyGit.present Scenario.only_work ToyGit.join
              ToyGit.abspath (Some Scenario.WORK) Scenario.busy Hcfg Hrepo)
    as [H1 [_ [_ H4]]].
  split; [exact Hcfg|]. split; [exact Hrepo|]. split; [exact H1|exact H4].
Defined.

Lemma configuration_errors_exit_early_witness :
  let run := main ToyGit.Repo ToyGit.spawn ToyGit.present Scenario.nothing
                  Scenario.nothing ToyGit.join ToyGit.abspath
                  None (start ToyGit.Repo Scenario.busy) in
  configured ToyGit.present Scenario.nothing Scenario.nothing ToyGit.abspath
             None = false /\
  fst run = SystemExit 1 /\
  calls _ (snd run) = [] /\
  console _ (snd run)
  = [(Stderr, "Error: Provided path './test_project' does not exist.")].
Proof.
  intros run.
  assert (Hcfg : configured ToyGit.present Scenario.nothing Scenario.nothing
                            ToyGit.abspath None = false) by reflexivity.
  destruct (configuration_errors_exit_early ToyGit.Repo ToyGit.spawn
              ToyGit.present Scenario.nothing Scenario.nothing ToyGit.join
              ToyGit.abspath None Scenario.busy Hcfg)
    as [H1 [H2 [_ H4]]].
  split; [exact Hcfg|]. split; [exact H1|]. split; [exact H2|exact H4].
Defined.

Lemma completed_run_anatomy_witness :
  toy_completes Scenario.WORK Scenario.offline /\
  exists b pre c v f target r k l rest,
    toy_trace Scenario.WORK Scenario.offline
    = (pre ++ [Invoke (CHECKOUT b) Scenario.WORK c;
               Invoke SHOW_CURRENT Scenario.WORK v;
               Invoke (FETCH b) Scenario.WORK f;
               Invoke (RESET_HARD target) Scenario.WORK r;
               Invoke CLEAN Scenario.WORK k;
               Invoke LIST_BRANCHES Scenario.WORK l] ++ rest)%list /\
    succeeded c = true /\ output v = Some b /\
    target = (if succeeded f then "origin/" ++ b else "HEAD") /\
    succeeded r = true.
Proof.
  assert (Hdone : toy_completes Scenario.WORK Scenario.offline)
    by (vm_compute; reflexivity).
  destruct (completed_run_anatomy _ _ _ _ _ _ Hdone)
    as [b [pre [c [v [f [t [r [k [l [rest [_ [Ht [Hc [Hv [Htg [Hr _]]]]]]]]]]]]]]]].
  split; [exact Hdone|].
  exists b, pre, c, v, f, t, r, k, l, rest.
  split; [exact Ht|]. split; [exact Hc|]. split; [exact Hv|].
  split; [exact Htg|exact Hr].
Defined.

Lemma master_is_the_fallback_witness :
  let w := start ToyGit.Repo Scenario.offline in
  let no := Completed 1 "" "" in
  let yes := Completed 0 "" "" in
  ToyGit.spawn (env _ w) SHOW_REF_MAIN Scenario.WORK = (no, Scenario.offline) /\
  failed no = true /\
  ToyGit.spawn Scenario.offline SHOW_REF_MASTER Scenario.WORK
  = (yes, Scenario.offline) /\
  succeeded yes = true /\
  fst (get_main_branch_name ToyGit.Repo ToyGit.spawn Scenario.WORK w)
  = Normal (Some "master").
Proof.
  intros w no yes.
  assert (Hs1 : ToyGit.spawn (env _ w) SHOW_REF_MAIN Scenario.WORK
                = (no, Scenario.offline)) by reflexivity.
  assert (Hf : failed no = true) by reflexivity.
  assert (Hs2 : ToyGit.spawn Scenario.offline SHOW_REF_MASTER Scenario.WORK
                = (yes, Scenario.offline)) by reflexivity.
  assert (Hok : succeeded yes = true) by reflexivity.
  destruct (master_is_the_fallback _ _ Scenario.WORK w _ _ _ _ Hs1 Hf Hs2 Hok)
    as [H1 _].
  split; [exact Hs1|]. split; [exact Hf|]. split; [exact Hs2|].
  split; [exact Hok|exact H1].
Defined.

Lemma branch_names_reads_listing_witness :
  Forall plain_name (ToyGit.branches Scenario.busy) /\
  branch_names (ToyGit.listing Scenario.busy) = ["main"; "feature/a"; "feature/b"].
Proof.
  assert (H : Forall plain_name (ToyGit.branches Scenario.busy)).
  { repeat (apply Forall_cons; [split; [discriminate|reflexivity]|]).
    apply Forall_nil. }
  split; [exact H|]. exact (branch_names_reads_listing Scenario.busy H).
Defined.

(** ** The scenarios, run *)

Example branch_names_of_a_listing :
  branch_names ("* main" ++ ToyGit.nl ++ "  feature/a" ++ ToyGit.nl
                ++ ToyGit.nl ++ "  wip " ++ ToyGit.nl)
  = ["main"; "feature/a"; "wip"].
Proof. reflexivity. Qed.

Example busy_run_prunes_everything_but_trunk :
  map kind (toy_trace Scenario.WORK Scenario.busy)
  = [ShowRef; StashPush; StashDrop; Checkout; ShowCurrent; Fetch; HardReset;
     Clean; ListBranches; ForceDelete; ForceDelete] /\
  ToyGit.branches (env _ (snd (toy_main (Some Scenario.WORK)
                                        (start ToyGit.Repo Scenario.busy))))
  = ["main"] /\
  exit_status (fst (toy_main (Some Scenario.WORK)
                             (start ToyGit.Repo Scenario.busy))) = 0.
Proof. vm_compute. auto. Qed.

Example stubborn_run_falls_back_to_lenient_deletion :
  map (fun i => (inv_argv i, succeeded (inv_result i)))
      (skipn 8 (toy_trace Scenario.WORK Scenario.stubborn))
  = [(FORCE_DELETE "wip", false); (SAFE_DELETE "wip", true);
     (FORCE_DELETE "old", false); (SAFE_DELETE "old", true)].
Proof. vm_compute. reflexivity. Qed.

Example unlistable_run_still_completes :
  toy_completes Scenario.WORK Scenario.unlistable /\
  In MSG_NO_LISTING (toy_printed Scenario.WORK Scenario.unlistable).
Proof. split; [vm_compute; reflexivity|vm_compute; pick]. Qed.

Example unknown_option_ends_with_status_2 :
  exit_status (fst (toy_script ["--bogus"] (start ToyGit.Repo Scenario.busy))) = 2 /\
  exit_status (fst (toy_script [Scenario.WORK; "extra"]
                               (start ToyGit.Repo Scenario.busy))) = 2 /\
  exit_status (fst (toy_script ["--help"] (start ToyGit.Repo Scenario.busy))) = 0 /\
  calls _ (snd (toy_script ["--bogus"] (start ToyGit.Repo Scenario.busy))) = [].
Proof. vm_compute. auto. Qed.

Example refused_stash_ends_the_process :
  fst (toy_script [Scenario.WORK] (start ToyGit.Repo Scenario.denied))
  = Raised (OtherError "[WinError 5] Access is denied") /\
  exit_status (fst (toy_script [Scenario.WORK]
                               (start ToyGit.Repo Scenario.denied))) = 1 /\
  map kind (toy_trace Scenario.WORK Scenario.denied) = [ShowRef; StashPush].
Proof. vm_compute. auto. Qed.
